(** * CacheForge: the search loop, its ledger and its text helpers

    A shallow embedding of [run_loop_docker.py] (the feedback loop that asks
    a model for cache-replacement policies, builds and simulates them and
    records the hit rates) and of the seeding script [DB_Connection.py].

    Python values are modelled as follows.
    - [str] is a list of Unicode code points ([N]).  The behaviour of
      [str.isalnum], [str.lower], [str.strip] and of the [re] classes on
      ASCII is defined below; what they do on the other code points comes
      from the interpreter's Unicode database, which is a parameter
      ([unicode_db]).
    - [float] is IEEE binary64, Rocq's primitive [float].
    - [int] is [Z] (and [nat] for the loop counter); [int(s)] refuses a
      numeral of more than 4300 digits ([py_int]).
    - the builtin [sum] on floats is a parameter of the seeding script: the
      sum from left to right up to CPython 3.11 ([py_sum]), a compensated
      sum from 3.12 on ([neumaier_sum]).
    - an [INSERT] into the table fails on a NaN, which its [NOT NULL]
      columns do not take ([DB_Connection.insert]).
    - an exception that leaves a function is the [Raise] case of [result]. *)

From Stdlib Require Import ZArith NArith List String Ascii Floats Lia Bool.
From Stdlib Require Import DecimalNat.
From stdpp Require Import base option list gmap.

Set Warnings "-inexact-float".

(* ------------------------------------------------------------------ *)
(** ** Strings *)

Definition str := list N.

(** A literal: the code points of an ASCII string. *)
Definition py (s : string) : str := map N_of_ascii (list_ascii_of_string s).

Definition nl : N := 10%N.
Definition underscore : N := 95%N.

Definition between (lo hi c : N) : bool := (lo <=? c)%N && (c <=? hi)%N.

Definition is_ascii (c : N) : bool := (c <? 128)%N.

Definition ascii_isspace (c : N) : bool :=
  between 9 13 c || between 28 31 c || (c =? 32)%N.
Definition ascii_isdecimal (c : N) : bool := between 48 57 c.
Definition ascii_isupper (c : N) : bool := between 65 90 c.
Definition ascii_islower (c : N) : bool := between 97 122 c.
Definition ascii_isalnum (c : N) : bool :=
  ascii_isupper c || ascii_islower c || ascii_isdecimal c.
Definition ascii_lower (c : N) : N := if ascii_isupper c then (c + 32)%N else c.

(** What the interpreter's Unicode tables say about the code points from 128
    on.  [ucd_lower before c after] is the lowercase mapping of [c] where it
    stands (one code point can lower to several, and capital sigma lowers by
    context); [ucd_caseless p c] says whether the pattern character [p]
    matches [c] under [re.IGNORECASE]. *)
Record unicode_db := {
  ucd_isspace : N -> bool;
  ucd_isalnum : N -> bool;
  ucd_isdecimal : N -> bool;
  ucd_decimal : N -> Z;
  ucd_lower : str -> N -> str -> str;
  ucd_caseless : N -> N -> bool
}.

(** The tables never lower a character to nothing or to an underscore. *)
Definition ucd_lower_sane (U : unicode_db) : Prop :=
  forall before c after,
    is_ascii c = false ->
    ucd_lower U before c after <> [] /\ underscore ∉ ucd_lower U before c after.

Section Text.
Variable U : unicode_db.

Definition isspace (c : N) : bool :=
  if is_ascii c then ascii_isspace c else ucd_isspace U c.
Definition isalnum (c : N) : bool :=
  if is_ascii c then ascii_isalnum c else ucd_isalnum U c.
Definition isdecimal (c : N) : bool :=
  if is_ascii c then ascii_isdecimal c else ucd_isdecimal U c.
Definition decimal_value (c : N) : Z :=
  if is_ascii c then (Z.of_N c - 48)%Z else ucd_decimal U c.

Definition lower_char (before : str) (c : N) (after : str) : str :=
  if is_ascii c then [ascii_lower c] else ucd_lower U before c after.

(** [s.lower()], reading [s] left to right; [before] is what was read. *)
Fixpoint lower_from (before s : str) : str :=
  match s with
  | [] => []
  | c :: s' => lower_char before c s' ++ lower_from (before ++ [c]) s'
  end.
Definition lower (s : str) : str := lower_from [] s.

(** [s.lstrip], [s.rstrip] and [s.strip] for the characters satisfying [p]. *)
Fixpoint lstrip (p : N -> bool) (s : str) : str :=
  match s with
  | [] => []
  | c :: s' => if p c then lstrip p s' else s
  end.
Definition rstrip (p : N -> bool) (s : str) : str :=
  reverse (lstrip p (reverse s)).
Definition strip (p : N -> bool) (s : str) : str := rstrip p (lstrip p s).

Definition is_underscore (c : N) : bool := (c =? underscore)%N.

(** [sanitize], run_loop_docker.py:
    ["".join(c if c.isalnum() else "_" for c in name).strip("_").lower()] *)
Definition sanitize (name : str) : str :=
  lower (strip is_underscore
           ((fun c => if isalnum c then c else underscore) <$> name)).

(* ------------------------------------------------------------------ *)
(** ** Regular expressions

    The patterns of the program are sequences of literal characters and of
    repeated character classes ([\s*], [\s+], [\d+], [.*?] under
    [re.DOTALL]), some of them captured.  [match_here] is the backtracking
    matcher of [re]: a greedy repetition takes as many characters as it can
    and gives them back one at a time, a lazy one takes as few as it can. *)

Inductive cls := Space | Digit | AnyChar.

Inductive item :=
| Lit (ci : bool) (p : N)
| Rep (k : cls) (plus greedy cap : bool).

Definition in_cls (k : cls) (c : N) : bool :=
  match k with
  | Space => isspace c
  | Digit => isdecimal c
  | AnyChar => true
  end.

(** A literal of the pattern against a character of the text; [ci] is
    [re.IGNORECASE]. *)
Definition lit_match (ci : bool) (p c : N) : bool :=
  if ci then
    if is_ascii c then (ascii_lower p =? ascii_lower c)%N else ucd_caseless U p c
  else (p =? c)%N.

Section Repeat.
Context {R : Type}.
Variable p : N -> bool.

(** [K w rest]: the rest of the pattern, tried after the repetition took
    [w] and left [rest]. *)
Fixpoint rep_greedy (K : str -> str -> option R) (s : str) : option R :=
  match s with
  | [] => K [] []
  | c :: s' =>
      if p c then
        match rep_greedy (fun w rest => K (c :: w) rest) s' with
        | Some r => Some r
        | None => K [] s
        end
      else K [] s
  end.

Fixpoint rep_lazy (K : str -> str -> option R) (s : str) : option R :=
  match K [] s with
  | Some r => Some r
  | None =>
      match s with
      | [] => None
      | c :: s' =>
          if p c then rep_lazy (fun w rest => K (c :: w) rest) s' else None
      end
  end.

Definition rep (plus greedy : bool) (K : str -> str -> option R) (s : str)
  : option R :=
  let star := if greedy then rep_greedy else rep_lazy in
  if plus then
    match s with
    | [] => None
    | c :: s' => if p c then star (fun w rest => K (c :: w) rest) s' else None
    end
  else star K s.
End Repeat.

(** A match of the whole pattern at the start of [s]: its groups, in order. *)
Fixpoint match_here (its : list item) (s : str) : option (list str) :=
  match its with
  | [] => Some []
  | Lit ci p :: r =>
      match s with
      | [] => None
      | c :: s' => if lit_match ci p c then match_here r s' else None
      end
  | Rep k plus greedy cap :: r =>
      rep (in_cls k) plus greedy
        (fun w rest =>
           match match_here r rest with
           | Some gs => Some (if cap then w :: gs else gs)
           | None => None
           end) s
  end.

(** [re.search]: the match at the leftmost position that has one. *)
Fixpoint search (its : list item) (s : str) : option (list str) :=
  match match_here its s with
  | Some gs => Some gs
  | None =>
      match s with
      | [] => None
      | _ :: s' => search its s'
      end
  end.

(** [m.group(n)], [n >= 1]. *)
Definition group (m : list str) (n : nat) : str := nth (n - 1) m [].

(** What it means for a string to match a pattern, with its groups [gs]. *)
Inductive Matches : list item -> str -> list str -> Prop :=
| Matches_nil : Matches [] [] []
| Matches_lit ci p c r s gs :
    lit_match ci p c = true ->
    Matches r s gs ->
    Matches (Lit ci p :: r) (c :: s) gs
| Matches_rep k (plus greedy cap : bool) w r s gs :
    Forall (fun c => in_cls k c = true) w ->
    (plus = true -> w <> []) ->
    Matches r s gs ->
    Matches (Rep k plus greedy cap :: r) (w ++ s) (if cap then w :: gs else gs).

(** The number of groups of a pattern. *)
Fixpoint groups (its : list item) : nat :=
  match its with
  | [] => 0
  | Lit _ _ :: r => groups r
  | Rep _ _ _ cap :: r => (if cap then 1 else 0) + groups r
  end.

(** [text] contains a substring that matches the pattern. *)
Definition contains_match (its : list item) (text : str) : Prop :=
  exists pre m post gs, text = pre ++ m ++ post /\ Matches its m gs.

Definition lits (ci : bool) (s : string) : list item := map (Lit ci) (py s).
Definition ws_star : item := Rep Space false true false.
Definition ws_plus : item := Rep Space true true false.
Definition digits : item := Rep Digit true true true.
Definition lazy_any : item := Rep AnyChar false false true.

(** [r"LLC TOTAL\s+ACCESS:\s+(\d+)\s+HIT:\s+(\d+)"] *)
Definition re_llc_total : list item :=
  lits false "LLC TOTAL" ++ [ws_plus] ++ lits false "ACCESS:" ++
  [ws_plus; digits; ws_plus] ++ lits false "HIT:" ++ [ws_plus; digits].

(** [r"##\s*Policy\s*Name\s*\n(.*?)\n"], DOTALL and IGNORECASE *)
Definition re_policy_name : list item :=
  lits true "##" ++ [ws_star] ++ lits true "Policy" ++ [ws_star] ++
  lits true "Name" ++ [ws_star; Lit true nl; lazy_any; Lit true nl].

(** [r"##\s*Policy\s*Description\s*\n(.*?)\n"], DOTALL and IGNORECASE *)
Definition re_policy_description : list item :=
  lits true "##" ++ [ws_star] ++ lits true "Policy" ++ [ws_star] ++
  lits true "Description" ++ [ws_star; Lit true nl; lazy_any; Lit true nl].

(** [r"```cpp\s*(.*?)\s*```"], DOTALL and IGNORECASE *)
Definition re_cpp_block : list item :=
  lits true "```cpp" ++ [ws_star; lazy_any; ws_star] ++ lits true "```".

(** The pattern the specification gives for the report:
    [ACCESS:\s*(\d+)\s+HIT:\s*(\d+)]. *)
Definition re_spec_report : list item :=
  lits false "ACCESS:" ++ [ws_star; digits; ws_plus] ++ lits false "HIT:" ++
  [ws_star; digits].

(** [_extract] of [parse_policy_content]:
    [m.group(1).strip() if m else None]. *)
Definition _extract (pattern : list item) (text : str) : option str :=
  match search pattern text with
  | Some m => Some (strip isspace (group m 1))
  | None => None
  end.

Definition parse_policy_content (text : str)
  : option str * option str * option str :=
  let name := _extract re_policy_name text in
  let desc := _extract re_policy_description text in
  let code := _extract re_cpp_block text in
  (name, desc, code).

End Text.

(** The characters of [[a-z0-9_]]. *)
Definition slug_char (c : N) : bool :=
  ascii_islower c || ascii_isdecimal c || is_underscore c.

(** An excerpt of the Unicode database: the entries for U+00C9 (E with acute,
    a letter that lowers to U+00E9), U+00E9, U+0130 (capital I with dot
    above, a letter that lowers to "i" followed by the combining dot U+0307)
    and U+0307 (a combining mark, not alphanumeric).  The other code points
    are left without properties here. *)
Definition ucd_excerpt : unicode_db := {|
  ucd_isspace := fun c => (c =? 160)%N;
  ucd_isalnum := fun c => (c =? 201)%N || (c =? 233)%N || (c =? 304)%N;
  ucd_isdecimal := fun _ => false;
  ucd_decimal := fun _ => 0%Z;
  ucd_lower := fun _ c _ =>
    if (c =? 201)%N then [233%N]
    else if (c =? 304)%N then [105%N; 775%N]
    else [c];
  ucd_caseless := fun p c => (p =? c)%N
|}.


(* ------------------------------------------------------------------ *)
(** ** Exceptions and numbers *)

Inductive exn :=
| RuntimeError (msg : string)
| ValueError
| ZeroDivisionError
| OverflowError
| CalledProcessError
| IndexError
| KeyError
| IntegrityError.

Inductive result (A : Type) :=
| Ok (a : A)
| Raise (e : exn).
Arguments Ok {A} a.
Arguments Raise {A} e.

Definition Z2SF (z : Z) : spec_float :=
  match z with
  | Z0 => S754_zero false
  | Zpos p => S754_finite false p 0
  | Zneg p => S754_finite true p 0
  end.

(** [a / b] on two [int]s: the quotient rounded once to the nearest float. *)
Definition int_truediv (a b : Z) : result float :=
  match b with
  | Z0 => Raise ZeroDivisionError
  | _ =>
      match SFdiv prec emax (Z2SF a) (Z2SF b) with
      | S754_infinity _ => Raise OverflowError
      | q => Ok (SF2Prim q)
      end
  end.

(** [float(n)] for the length of a list. *)
Definition float_of_nat (n : nat) : float :=
  SF2Prim (binary_normalize prec emax (Z.of_nat n) 0 false).

(** [x / y] on floats. *)
Definition float_div (x y : float) : result float :=
  if (y =? 0)%float then Raise ZeroDivisionError else Ok (x / y)%float.

(** The items of [l] added from left to right to the start value 0: the
    running sum [current_hit_tmp += tmp] of the loop, and the builtin
    [sum(l)] of CPython up to version 3.11. *)
Definition py_sum (l : list float) : float := fold_left PrimFloat.add l 0%float.

(** The builtin [sum(l)] of CPython from version 3.12 on: the first item is
    added to the start value 0, the others with Neumaier's compensation of
    the rounding errors, which is added at the end unless it is zero,
    infinite or a NaN. *)
Definition neumaier_step (acc : float * float) (x : float) : float * float :=
  let '(f_result, c) := acc in
  let t := (f_result + x)%float in
  if (abs x <=? abs f_result)%float then (t, (c + ((f_result - t) + x))%float)
  else (t, (c + ((x - t) + f_result))%float).

Definition neumaier_sum (l : list float) : float :=
  match l with
  | [] => 0%float
  | x :: l' =>
      let '(f_result, c) := fold_left neumaier_step l' ((0 + x)%float, 0%float) in
      if negb (c =? 0)%float && is_finite c then (f_result + c)%float
      else f_result
  end.

(** The arithmetic mean of a list of floats. *)
Definition mean (l : list float) : float :=
  (py_sum l / float_of_nat (length l))%float.

(* ------------------------------------------------------------------ *)
(** ** The ledger (table [experiments]) *)

Record Trial := {
  workload : str;
  policy : str;
  policy_description : str;
  workload_description : str;
  cpp_file_path : str;
  cache_hit_rate : float;
  score : float
}.

(** [record], run_loop_docker.py: one INSERT; the rate is written to both
    [cache_hit_rate] and [score]. *)
Definition record (workload name desc cc : str) (rate : float)
    (workload_desc : str) (db : list Trial) : list Trial :=
  db ++ [ {| workload := workload; policy := name; policy_description := desc;
             workload_description := workload_desc; cpp_file_path := cc;
             cache_hit_rate := rate; score := rate |} ].

Definition all : str := py "all".

Definition is_all (t : Trial) : bool := bool_decide (workload t = all).

(* ------------------------------------------------------------------ *)
(** ** The feedback loop of run_loop_docker.py *)

Record Workload := { w_name : str; trace_path : str }.

Definition workloads : list Workload := [
  {| w_name := py "astar";
     trace_path := py "ChampSim_CRC2/traces/astar_313B.trace.gz" |};
  {| w_name := py "lbm";
     trace_path := py "ChampSim_CRC2/traces/lbm_564B.trace.gz" |};
  {| w_name := py "mcf";
     trace_path := py "ChampSim_CRC2/traces/mcf_250B.trace.gz" |};
  {| w_name := py "milc";
     trace_path := py "ChampSim_CRC2/traces/milc_409B.trace.gz" |};
  {| w_name := py "omnetpp";
     trace_path := py "ChampSim_CRC2/traces/omnetpp_17B.trace.gz" |} ].

Definition EXAMPLE_DIR : str := py "ChampSim_CRC2/new_policies".

Fixpoint uint_str (d : Decimal.uint) : str :=
  match d with
  | Decimal.Nil => []
  | Decimal.D0 d => 48%N :: uint_str d
  | Decimal.D1 d => 49%N :: uint_str d
  | Decimal.D2 d => 50%N :: uint_str d
  | Decimal.D3 d => 51%N :: uint_str d
  | Decimal.D4 d => 52%N :: uint_str d
  | Decimal.D5 d => 53%N :: uint_str d
  | Decimal.D6 d => 54%N :: uint_str d
  | Decimal.D7 d => 55%N :: uint_str d
  | Decimal.D8 d => 56%N :: uint_str d
  | Decimal.D9 d => 57%N :: uint_str d
  end.

(** [f"{i:03}"] *)
Definition fmt03 (i : nat) : str :=
  let d := uint_str (Nat.to_uint i) in
  replicate (3 - length d) 48%N ++ d.

(** [EXAMPLE_DIR / f"{i:03}_{base}.cc"] *)
Definition cc_path (i : nat) (base : str) : str :=
  EXAMPLE_DIR ++ py "/" ++ fmt03 i ++ [underscore] ++ base ++ py ".cc".

(** [cc.with_suffix(".out")], for a path that ends in [".cc"]. *)
Definition with_suffix_out (cc : str) : str :=
  take (length cc - 3) cc ++ py ".out".

(** A row of [rag.get_top_policies_by_score]. *)
Record TopPolicy := {
  tp_policy : str;
  tp_score : float;
  tp_policy_description : str
}.

(** What [main] reads before the loop. *)
Record Session := {
  top_policies : list TopPolicy;
  workload_desc : str;
  code_template : str
}.

Inductive feedback :=
| Improved (best current : float)
| NotBetter (current best : float).

(** The two prompts, by what is formatted into them. *)
Inductive prompt :=
| ColdStart (workload_desc : str) (policy_summary : list TopPolicy)
    (template : str)
| Refine (workload_desc : str) (prev_name prev_desc prev_code : option str)
    (fb : feedback) (template : str).

(** The variables of [main], the table [experiments] ([db], in insertion
    order) and the directory of sources ([files], from path to content;
    writing a file and inserting a row are taken to succeed). *)
Record State := {
  i : nat;
  best_hit : float;
  current_hit : float;
  prev_name : option str;
  prev_desc : option str;
  prev_code : option str;
  db : list Trial;
  files : gmap str str
}.

(** What the model, the compiler and the simulator answer in one pass. *)
Record Attempt := {
  oracle : prompt -> str;
  compiles : str -> bool;
  simulate : str -> str -> result str
}.

Inductive outcome :=
| Next (st : State)
| Break (st : State)
| Abort (e : exn) (st : State).

Definition final (o : outcome) : State :=
  match o with
  | Next st | Break st | Abort _ st => st
  end.

Definition truthy (o : option str) : bool :=
  match o with
  | Some (_ :: _) => true
  | _ => false
  end.

(** [sys.get_int_max_str_digits()]: the default of the interpreter (CPython
    3.11 and later, and the security releases of the versions before it),
    which the program does not change. *)
Definition int_max_str_digits : nat := 4300.

Section Loop.
Variable U : unicode_db.

(** The number that a string of decimal digits denotes. *)
Definition int_of (s : str) : Z :=
  fold_left (fun n c => (10 * n + decimal_value U c)%Z) s 0%Z.

(** [int(s)] for a string of decimal digits: the interpreter refuses a
    numeral of more than [int_max_str_digits] digits, leading zeros
    included, with a [ValueError]. *)
Definition py_int (s : str) : result Z :=
  if (int_max_str_digits <? length s)%nat then Raise ValueError
  else Ok (int_of s).

(** [parse_hit_rate], run_loop_docker.py *)
Definition parse_hit_rate (output : str) : result float :=
  match search U re_llc_total output with
  | Some m =>
      match py_int (group m 1) with
      | Raise e => Raise e
      | Ok access_count =>
          match py_int (group m 2) with
          | Raise e => Raise e
          | Ok hit_count =>
              if (access_count >? 0)%Z then int_truediv hit_count access_count
              else Ok 0%float
          end
      end
  | None => Raise (RuntimeError "LLC TOTAL not found")
  end.

(** [parse_llc_stats], DB_Connection.py:
    [access, hits = map(int, m.groups())]. *)
Definition parse_llc_stats (text : str) : result (Z * Z) :=
  match search U re_llc_total text with
  | None => Raise (RuntimeError "LLC TOTAL line not found in ChampSim output")
  | Some m =>
      match py_int (group m 1) with
      | Raise e => Raise e
      | Ok access =>
          match py_int (group m 2) with
          | Raise e => Raise e
          | Ok hits => Ok (access, hits)
          end
      end
  end.

Definition compile_policy (a : Attempt) (cc : str) : result str :=
  if compiles a cc then Ok (with_suffix_out cc) else Raise CalledProcessError.

Definition run_policy (a : Attempt) (exe trace : str) : result str :=
  simulate a exe trace.

(** The top of the loop body: the prompt, and [best_hit] after the
    comparison that words the feedback. *)
Definition compose (ses : Session) (st : State) : prompt * float :=
  if (i st =? 0)%nat then
    (ColdStart (workload_desc ses) (top_policies ses) (code_template ses), best_hit st)
  else if (best_hit st <? current_hit st)%float then
    (Refine (workload_desc ses) (prev_name st) (prev_desc st) (prev_code st)
       (Improved (best_hit st) (current_hit st)) (code_template ses),
     current_hit st)
  else
    (Refine (workload_desc ses) (prev_name st) (prev_desc st) (prev_code st)
       (NotBetter (current_hit st) (best_hit st)) (code_template ses),
     best_hit st).

(** The [for trace_info in workloads] loop: the running sum and the table. *)
Fixpoint run_workloads (a : Attempt) (exe name desc cc : str)
    (ws : list Workload) (current_hit_tmp : float) (db : list Trial)
  : result float * list Trial :=
  match ws with
  | [] => (Ok current_hit_tmp, db)
  | trace_info :: ws' =>
      match run_policy a exe (trace_path trace_info) with
      | Raise e => (Raise e, db)
      | Ok out =>
          match parse_hit_rate out with
          | Raise e => (Raise e, db)
          | Ok tmp =>
              run_workloads a exe name desc cc ws'
                (current_hit_tmp + tmp)%float
                (record (w_name trace_info) name desc cc tmp [] db)
          end
      end
  end.

(** [main], after the call of the model:
    [name, desc, code = parse_policy_content(text)] and
    [if not (name and desc and code): raise RuntimeError(f"❌ Parse failed")]. *)
Definition parse_reply (text : str) : result (str * str * str) :=
  let '(name, desc, code) := parse_policy_content U text in
  if negb (truthy name && truthy desc && truthy code) then
    Raise (RuntimeError "❌ Parse failed")
  else Ok (default [] name, default [] desc, default [] code).

(** One pass through the body of [while True]. *)
Definition step (ses : Session) (st : State) (a : Attempt) : outcome :=
  let '(prompt, best) := compose ses st in
  let text := oracle a prompt in
  match parse_reply text with
  | Raise e =>
      Abort e {| i := i st; best_hit := best; current_hit := current_hit st;
                 prev_name := prev_name st; prev_desc := prev_desc st;
                 prev_code := prev_code st; db := db st; files := files st |}
  | Ok (name, desc, code) =>
    let base := sanitize U name in
    let cc := cc_path (i st) base in
    let files' := <[cc := code]> (files st) in
    match compile_policy a cc with
    | Raise _ =>
        Next {| i := i st; best_hit := best; current_hit := current_hit st;
                prev_name := prev_name st; prev_desc := prev_desc st;
                prev_code := prev_code st; db := db st; files := files' |}
    | Ok exe =>
        match run_workloads a exe name desc cc workloads 0%float (db st) with
        | (Raise e, db') =>
            Abort e {| i := i st; best_hit := best;
                       current_hit := current_hit st;
                       prev_name := prev_name st; prev_desc := prev_desc st;
                       prev_code := prev_code st; db := db'; files := files' |}
        | (Ok current_hit_tmp, db') =>
            match float_div current_hit_tmp (float_of_nat (length workloads)) with
            | Raise e =>
                Abort e {| i := i st; best_hit := best;
                           current_hit := current_hit st;
                           prev_name := prev_name st; prev_desc := prev_desc st;
                           prev_code := prev_code st; db := db';
                           files := files' |}
            | Ok current =>
                let db'' := record all name desc cc current [] db' in
                let st3 := {| i := S (i st); best_hit := best;
                              current_hit := current;
                              prev_name := prev_name st;
                              prev_desc := prev_desc st;
                              prev_code := prev_code st; db := db'';
                              files := files' |} in
                match float_div current best with
                | Raise e => Abort e st3
                | Ok ratio =>
                    if (1.3 <? ratio)%float then Break st3
                    else Next {| i := S (i st); best_hit := best;
                                 current_hit := current;
                                 prev_name := Some name;
                                 prev_desc := Some desc;
                                 prev_code := Some code; db := db'';
                                 files := files' |}
                end
            end
        end
    end
  end.

(** [while True]: the passes, one per answer of the outside world, until a
    [break], an exception, or the end of the answers given. *)
Fixpoint loop (ses : Session) (st : State) (answers : list Attempt) : outcome :=
  match answers with
  | [] => Next st
  | a :: answers' =>
      match step ses st a with
      | Next st' => loop ses st' answers'
      | o => o
      end
  end.

(** [main] up to the loop, once Docker was found: the rows of
    [rag.get_top_policies_by_score] are part of the session, and
    [best_hit = top_policies[0]["score"]]. *)
Definition main_init (ses : Session) (db0 : list Trial) (files0 : gmap str str)
  : result State :=
  match top_policies ses with
  | [] => Raise IndexError
  | p :: _ =>
      Ok {| i := 0; best_hit := tp_score p; current_hit := tp_score p;
            prev_name := None; prev_desc := None; prev_code := None;
            db := db0; files := files0 |}
  end.

Definition main (ses : Session) (db0 : list Trial) (files0 : gmap str str)
    (answers : list Attempt) : result outcome :=
  match main_init ses db0 files0 with
  | Raise e => Raise e
  | Ok st => Ok (loop ses st answers)
  end.

End Loop.


(** The rows one evaluation adds for the workloads [ws] with the rates [ts],
    and its aggregate row. *)
Definition workload_rows (name desc cc : str) (ws : list Workload)
    (ts : list float) : list Trial :=
  zip_with (fun w t =>
      {| workload := w_name w; policy := name; policy_description := desc;
         workload_description := []; cpp_file_path := cc;
         cache_hit_rate := t; score := t |}) ws ts.

Definition all_row (name desc cc : str) (current : float) : Trial :=
  {| workload := all; policy := name; policy_description := desc;
     workload_description := []; cpp_file_path := cc;
     cache_hit_rate := current; score := current |}.

(** The state a pass starts from, with the fields a pass can change. *)
Definition with_best (st : State) (best : float) (d : list Trial)
    (fs : gmap str str) : State :=
  {| i := i st; best_hit := best; current_hit := current_hit st;
     prev_name := prev_name st; prev_desc := prev_desc st;
     prev_code := prev_code st; db := d; files := fs |}.

(** The states [main] can be in at the top of the loop. *)
Inductive reachable (U : unicode_db) (ses : Session) (db0 : list Trial)
    (files0 : gmap str str) : State -> Prop :=
| reachable_init st :
    main_init ses db0 files0 = Ok st -> reachable U ses db0 files0 st
| reachable_step st a st' :
    reachable U ses db0 files0 st ->
    step U ses st a = Next st' ->
    reachable U ses db0 files0 st'.

(** The aggregate scores the loop has recorded: the [score] of the rows
    under ["all"] that were added to the table [db0]. *)
Definition evaluated_scores (db0 : list Trial) (st : State) : list float :=
  score <$> filter (fun t => is_all t = true) (drop (length db0) (db st)).

(** [m] is a maximum of [l]: one of its elements, exceeded by none. *)
Definition is_max (l : list float) (m : float) : Prop :=
  m ∈ l /\ Forall (fun x => (m <? x)%float = false) l.

(** What holds of the variables of [main] at the top of the loop, for the
    table [db0] and the score [seed] the loop started from. *)
Definition loop_invariant (db0 : list Trial) (seed : float) (st : State) : Prop :=
  (exists new, db st = db0 ++ new) /\
  length (evaluated_scores db0 st) = i st /\
  current_hit st = default seed (last (evaluated_scores db0 st)) /\
  best_hit st ∈ seed :: evaluated_scores db0 st /\
  Forall (fun x => (best_hit st <? x)%float = false)
    (seed :: removelast (evaluated_scores db0 st)).

(** The feedback a prompt carries, and the previous candidate of a state. *)
Definition prompt_feedback (p : prompt) : option feedback :=
  match p with
  | ColdStart _ _ _ => None
  | Refine _ _ _ _ fb _ => Some fb
  end.

Definition previous (st : State) : option str * option str * option str :=
  (prev_name st, prev_desc st, prev_code st).

(** [best_hit] after the comparison at the top of a pass. *)
Definition decided (st : State) : float :=
  if (best_hit st <? current_hit st)%float then current_hit st else best_hit st.


(* ------------------------------------------------------------------ *)
(** ** Sample answers of the outside world *)

(** A reply in the format the prompt asks for. *)
Definition sample_reply : str :=
  py "Here is my proposal." ++ [nl; nl] ++
  py "## Policy Name" ++ [nl] ++ py "Hawkeye LRU v2" ++ [nl; nl] ++
  py "## Policy Description" ++ [nl] ++ py "Mixes two ideas." ++ [nl; nl] ++
  py "## C++ Implementation" ++ [nl] ++
  py "```cpp" ++ [nl] ++ py "int main() {}" ++ [nl] ++ py "```" ++ [nl].


(** A report of the simulator with the line the program looks for. *)
Definition sample_report (accesses hits : string) : str :=
  py "Heartbeat CPU 0 instructions: 10000000" ++ [nl] ++
  py "LLC TOTAL     ACCESS: " ++ py accesses ++ py "  HIT: " ++ py hits ++
  py "  MISS: 0" ++ [nl].

(** A session seeded with one baseline of score [seed]. *)
Definition sample_session (seed : float) : Session :=
  {| top_policies :=
       [ {| tp_policy := py "Ship++"; tp_score := seed;
            tp_policy_description := py "Signature-based hit predictor." |} ];
     workload_desc := py "astar: pathfinding; lbm: fluid dynamics";
     code_template := py "```cpp ... ```" |}.

(** The model sends the sample reply; the build succeeds when [ok]; the
    simulator reports [hits] hits out of [accesses] on every trace. *)
Definition sample_attempt (ok : bool) (accesses hits : string) : Attempt :=
  {| oracle := fun _ => sample_reply;
     compiles := fun _ => ok;
     simulate := fun _ _ => Ok (sample_report accesses hits) |}.

(** The simulator reports 40 hits out of 100 on astar and 60 on the others. *)
Definition uneven_attempt : Attempt :=
  {| oracle := fun _ => sample_reply;
     compiles := fun _ => true;
     simulate := fun _ trace =>
       if bool_decide (trace = py "ChampSim_CRC2/traces/astar_313B.trace.gz")
       then Ok (sample_report "100" "40")
       else Ok (sample_report "100" "60") |}.

(** The state [main] enters the loop in, for the sample session. *)
Definition sample_init (seed : float) : State :=
  {| i := 0; best_hit := seed; current_hit := seed; prev_name := None;
     prev_desc := None; prev_code := None; db := []; files := ∅ |}.

(** The state at the top of the second pass, after a first candidate that
    scored 0.6 against the seed 0.5. *)
Definition sample_second : State :=
  final (step ucd_excerpt (sample_session 0.5) (sample_init 0.5)
           (sample_attempt true "100" "60")).

(* ------------------------------------------------------------------ *)
(** ** The seeding script DB_Connection.py

    The three module-level tables are dictionaries, kept here as lists of
    keys and values in insertion order; [policy_hit_rates] and
    [policy_scores] are finite maps. *)

Module DB_Connection.

Record WorkloadInfo := { w_description : str; trace : str }.
Record PolicyInfo := { p_description : str; file_path : str }.

(** [d[k]] on a dictionary kept as a list. *)
Fixpoint dict_get {V : Type} (d : list (str * V)) (k : str) : result V :=
  match d with
  | [] => Raise KeyError
  | (k', v) :: d' => if bool_decide (k' = k) then Ok v else dict_get d' k
  end.

(** [c.execute('INSERT INTO experiments ...')]: the columns of the table are
    [NOT NULL], and sqlite3 stores a NaN as NULL. *)
Definition insert (row : Trial) (table : list Trial) : result (list Trial) :=
  if is_nan (cache_hit_rate row) || is_nan (score row)
  then Raise IntegrityError
  else Ok (table ++ [row]).

Section Seeding.
(** The builtin [sum] of the interpreter on a list of floats: [py_sum] up to
    CPython 3.11, [neumaier_sum] from 3.12 on. *)
Variable sum : list float -> float.
Variable workloads : list (str * WorkloadInfo).
Variable policies : list (str * PolicyInfo).
Variable perf_data : list (str * list float).

(** [perf_data[workload_name][i]] *)
Definition perf_at (workload_name : str) (i : nat) : result float :=
  match dict_get perf_data workload_name with
  | Raise e => Raise e
  | Ok rates =>
      match rates !! i with
      | None => Raise IndexError
      | Some hit_rate => Ok hit_rate
      end
  end.

(** [for i, policy_name in enumerate(policies)]:
    [policy_hit_rates[policy_name].append(hit_rate)] *)
Fixpoint collect_policies (workload_name : str) (ps : list str) (i : nat)
    (policy_hit_rates : gmap str (list float))
  : result (gmap str (list float)) :=
  match ps with
  | [] => Ok policy_hit_rates
  | policy_name :: ps' =>
      match perf_at workload_name i with
      | Raise e => Raise e
      | Ok hit_rate =>
          collect_policies workload_name ps' (S i)
            (<[policy_name :=
                 default [] (policy_hit_rates !! policy_name) ++ [hit_rate]]>
               policy_hit_rates)
      end
  end.

(** [for workload_name in workloads] *)
Fixpoint collect_workloads (ws : list str)
    (policy_hit_rates : gmap str (list float))
  : result (gmap str (list float)) :=
  match ws with
  | [] => Ok policy_hit_rates
  | workload_name :: ws' =>
      match collect_policies workload_name policies.*1 0 policy_hit_rates with
      | Raise e => Raise e
      | Ok m => collect_workloads ws' m
      end
  end.

(** [sum(hit_rates) / len(hit_rates) if hit_rates else 0.0] *)
Definition average (hit_rates : list float) : float :=
  match hit_rates with
  | [] => 0%float
  | _ => (sum hit_rates / float_of_nat (length hit_rates))%float
  end.

Definition policy_scores (policy_hit_rates : gmap str (list float))
  : gmap str float :=
  average <$> policy_hit_rates.

(** [policy_scores[policy_name]] *)
Definition score_of (scores : gmap str float) (policy_name : str) : result float :=
  match scores !! policy_name with
  | None => Raise KeyError
  | Some x => Ok x
  end.

(** The rows of one workload: [for i, (policy_name, pdata) in
    enumerate(policies.items())]. *)
Fixpoint insert_policies (scores : gmap str float)
    (workload_name workload_desc : str) (ps : list (str * PolicyInfo))
    (i : nat) (table : list Trial) : result (list Trial) :=
  match ps with
  | [] => Ok table
  | (policy_name, pdata) :: ps' =>
      match perf_at workload_name i with
      | Raise e => Raise e
      | Ok hit_rate =>
          match score_of scores policy_name with
          | Raise e => Raise e
          | Ok score =>
              match insert
                      {| workload := workload_name; policy := policy_name;
                         policy_description := p_description pdata;
                         workload_description := workload_desc;
                         cpp_file_path := file_path pdata;
                         cache_hit_rate := hit_rate; score := score |}
                      table with
              | Raise e => Raise e
              | Ok table' =>
                  insert_policies scores workload_name workload_desc ps' (S i)
                    table'
              end
          end
      end
  end.

(** [for workload_name, wdata in workloads.items()] *)
Fixpoint insert_workloads (scores : gmap str float)
    (ws : list (str * WorkloadInfo)) (table : list Trial)
  : result (list Trial) :=
  match ws with
  | [] => Ok table
  | (workload_name, wdata) :: ws' =>
      match insert_policies scores workload_name (w_description wdata)
              policies 0 table with
      | Raise e => Raise e
      | Ok table' => insert_workloads scores ws' table'
      end
  end.

(** The aggregate rows: the third loop, under ["all"]. *)
Fixpoint insert_all (scores : gmap str float) (ps : list (str * PolicyInfo))
    (table : list Trial) : result (list Trial) :=
  match ps with
  | [] => Ok table
  | (policy_name, pdata) :: ps' =>
      match score_of scores policy_name with
      | Raise e => Raise e
      | Ok score =>
          match insert
                  {| workload := all; policy := policy_name;
                     policy_description := p_description pdata;
                     workload_description := [];
                     cpp_file_path := file_path pdata;
                     cache_hit_rate := score; score := score |}
                  table with
          | Raise e => Raise e
          | Ok table' => insert_all scores ps' table'
          end
      end
  end.

(** The script: the table [experiments] after [DELETE FROM experiments] and
    the two rounds of INSERT. *)
Definition seed : result (list Trial) :=
  match collect_workloads workloads.*1 ∅ with
  | Raise e => Raise e
  | Ok policy_hit_rates =>
      let scores := policy_scores policy_hit_rates in
      match insert_workloads scores workloads [] with
      | Raise e => Raise e
      | Ok table => insert_all scores policies table
      end
  end.

End Seeding.

(** The tables of the script; the descriptions are cut to their first words. *)
Definition workloads : list (str * WorkloadInfo) := [
  (py "astar", {| w_description := py "The A* workload models a pathfinding algorithm";
                  trace := py "ChampSim_CRC2/traces/astar_313B.trace.gz" |});
  (py "lbm", {| w_description := py "LBM (Lattice-Boltzmann Method) simulates fluid dynamics";
                trace := py "ChampSim_CRC2/traces/lbm_564B.trace.gz" |});
  (py "mcf", {| w_description := py "The MCF workload solves the Minimum Cost Flow problem";
                trace := py "ChampSim_CRC2/traces/mcf_250B.trace.gz" |});
  (py "milc", {| w_description := py "MILC simulates Quantum Chromodynamics (QCD) calculations";
                 trace := py "ChampSim_CRC2/traces/milc_409B.trace.gz" |});
  (py "omnetpp", {| w_description := py "Omnet++ models a discrete-event network simulator";
                    trace := py "ChampSim_CRC2/traces/omnetpp_17B.trace.gz" |}) ].

Definition policies : list (str * PolicyInfo) := [
  (py "LRU", {| p_description := py "Least Recently Used (LRU) replacement policy";
                file_path := py "ChampSim_CRC2/champ_repl_pol/lru.cc" |});
  (py "Hawkeye", {| p_description := py "Hawkeye is a predictive replacement policy";
                    file_path := py "ChampSim_CRC2/champ_repl_pol/hawkeye_final.cc" |});
  (py "Less is More", {| p_description := py "The Less is More (LIME) policy";
                         file_path := py "ChampSim_CRC2/champ_repl_pol/lime.cc" |});
  (py "Multiperspective", {| p_description := py "Multiperspective replacement integrates multiple heuristics";
                             file_path := py "ChampSim_CRC2/champ_repl_pol/dancrc2.cc" |});
  (py "Reordering-based Cache Replacement",
     {| p_description := py "This policy reorders memory accesses";
        file_path := py "ChampSim_CRC2/champ_repl_pol/red.cc" |});
  (py "Ship++", {| p_description := py "SHiP++ (Signature-based Hit Predictor)";
                   file_path := py "ChampSim_CRC2/champ_repl_pol/ship++.cc" |}) ].

Definition perf_data : list (str * list float) := [
  (py "astar", [0.45454223305787467; 0.3573547794394494; 0.38901773944350737;
                0.03709567109384967; 0.4110201774653078; 0.33821173935846005]%float);
  (py "lbm", [0.43985783443540666; 0.27289983516244354; 0.32972240516582263;
              0.011593643367720617; 0.19358477211349756; 0.2615846099982021]%float);
  (py "mcf", [0.4074020886631043; 0.5087725688923012; 0.5230175409101099;
              0.515161598323247; 0.5200312710592792; 0.524743749964974]%float);
  (py "milc", [0.3219114100958022; 0.06456693483565899; 0.23460321368313578;
               0.00026430697263517673; 0.14627399581453615; 0.054986712238499026]%float);
  (py "omnetpp", [0.4606533811310401; 0.6753672808393627; 0.6900525496418154;
                  0.008547620325799737; 0.4621028207407054; 0.698462878241108]%float) ].

End DB_Connection.

(** The per-workload rates the table holds for a candidate, in table order. *)
Definition recorded_rates (table : list Trial) (name : str) : list float :=
  cache_hit_rate <$>
    filter (fun t => policy t = name /\ is_all t = false) table.

(* ------------------------------------------------------------------ *)
(** ** The iteration read back from a file name (tools_export_and_plot.py) *)

(** [s.split(sep)] for a separator of one character. *)
Fixpoint split_on (sep : N) (s : str) : list str :=
  match s with
  | [] => [[]]
  | c :: s' =>
      if (c =? sep)%N then [] :: split_on sep s'
      else
        match split_on sep s' with
        | x :: xs => (c :: x) :: xs
        | [] => [[c]]
        end
  end.

Definition slash : N := 47%N.

(** [Path(s).name] on a POSIX system: the last of the components of [s],
    which are the pieces between slashes other than [""] and ["."]; the empty
    string when there is none. *)
Definition path_name (s : str) : str :=
  default []
    (last (filter (fun x => x <> [] /\ x <> py ".") (split_on slash s))).

(** What follows [.*?] in [r".*?([0-9]{3})_"]: three characters of [[0-9]],
    which are the group, and an underscore. *)
Definition three_digits (rest : str) : option str :=
  match rest with
  | d1 :: d2 :: d3 :: u :: _ =>
      if ascii_isdecimal d1 && ascii_isdecimal d2 && ascii_isdecimal d3 &&
         (u =? underscore)%N
      then Some [d1; d2; d3]
      else None
  | _ => None
  end.

(** [re.match(r".*?([0-9]{3})_", name)]: the group of the match at the start
    of [name].  Without [re.DOTALL] the dot is any character but a newline. *)
Definition match_iteration (name : str) : option str :=
  rep_lazy (fun c => negb (c =? nl)%N) (fun _ rest => three_digits rest) name.

(** [infer_iter], tools_export_and_plot.py.  Its [int] reads the three
    digits of the group, far fewer than the limit of [py_int]. *)
Definition infer_iter (U : unicode_db) (cpp_path : str) : Z :=
  match match_iteration (path_name cpp_path) with
  | Some g => int_of U g
  | None => (-1)%Z
  end.

(** [pat] occurs in [text]. *)
Definition occurs (pat text : str) : Prop :=
  exists before after, text = before ++ pat ++ after.

(** A reply in the format the two prompts ask for, after some text [pre] and
    before some text [post]. *)
Definition format_reply (pre name desc code post : str) : str :=
  pre ++ py "## Policy Name" ++ [nl] ++ name ++ [nl; nl] ++
  py "## Policy Description" ++ [nl] ++ desc ++ [nl; nl] ++
  py "## C++ Implementation" ++ [nl] ++
  py "```cpp" ++ [nl] ++ code ++ [nl] ++ py "```" ++ post.

(** A non-empty text without whitespace at its ends: what [strip] leaves
    unchanged. *)
Definition trimmed (U : unicode_db) (s : str) : Prop :=
  s <> [] /\
  (forall c, head s = Some c -> isspace U c = false) /\
  (forall c, last s = Some c -> isspace U c = false).

(** No character of [s] is read as the character [p] of a pattern under
    [re.IGNORECASE]. *)
Definition free_of (U : unicode_db) (p : N) (s : str) : Prop :=
  Forall (fun c => lit_match U true p c = false) s.

Definition hash : N := 35%N.
Definition backtick : N := 96%N.

(** One turn of [for trace_info in workloads] up to [record]: the rate
    measured on a workload, or the exception that ends the run. *)
Definition measure (U : unicode_db) (a : Attempt) (exe : str) (w : Workload)
  : result float :=
  match run_policy a exe (trace_path w) with
  | Raise e => Raise e
  | Ok out => parse_hit_rate U out
  end.

(** The simulator reports 40 hits out of 100 on astar and lbm and fails on
    mcf. *)
Definition failing_attempt : Attempt :=
  {| oracle := fun _ => sample_reply;
     compiles := fun _ => true;
     simulate := fun _ trace =>
       if bool_decide (trace = py "ChampSim_CRC2/traces/mcf_250B.trace.gz")
       then Raise CalledProcessError
       else Ok (sample_report "100" "40") |}.

(** The line of a report the program reads: the words, the two numbers and
    the whitespace between them. *)
Definition llc_total_line (ws1 ws2 accesses ws3 ws4 hits : str) : str :=
  py "LLC TOTAL" ++ ws1 ++ py "ACCESS:" ++ ws2 ++ accesses ++ ws3 ++
  py "HIT:" ++ ws4 ++ hits.

(** Some ASCII whitespace; a number in ASCII digits. *)
Definition blank (s : str) : Prop :=
  s <> [] /\ Forall (fun c => ascii_isspace c = true) s.
Definition number (s : str) : Prop :=
  s <> [] /\ Forall (fun c => ascii_isdecimal c = true) s.

(** Whether a computation returned. *)
Definition is_ok {A : Type} (r : result A) : bool :=
  match r with Ok _ => true | Raise _ => false end.

(** [perf_data] has a list of rates for every workload, with an entry for
    every policy. *)
Definition perf_complete (workloads : list (str * DB_Connection.WorkloadInfo))
    (policies : list (str * DB_Connection.PolicyInfo))
    (perf_data : list (str * list float)) : bool :=
  forallb
    (fun w =>
       forallb (fun k => is_ok (DB_Connection.perf_at perf_data w k))
         (seq 0 (length policies)))
    workloads.*1.

(** The rates [perf_data] holds for the policy of index [k], workload by
    workload. *)
Definition rates_of (workloads : list (str * DB_Connection.WorkloadInfo))
    (perf_data : list (str * list float)) (k : nat) : list float :=
  omap (fun w => match DB_Connection.perf_at perf_data w k with
                 | Ok x => Some x
                 | Raise _ => None
                 end) workloads.*1.

(** Neither a rate nor the average of the rates of a policy is a NaN. *)
Definition storable (sum : list float -> float)
    (workloads : list (str * DB_Connection.WorkloadInfo))
    (policies : list (str * DB_Connection.PolicyInfo))
    (perf_data : list (str * list float)) : bool :=
  forallb
    (fun k =>
       forallb (fun x => negb (is_nan x)) (rates_of workloads perf_data k) &&
       negb (is_nan (DB_Connection.average sum (rates_of workloads perf_data k))))
    (seq 0 (length policies)).

(** A row that the table accepts: neither its rate nor its score is a NaN. *)
Definition no_nan (r : Trial) : Prop :=
  is_nan (cache_hit_rate r) = false /\ is_nan (score r) = false.

(* ------------------------------------------------------------------ *)
(** * Properties *)

(** ** Stripping *)

Section StripFacts.
Variable p : N -> bool.

Lemma lstrip_split s :
  exists pre, s = pre ++ lstrip p s /\ Forall (fun c => p c = true) pre.
Proof.
  induction s as [|c s IH]; simpl.
  - exists []. split; [done | constructor].
  - destruct (p c) eqn:E.
    + destruct IH as (pre & Hs & Hp). exists (c :: pre). split.
      * simpl. by rewrite <- Hs.
      * by constructor.
    + exists []. split; [done | constructor].
Qed.

Lemma lstrip_head s c : head (lstrip p s) = Some c -> p c = false.
Proof.
  induction s as [|d s IH]; simpl; [done|].
  destruct (p d) eqn:E; [done|]. simpl. intros [= ->]. done.
Qed.

Lemma lstrip_nil s : lstrip p s = [] <-> Forall (fun c => p c = true) s.
Proof.
  induction s as [|d s IH]; simpl.
  - split; [constructor | done].
  - destruct (p d) eqn:E.
    + rewrite IH. split; [by constructor | by inversion 1].
    + split; [done | inversion 1; congruence].
Qed.

Lemma lstrip_id s : (forall c, head s = Some c -> p c = false) -> lstrip p s = s.
Proof.
  destruct s as [|d s]; simpl; [done|]. intros H. by rewrite (H d eq_refl).
Qed.

Lemma rstrip_split s :
  exists suf, s = rstrip p s ++ suf /\ Forall (fun c => p c = true) suf.
Proof.
  unfold rstrip. destruct (lstrip_split (reverse s)) as (pre & Hs & Hp).
  exists (reverse pre). split.
  - rewrite <- reverse_app, <- Hs. by rewrite reverse_involutive.
  - by apply Forall_reverse.
Qed.

Lemma rstrip_last s c : last (rstrip p s) = Some c -> p c = false.
Proof. unfold rstrip. rewrite last_reverse. apply lstrip_head. Qed.

Lemma rstrip_id s : (forall c, last s = Some c -> p c = false) -> rstrip p s = s.
Proof.
  intros H. unfold rstrip. rewrite lstrip_id.
  - apply reverse_involutive.
  - intros c. rewrite head_reverse. apply H.
Qed.

Lemma strip_split s : exists pre suf, s = pre ++ strip p s ++ suf.
Proof.
  unfold strip. destruct (lstrip_split s) as (pre & Hs & _).
  destruct (rstrip_split (lstrip p s)) as (suf & Ht & _).
  exists pre, suf. by rewrite <- Ht.
Qed.

Lemma strip_Forall (Q : N -> Prop) s : Forall Q s -> Forall Q (strip p s).
Proof.
  destruct (strip_split s) as (pre & suf & Hs). intros H. rewrite Hs in H.
  apply Forall_app in H as [_ H]. by apply Forall_app in H as [H _].
Qed.

Lemma strip_last s c : last (strip p s) = Some c -> p c = false.
Proof. apply rstrip_last. Qed.

Lemma strip_head s c : head (strip p s) = Some c -> p c = false.
Proof.
  unfold strip. intros H. apply (lstrip_head s).
  destruct (rstrip_split (lstrip p s)) as (suf & Ht & _).
  rewrite Ht. destruct (rstrip p (lstrip p s)); [done|]. exact H.
Qed.

Lemma strip_id s :
  (forall c, head s = Some c -> p c = false) ->
  (forall c, last s = Some c -> p c = false) ->
  strip p s = s.
Proof. intros Hh Hl. unfold strip. rewrite lstrip_id by done. by apply rstrip_id. Qed.

Lemma strip_nil s : strip p s = [] <-> Forall (fun c => p c = true) s.
Proof.
  unfold strip. split.
  - intros H. destruct (lstrip_split s) as (pre & Hs & Hp).
    destruct (rstrip_split (lstrip p s)) as (suf & Ht & Hq).
    rewrite H in Ht. simpl in Ht. rewrite Hs, Ht. by apply Forall_app.
  - intros H. apply lstrip_nil in H. rewrite H. done.
Qed.

End StripFacts.

(** ** ASCII classes *)

Ltac ascii_cases :=
  unfold slug_char, ascii_isalnum, ascii_lower, ascii_isupper, ascii_islower,
    ascii_isdecimal, ascii_isspace, is_underscore, is_ascii, between,
    underscore in *;
  repeat match goal with
    | |- context [(?a <=? ?b)%N] => destruct (N.leb_spec a b)
    | |- context [(?a =? ?b)%N] => destruct (N.eqb_spec a b)
    | |- context [(?a <? ?b)%N] => destruct (N.ltb_spec a b)
    | H : context [(?a <=? ?b)%N] |- _ => destruct (N.leb_spec a b)
    | H : context [(?a =? ?b)%N] |- _ => destruct (N.eqb_spec a b)
    | H : context [(?a <? ?b)%N] |- _ => destruct (N.ltb_spec a b)
    end;
  simpl in *; try done; try lia.

Lemma ascii_lower_slug c :
  ascii_isalnum c = true \/ c = underscore -> slug_char (ascii_lower c) = true.
Proof. intros [H| ->]; [|done]. ascii_cases. Qed.

Lemma ascii_lower_underscore c : ascii_lower c = underscore -> c = underscore.
Proof. ascii_cases. Qed.

Lemma slug_char_ascii c : slug_char c = true -> is_ascii c = true.
Proof. ascii_cases. Qed.

Lemma slug_char_lower c : slug_char c = true -> ascii_lower c = c.
Proof. ascii_cases. Qed.

Lemma slug_char_keep c :
  slug_char c = true -> (if ascii_isalnum c then c else underscore) = c.
Proof. ascii_cases. Qed.

Lemma ascii_isalnum_ascii c : ascii_isalnum c = true -> is_ascii c = true.
Proof. ascii_cases. Qed.

(** ** [sanitize] *)

Section SanitizeFacts.
Variable U : unicode_db.

Local Abbreviation keep := (fun c : N => if isalnum U c then c else underscore).

Lemma lower_from_ascii before s :
  Forall (fun c => is_ascii c = true) s -> lower_from U before s = ascii_lower <$> s.
Proof.
  intros H. revert before. induction H as [|c s Hc _ IH]; intros before; simpl.
  - done.
  - unfold lower_char. rewrite Hc. simpl. by rewrite IH.
Qed.

Lemma lower_char_nonempty before c after :
  ucd_lower_sane U -> lower_char U before c after <> [].
Proof.
  intros HU. unfold lower_char. destruct (is_ascii c) eqn:E; [done|].
  by apply HU.
Qed.

Lemma lower_char_no_underscore before c after :
  ucd_lower_sane U -> c <> underscore ->
  underscore ∉ lower_char U before c after.
Proof.
  intros HU Hc. unfold lower_char. destruct (is_ascii c) eqn:E.
  - intros H%list_elem_of_singleton. symmetry in H.
    by apply ascii_lower_underscore in H.
  - by apply HU.
Qed.

Lemma lower_from_snoc before s c :
  exists pre, lower_from U before (s ++ [c]) = pre ++ lower_char U (before ++ s) c [].
Proof.
  revert before. induction s as [|d s IH]; intros before; simpl.
  - exists []. by rewrite !app_nil_r.
  - destruct (IH (before ++ [d])) as (pre & ->).
    exists (lower_char U before d (s ++ [c]) ++ pre).
    by rewrite <- !app_assoc.
Qed.

Lemma lower_from_nil before s :
  ucd_lower_sane U -> lower_from U before s = [] -> s = [].
Proof.
  intros HU. destruct s as [|c s]; [done|]. simpl. intros H.
  apply app_eq_nil in H as [H _]. by apply lower_char_nonempty in H.
Qed.

Lemma keep_word_char x :
  Forall (fun c => isalnum U c = true -> is_ascii c = true) x ->
  Forall (fun c => is_ascii c = true /\ (ascii_isalnum c = true \/ c = underscore))
    (keep <$> x).
Proof.
  intros H. apply Forall_fmap. eapply Forall_impl; [exact H|].
  intros c Hc. simpl. destruct (isalnum U c) eqn:E.
  - specialize (Hc E). split; [done|]. left.
    unfold isalnum in E. by rewrite Hc in E.
  - split; [done | by right].
Qed.

Lemma isalnum_underscore : isalnum U underscore = false.
Proof. done. Qed.

Lemma sanitize_head x :
  ucd_lower_sane U -> head (sanitize U x) = Some underscore -> False.
Proof.
  intros HU. unfold sanitize, lower.
  set (z := strip is_underscore (keep <$> x)).
  pose proof (strip_head is_underscore (keep <$> x)) as Hz. fold z in Hz.
  destruct z as [|c z']; [done|]. simpl.
  specialize (Hz c eq_refl).
  assert (c <> underscore) as Hc.
  { intros ->. done. }
  pose proof (lower_char_nonempty [] c z' HU) as Hne.
  pose proof (lower_char_no_underscore [] c z' HU Hc) as Hno.
  destruct (lower_char U [] c z') as [|d w]; [done|]. simpl.
  intros [= ->]. apply Hno. left.
Qed.

Lemma sanitize_last x :
  ucd_lower_sane U -> last (sanitize U x) = Some underscore -> False.
Proof.
  intros HU. unfold sanitize, lower.
  set (z := strip is_underscore (keep <$> x)).
  pose proof (strip_last is_underscore (keep <$> x)) as Hz. fold z in Hz.
  destruct (last z) as [c|] eqn:El.
  - specialize (Hz c eq_refl). apply last_Some in El as (z' & ->).
    assert (c <> underscore) as Hc.
    { intros ->. done. }
    destruct (lower_from_snoc [] z' c) as (pre & ->).
    pose proof (lower_char_nonempty ([] ++ z') c [] HU) as Hne.
    pose proof (lower_char_no_underscore ([] ++ z') c [] HU Hc) as Hno.
    rewrite last_app.
    destruct (last (lower_char U ([] ++ z') c [])) as [d|] eqn:Ed.
    + intros [= ->]. apply Hno. by apply last_Some_elem_of.
    + by apply last_None in Ed.
  - apply last_None in El. by rewrite El.
Qed.

Lemma sanitize_ascii_slug x :
  Forall (fun c => isalnum U c = true -> is_ascii c = true) x ->
  sanitize U x = ascii_lower <$> strip is_underscore (keep <$> x) /\
  Forall (fun c => slug_char c = true) (sanitize U x).
Proof.
  intros H. apply keep_word_char in H.
  apply (strip_Forall is_underscore) in H.
  unfold sanitize, lower.
  set (z := strip is_underscore (keep <$> x)) in *.
  rewrite lower_from_ascii by (eapply Forall_impl; [exact H | by intros c [? _]]).
  split; [done|].
  apply Forall_fmap. eapply Forall_impl; [exact H|].
  intros c [_ Hc]. by apply ascii_lower_slug.
Qed.

Lemma sanitize_fixed r :
  Forall (fun c => slug_char c = true) r ->
  (head r = Some underscore -> False) ->
  (last r = Some underscore -> False) ->
  sanitize U r = r.
Proof.
  intros Hs Hh Hl.
  assert (keep <$> r = r) as Hk.
  { rewrite <- (list_fmap_id r) at 2. apply Forall_fmap_ext.
    eapply Forall_impl; [exact Hs|]. intros c Hc. simpl.
    unfold isalnum. rewrite (slug_char_ascii c Hc). by apply slug_char_keep. }
  unfold sanitize, lower. rewrite Hk.
  rewrite strip_id.
  - rewrite lower_from_ascii.
    + rewrite <- (list_fmap_id r) at 2. apply Forall_fmap_ext.
      eapply Forall_impl; [exact Hs|]. intros c Hc. by apply slug_char_lower.
    + eapply Forall_impl; [exact Hs|]. apply slug_char_ascii.
  - intros c Hc. unfold is_underscore. destruct (N.eqb_spec c underscore) as [->|]; [|done].
    by destruct Hh.
  - intros c Hc. unfold is_underscore. destruct (N.eqb_spec c underscore) as [->|]; [|done].
    by destruct Hl.
Qed.

Lemma sanitize_ascii_ends x :
  Forall (fun c => isalnum U c = true -> is_ascii c = true) x ->
  (head (sanitize U x) = Some underscore -> False) /\
  (last (sanitize U x) = Some underscore -> False).
Proof.
  intros H. destruct (sanitize_ascii_slug x H) as [-> _].
  set (z := strip is_underscore (keep <$> x)).
  pose proof (strip_head is_underscore (keep <$> x)) as Hh.
  pose proof (strip_last is_underscore (keep <$> x)) as Hl.
  fold z in Hh, Hl. split.
  - destruct z as [|c z']; [done|]. simpl. intros [= E].
    apply ascii_lower_underscore in E. subst c. by specialize (Hh _ eq_refl).
  - rewrite fmap_last. destruct (last z) as [c|]; [|done]. simpl. intros [= E].
    apply ascii_lower_underscore in E. subst c. by specialize (Hl _ eq_refl).
Qed.

End SanitizeFacts.

Lemma ucd_excerpt_sane : ucd_lower_sane ucd_excerpt.
Proof.
  intros before c after Hc. unfold underscore. simpl.
  destruct (N.eqb_spec c 201); [|destruct (N.eqb_spec c 304)];
    (split; [done|]); intros H; apply list_elem_of_In in H; simpl in H;
    repeat destruct H as [H|H]; try discriminate H; try done.
  subst c. discriminate Hc.
Qed.

Example sanitize_examples :
  sanitize ucd_excerpt (py "Hawkeye-LRU v2!") = py "hawkeye_lru_v2" /\
  sanitize ucd_excerpt (py "  --My  Policy--  ") = py "my__policy" /\
  sanitize ucd_excerpt (py "__") = [].
Proof. vm_compute. repeat split. Qed.

(** C7 (as amended).  For every input string the output of [sanitize] never
    starts or ends with an underscore, given that lowercasing a character
    outside ASCII yields neither the empty string nor an underscore.  For
    every input string whose alphanumeric characters are all ASCII,
    [sanitize] is idempotent and its output consists of characters of
    [[a-z0-9_]]. *)
Theorem sanitize_idempotent_slug (U : unicode_db) (x : str) :
  ucd_lower_sane U ->
  (head (sanitize U x) <> Some underscore /\
   last (sanitize U x) <> Some underscore) /\
  (Forall (fun c => isalnum U c = true -> is_ascii c = true) x ->
   sanitize U (sanitize U x) = sanitize U x /\
   Forall (fun c => slug_char c = true) (sanitize U x)).
Proof.
  intros HU. split.
  - split; intros H; [by apply (sanitize_head U x) | by apply (sanitize_last U x)].
  - intros Hx. destruct (sanitize_ascii_slug U x Hx) as [_ Hs]. split; [|done].
    destruct (sanitize_ascii_ends U x Hx) as [Hh Hl].
    by apply sanitize_fixed.
Qed.

Lemma sanitize_idempotent_slug_witness :
  (head (sanitize ucd_excerpt (py "Hawkeye-LRU v2!")) <> Some underscore /\
   last (sanitize ucd_excerpt (py "Hawkeye-LRU v2!")) <> Some underscore) /\
  sanitize ucd_excerpt (sanitize ucd_excerpt (py "Hawkeye-LRU v2!")) =
    sanitize ucd_excerpt (py "Hawkeye-LRU v2!") /\
  Forall (fun c => slug_char c = true) (sanitize ucd_excerpt (py "Hawkeye-LRU v2!")).
Proof.
  destruct (sanitize_idempotent_slug ucd_excerpt (py "Hawkeye-LRU v2!")
              ucd_excerpt_sane) as [Hends Hrest].
  split; [exact Hends|]. apply Hrest.
  vm_compute. repeat constructor.
Defined.

(** C7 fails as stated: U+0130 is alphanumeric and lowers to "i" followed by
    the combining dot U+0307, which a second pass turns into an underscore
    and strips; U+00C9 is alphanumeric and lowers to U+00E9, which is not in
    [[a-z0-9_]]. *)
Lemma sanitize_unicode_counterexample :
  sanitize ucd_excerpt [304%N] = [105%N; 775%N] /\
  sanitize ucd_excerpt (sanitize ucd_excerpt [304%N]) = [105%N] /\
  sanitize ucd_excerpt (sanitize ucd_excerpt [304%N]) <> sanitize ucd_excerpt [304%N] /\
  sanitize ucd_excerpt [201%N] = [233%N] /\
  slug_char 233 = false.
Proof. vm_compute. repeat split. discriminate. Qed.

(** C8 (as amended).  [sanitize] has no placeholder: its output is empty
    exactly when the input has no alphanumeric character. *)
Theorem sanitize_empty_iff (U : unicode_db) (x : str) :
  ucd_lower_sane U ->
  (sanitize U x = [] <-> Forall (fun c => isalnum U c = false) x).
Proof.
  intros HU. unfold sanitize, lower. split.
  - intros H. apply lower_from_nil in H; [|done].
    apply strip_nil in H. apply Forall_fmap in H.
    eapply Forall_impl; [exact H|]. intros c. simpl.
    destruct (isalnum U c) eqn:E; [|done].
    unfold is_underscore. intros Hc. apply N.eqb_eq in Hc. subst c.
    by rewrite isalnum_underscore in E.
  - intros H.
    assert (strip is_underscore
              ((fun c => if isalnum U c then c else underscore) <$> x) = []) as ->.
    { apply strip_nil. apply Forall_fmap. eapply Forall_impl; [exact H|].
      intros c Hc. simpl. by rewrite Hc. }
    done.
Qed.

Lemma sanitize_empty_iff_witness :
  sanitize ucd_excerpt (py "?!") = [] <->
  Forall (fun c => isalnum ucd_excerpt c = false) (py "?!").
Proof. exact (sanitize_empty_iff ucd_excerpt (py "?!") ucd_excerpt_sane). Defined.

(** C8 fails as stated: a non-empty name without any alphanumeric character
    is sanitized to the empty string, whatever the Unicode tables. *)
Lemma sanitize_empty_counterexample :
  py "?!" <> [] /\ (forall U, sanitize U (py "?!") = []) /\
  py "_" <> [] /\ (forall U, sanitize U (py "_") = []).
Proof. repeat split; try discriminate; intros U; reflexivity. Qed.

(** ** The matcher finds a match exactly when there is one *)

Section RepeatFacts.
Context {R : Type}.
Variable p : N -> bool.

Lemma rep_greedy_sound (K : str -> str -> option R) s r :
  rep_greedy p K s = Some r ->
  exists w rest, s = w ++ rest /\ Forall (fun c => p c = true) w /\ K w rest = Some r.
Proof.
  revert K. induction s as [|c s IH]; intros K; simpl.
  - intros H. by exists [], [].
  - destruct (p c) eqn:E.
    + destruct (rep_greedy p (fun w rest => K (c :: w) rest) s) as [r'|] eqn:Eg.
      * intros [= ->]. apply IH in Eg as (w & rest & -> & Hw & HK).
        exists (c :: w), rest. repeat split; [by constructor | done].
      * intros H. by exists [], (c :: s).
    + intros H. by exists [], (c :: s).
Qed.

Lemma rep_greedy_base (K : str -> str -> option R) s :
  is_Some (K [] s) -> is_Some (rep_greedy p K s).
Proof.
  destruct s as [|c s]; simpl; [done|]. intros H.
  destruct (p c); [|done].
  by destruct (rep_greedy p (fun w rest => K (c :: w) rest) s).
Qed.

Lemma rep_greedy_complete (K : str -> str -> option R) w rest :
  Forall (fun c => p c = true) w -> is_Some (K w rest) ->
  is_Some (rep_greedy p K (w ++ rest)).
Proof.
  intros Hw. revert K. induction Hw as [|c w Hc _ IH]; intros K HK; simpl.
  - by apply rep_greedy_base.
  - rewrite Hc. specialize (IH (fun w rest => K (c :: w) rest) HK).
    destruct IH as [r ->]. done.
Qed.

Lemma rep_lazy_sound (K : str -> str -> option R) s r :
  rep_lazy p K s = Some r ->
  exists w rest, s = w ++ rest /\ Forall (fun c => p c = true) w /\ K w rest = Some r.
Proof.
  revert K. induction s as [|c s IH]; intros K; simpl.
  - destruct (K [] []) eqn:E; [|done]. intros [= ->]. by exists [], [].
  - destruct (K [] (c :: s)) eqn:E.
    + intros [= ->]. by exists [], (c :: s).
    + destruct (p c) eqn:Ec; [|done]. intros Eg.
      apply IH in Eg as (w & rest & -> & Hw & HK).
      exists (c :: w), rest. repeat split; [by constructor | done].
Qed.

Lemma rep_lazy_complete (K : str -> str -> option R) w rest :
  Forall (fun c => p c = true) w -> is_Some (K w rest) ->
  is_Some (rep_lazy p K (w ++ rest)).
Proof.
  intros Hw. revert K. induction Hw as [|c w Hc _ IH]; intros K HK; simpl.
  - destruct rest; simpl; by destruct HK as [r ->].
  - destruct (K [] (c :: w ++ rest)); [done|]. rewrite Hc. by apply IH.
Qed.

Lemma rep_sound plus greedy (K : str -> str -> option R) s r :
  rep p plus greedy K s = Some r ->
  exists w rest, s = w ++ rest /\ Forall (fun c => p c = true) w /\
    (plus = true -> w <> []) /\ K w rest = Some r.
Proof.
  unfold rep. destruct plus.
  - destruct s as [|c s]; [done|]. destruct (p c) eqn:Ec; [|done]. intros H.
    assert (exists w rest, s = w ++ rest /\ Forall (fun c => p c = true) w /\
              K (c :: w) rest = Some r) as (w & rest & -> & Hw & HK).
    { destruct greedy; [by apply rep_greedy_sound in H | by apply rep_lazy_sound in H]. }
    exists (c :: w), rest. repeat split; [by constructor | done | done].
  - intros H.
    assert (exists w rest, s = w ++ rest /\ Forall (fun c => p c = true) w /\
              K w rest = Some r) as (w & rest & -> & Hw & HK).
    { destruct greedy; [by apply rep_greedy_sound in H | by apply rep_lazy_sound in H]. }
    exists w, rest. repeat split; done.
Qed.

Lemma rep_complete plus greedy (K : str -> str -> option R) w rest :
  Forall (fun c => p c = true) w -> (plus = true -> w <> []) ->
  is_Some (K w rest) -> is_Some (rep p plus greedy K (w ++ rest)).
Proof.
  intros Hw Hne HK. unfold rep. destruct plus.
  - destruct w as [|c w]; [by destruct Hne|]. simpl.
    apply Forall_cons in Hw as [-> Hw].
    destruct greedy; [by apply rep_greedy_complete | by apply rep_lazy_complete].
  - destruct greedy; [by apply rep_greedy_complete | by apply rep_lazy_complete].
Qed.

End RepeatFacts.

Section MatchFacts.
Variable U : unicode_db.

Lemma match_here_sound its s gs :
  match_here U its s = Some gs ->
  exists m rest, s = m ++ rest /\ Matches U its m gs.
Proof.
  revert s gs. induction its as [|it its IH]; intros s gs; simpl.
  - intros [= <-]. exists [], s. split; [done | constructor].
  - destruct it as [ci p | k plus greedy cap].
    + destruct s as [|c s]; [done|]. destruct (lit_match U ci p c) eqn:E; [|done].
      intros H. apply IH in H as (m & rest & -> & Hm).
      exists (c :: m), rest. split; [done | by constructor].
    + intros H. apply rep_sound in H as (w & rest & -> & Hw & Hne & HK).
      destruct (match_here U its rest) as [gs'|] eqn:E; [|done].
      injection HK as <-. apply IH in E as (m & rest' & -> & Hm).
      exists (w ++ m), rest'. split; [by rewrite app_assoc | by constructor].
Qed.

Lemma match_here_complete its m gs rest :
  Matches U its m gs -> is_Some (match_here U its (m ++ rest)).
Proof.
  induction 1 as [|ci p c r s gs Hc _ IH|k plus greedy cap w r s gs Hw Hne _ IH];
    simpl.
  - done.
  - by rewrite Hc.
  - rewrite <- app_assoc. apply rep_complete; [done | done |].
    by destruct IH as [gs' ->].
Qed.

Lemma search_sound its s gs :
  search U its s = Some gs ->
  exists pre m post, s = pre ++ m ++ post /\ Matches U its m gs.
Proof.
  induction s as [|c s IH]; simpl.
  - destruct (match_here U its []) eqn:E; [|done]. intros [= ->].
    apply match_here_sound in E as (m & rest & Hs & Hm). by exists [], m, rest.
  - destruct (match_here U its (c :: s)) eqn:E.
    + intros [= ->]. apply match_here_sound in E as (m & rest & Hs & Hm).
      by exists [], m, rest.
    + intros H. apply IH in H as (pre & m & post & -> & Hm).
      by exists (c :: pre), m, post.
Qed.

Lemma search_complete its pre m post gs :
  Matches U its m gs -> is_Some (search U its (pre ++ m ++ post)).
Proof.
  intros Hm. induction pre as [|c pre IH]; simpl.
  - pose proof (match_here_complete its m gs post Hm) as [gs' E].
    destruct (m ++ post); simpl; by rewrite E.
  - destruct (match_here U its (c :: pre ++ m ++ post)); [done|]. exact IH.
Qed.

Lemma search_None its s : search U its s = None <-> ~ contains_match U its s.
Proof.
  split.
  - intros H (pre & m & post & gs & -> & Hm).
    pose proof (search_complete its pre m post gs Hm) as [gs' E]. congruence.
  - intros H. destruct (search U its s) as [gs|] eqn:E; [|done].
    destruct H. apply search_sound in E as (pre & m & post & Hs & Hm).
    by exists pre, m, post, gs.
Qed.

Lemma search_Some its s :
  is_Some (search U its s) <-> contains_match U its s.
Proof.
  split.
  - intros [gs E]. apply search_sound in E as (pre & m & post & Hs & Hm).
    by exists pre, m, post, gs.
  - intros (pre & m & post & gs & -> & Hm). by eapply search_complete.
Qed.

Lemma Matches_groups its m gs :
  Matches U its m gs -> length gs = groups its.
Proof.
  induction 1 as [| |k plus greedy cap w r s gs _ _ _ IH]; simpl; [done..|].
  destruct cap; simpl; by rewrite IH.
Qed.

End MatchFacts.

(** ** Reading the report of the simulator *)

Lemma int_truediv_not_RuntimeError a b msg :
  int_truediv a b <> Raise (RuntimeError msg).
Proof.
  unfold int_truediv. destruct b; [done| |];
    by destruct (SFdiv prec emax (Z2SF a) _).
Qed.

Lemma py_int_Ok U s :
  length s <= int_max_str_digits -> py_int U s = Ok (int_of U s).
Proof.
  intros H. unfold py_int.
  by destruct (Nat.ltb_spec int_max_str_digits (length s)); [lia|].
Qed.

Lemma py_int_Raise U s e : py_int U s = Raise e -> e = ValueError.
Proof.
  unfold py_int. destruct (int_max_str_digits <? length s)%nat; [|done].
  by intros [= <-].
Qed.

Lemma int_truediv_raises a b e :
  int_truediv a b = Raise e -> e = ZeroDivisionError \/ e = OverflowError.
Proof.
  unfold int_truediv. destruct b; [intros [= <-]; by left| |];
    destruct (SFdiv prec emax (Z2SF a) _); try done; intros [= <-]; by right.
Qed.

(** [re.search] returns a match of the pattern before which no match
    starts. *)
Lemma search_leftmost U its s gs :
  search U its s = Some gs ->
  exists pre m post,
    s = pre ++ m ++ post /\ Matches U its m gs /\
    forall pre1 pre2, pre = pre1 ++ pre2 -> pre2 <> [] ->
      match_here U its (pre2 ++ m ++ post) = None.
Proof.
  induction s as [|c s IH]; simpl.
  - destruct (match_here U its []) eqn:E; [|done]. intros [= ->].
    apply match_here_sound in E as (m & rest & Hs & Hm).
    exists [], m, rest. split; [done|]. split; [done|].
    intros [|? ?] [|? ?]; done.
  - destruct (match_here U its (c :: s)) eqn:E.
    + intros [= ->]. apply match_here_sound in E as (m & rest & Hs & Hm).
      exists [], m, rest. split; [done|]. split; [done|].
      intros [|? ?] [|? ?]; done.
    + intros H. apply IH in H as (pre & m & post & -> & Hm & Hleft).
      exists (c :: pre), m, post. split; [done|]. split; [done|].
      intros [|c' pre1] pre2 Hp Hne.
      * simpl in Hp. by subst pre2.
      * injection Hp as -> Hp. by eapply Hleft.
Qed.

(** ** Reading the reply of the model *)


Lemma _extract_Some U pattern text s :
  groups pattern = 1 ->
  _extract U pattern text = Some s ->
  exists pre m post g,
    text = pre ++ m ++ post /\ Matches U pattern m [g] /\
    s = strip (isspace U) g.
Proof.
  unfold _extract. intros Hg.
  destruct (search U pattern text) as [gs|] eqn:E; [|done]. intros [= <-].
  apply search_sound in E as (pre & m & post & -> & Hm).
  pose proof (Matches_groups U _ _ _ Hm) as Hlen. rewrite Hg in Hlen.
  destruct gs as [|g [|? ?]]; try done. by exists pre, m, post, g.
Qed.

Lemma truthy_Some (o : option str) :
  truthy o = true <-> exists s, o = Some s /\ s <> [].
Proof.
  split.
  - destruct o as [[|c s]|]; try done. by exists (c :: s).
  - by intros ([|c s] & -> & H).
Qed.

(** ** The order of floats *)

Ltac sf_order :=
  unfold SFltb, SFleb, SFeqb, SFcompare;
  repeat match goal with
    | |- context [match ?x with S754_zero _ => _ | _ => _ end] => destruct x
    | |- context [if ?b then _ else _] => destruct b
    end;
  try done;
  change (PosDef.Pos.compare_cont Eq) with Pos.compare;
  repeat match goal with
    | |- context [(?a ?= ?b)%Z] => destruct (Z.compare_spec a b)
    | |- context [(?a ?= ?b)%positive] => destruct (Pos.compare_spec a b)
    end;
  simpl; try done; try lia.

Lemma SFltb_irrefl a : SFltb a a = false.
Proof. sf_order. Qed.

Lemma SFltb_trans a b c : SFltb a b = true -> SFltb b c = true -> SFltb a c = true.
Proof. sf_order. Qed.

Lemma SFltb_SFleb a b : SFltb a b = true -> SFleb a b = true.
Proof. sf_order. Qed.

Lemma float_ltb_irrefl x : (x <? x)%float = false.
Proof. rewrite ltb_spec. apply SFltb_irrefl. Qed.

Lemma float_ltb_trans x y z :
  (x <? y)%float = true -> (y <? z)%float = true -> (x <? z)%float = true.
Proof. rewrite !ltb_spec. apply SFltb_trans. Qed.

Lemma float_ltb_leb x y : (x <? y)%float = true -> (x <=? y)%float = true.
Proof. rewrite ltb_spec, leb_spec. apply SFltb_SFleb. Qed.

Lemma float_leb_refl x : is_nan x = false -> (x <=? x)%float = true.
Proof.
  unfold is_nan. rewrite FloatAxioms.eqb_spec, leb_spec. unfold SFeqb, SFleb.
  by destruct (SFcompare (Prim2SF x) (Prim2SF x)) as [[]|].
Qed.

Lemma float_ltb_not_nan x y : (x <? y)%float = true -> is_nan y = false.
Proof.
  unfold is_nan. rewrite ltb_spec, FloatAxioms.eqb_spec.
  generalize (Prim2SF x) (Prim2SF y). intros a b. sf_order.
Qed.

(** ** One pass of the loop *)

Section LoopFacts.
Variable U : unicode_db.

Lemma record_app workload name desc cc rate wd (d : list Trial) :
  record workload name desc cc rate wd d =
  d ++ [ {| workload := workload; policy := name; policy_description := desc;
            workload_description := wd; cpp_file_path := cc;
            cache_hit_rate := rate; score := rate |} ].
Proof. done. Qed.

Lemma run_workloads_Ok a exe name desc cc ws acc d s d' :
  run_workloads U a exe name desc cc ws acc d = (Ok s, d') ->
  exists ts,
    Forall2 (fun w t => exists out,
               simulate a exe (trace_path w) = Ok out /\
               parse_hit_rate U out = Ok t) ws ts /\
    s = fold_left PrimFloat.add ts acc /\
    d' = d ++ workload_rows name desc cc ws ts.
Proof.
  revert acc d. induction ws as [|w ws IH]; intros acc d; simpl.
  - intros [= <- <-]. exists []. split; [constructor|]. by rewrite app_nil_r.
  - unfold run_policy.
    destruct (simulate a exe (trace_path w)) as [out|e] eqn:Es; [|done].
    destruct (parse_hit_rate U out) as [tmp|e] eqn:Ep; [|done].
    intros H. apply IH in H as (ts & Hts & -> & ->).
    exists (tmp :: ts). split; [|split].
    + constructor; [by exists out | done].
    + done.
    + rewrite record_app, <- app_assoc. done.
Qed.

Lemma float_div_workloads x :
  float_div x (float_of_nat (length workloads)) =
  Ok (x / float_of_nat (length workloads))%float.
Proof.
  unfold float_div.
  replace (float_of_nat (length workloads) =? 0)%float with false; [done|].
  by vm_compute.
Qed.

Lemma step_cases ses st a :
  let best := (compose ses st).2 in
  let text := oracle a (compose ses st).1 in
  (exists e, parse_reply U text = Raise e /\
     step U ses st a = Abort e (with_best st best (db st) (files st))) \/
  (exists name desc code, parse_reply U text = Ok (name, desc, code) /\
     let cc := cc_path (i st) (sanitize U name) in
     let fs := <[cc := code]> (files st) in
     (compiles a cc = false /\
      step U ses st a = Next (with_best st best (db st) fs)) \/
     (compiles a cc = true /\
      exists e d', step U ses st a = Abort e (with_best st best d' fs)) \/
     (compiles a cc = true /\
      exists ts,
        Forall2 (fun w t => exists out,
                   simulate a (with_suffix_out cc) (trace_path w) = Ok out /\
                   parse_hit_rate U out = Ok t) workloads ts /\
        let current := mean ts in
        let d'' := db st ++ workload_rows name desc cc workloads ts ++
                     [all_row name desc cc current] in
        let st3 := {| i := S (i st); best_hit := best; current_hit := current;
                      prev_name := prev_name st; prev_desc := prev_desc st;
                      prev_code := prev_code st; db := d''; files := fs |} in
        match float_div current best with
        | Raise e => step U ses st a = Abort e st3
        | Ok ratio =>
            if (1.3 <? ratio)%float then step U ses st a = Break st3
            else step U ses st a =
                 Next {| i := S (i st); best_hit := best; current_hit := current;
                         prev_name := Some name; prev_desc := Some desc;
                         prev_code := Some code; db := d''; files := fs |}
        end)).
Proof.
  intros best text. unfold step. subst best text.
  destruct (compose ses st) as [prompt best] eqn:Ec. cbv beta iota zeta.
  change ((prompt, best).1) with prompt. change ((prompt, best).2) with best.
  destruct (parse_reply U (oracle a prompt)) as [[[name desc] code]|e] eqn:Ep.
  2: { left. by exists e. }
  right. exists name, desc, code. split; [done|]. cbv beta iota zeta.
  unfold compile_policy.
  destruct (compiles a (cc_path (i st) (sanitize U name))) eqn:Eb.
  2: { left. done. }
  right. cbv beta iota zeta.
  destruct (run_workloads U a _ name desc _ workloads 0%float (db st))
    as [[s|e] d'] eqn:Er.
  2: { left. split; [done|]. by exists e, d'. }
  right. split; [done|].
  apply run_workloads_Ok in Er as (ts & Hts & -> & ->).
  exists ts. split; [done|].
  pose proof (Forall2_length _ _ _ Hts) as Hlen.
  rewrite float_div_workloads.
  assert (mean ts = (fold_left PrimFloat.add ts 0 / float_of_nat (length workloads))%float) as Hm.
  { unfold mean, py_sum. by rewrite Hlen. }
  rewrite <- Hm. unfold record, all_row. rewrite <- app_assoc.
  destruct (float_div (mean ts) best) as [ratio|e]; [|done].
  by destruct (1.3 <? ratio)%float.
Qed.

Lemma compose_best ses st :
  (compose ses st).2 = if (i st =? 0)%nat then best_hit st else decided st.
Proof.
  unfold compose, decided. destruct (i st =? 0)%nat; [done|].
  by destruct (best_hit st <? current_hit st)%float.
Qed.

(** Every pass leaves [best_hit] at the value the top of the pass gave it. *)
Lemma step_best ses st a :
  best_hit (final (step U ses st a)) = (compose ses st).2.
Proof.
  destruct (step_cases ses st a) as
    [(e & _ & ->) | (name & desc & code & _ &
       [(_ & ->) | [(_ & e & d' & ->) | (_ & ts & _ & H)]])]; try done.
  cbv zeta in H. destruct (float_div (mean ts) _) as [ratio|e].
  - destruct (1.3 <? ratio)%float; by rewrite H.
  - by rewrite H.
Qed.

(** The counter stays or advances by one. *)
Lemma step_index ses st a :
  i (final (step U ses st a)) = i st \/ i (final (step U ses st a)) = S (i st).
Proof.
  destruct (step_cases ses st a) as
    [(e & _ & ->) | (name & desc & code & _ &
       [(_ & ->) | [(_ & e & d' & ->) | (_ & ts & _ & H)]])]; try by left.
  right. cbv zeta in H. destruct (float_div (mean ts) _) as [ratio|e].
  - destruct (1.3 <? ratio)%float; by rewrite H.
  - by rewrite H.
Qed.

(** Before the first evaluation, [current_hit] is still [best_hit]. *)
Lemma reachable_first ses db0 files0 st :
  reachable U ses db0 files0 st -> i st = 0 -> current_hit st = best_hit st.
Proof.
  induction 1 as [st Hinit | st a st' _ IH Hstep].
  - unfold main_init in Hinit. destruct (top_policies ses); [done|].
    by injection Hinit as <-.
  - intros Hi. pose proof (step_best ses st a) as Hb. rewrite Hstep in Hb.
    simpl in Hb. rewrite Hb, compose_best.
    destruct (step_cases ses st a) as
      [(e & _ & E) | (name & desc & code & _ &
         [(_ & E) | [(_ & e & d' & E) | (_ & ts & _ & H)]])];
      rewrite Hstep in *; try done.
    + injection E as ->. simpl in *. rewrite Hi. simpl. by apply IH.
    + cbv zeta in H. destruct (float_div (mean ts) _) as [ratio|e]; [|done].
      destruct (1.3 <? ratio)%float; [done|]. by injection H as ->.
Qed.

Lemma reachable_decided ses db0 files0 st :
  reachable U ses db0 files0 st -> (compose ses st).2 = decided st.
Proof.
  intros H. rewrite compose_best. destruct (i st =? 0)%nat eqn:E; [|done].
  apply Nat.eqb_eq in E. unfold decided.
  rewrite (reachable_first _ _ _ _ H E). by rewrite float_ltb_irrefl.
Qed.

Lemma run_workloads_complete a exe name desc cc ws ts acc d :
  Forall2 (fun w t => exists out,
             simulate a exe (trace_path w) = Ok out /\
             parse_hit_rate U out = Ok t) ws ts ->
  run_workloads U a exe name desc cc ws acc d =
  (Ok (fold_left PrimFloat.add ts acc), d ++ workload_rows name desc cc ws ts).
Proof.
  intros H. revert acc d.
  induction H as [|w t ws ts (out & Es & Ep) _ IH]; intros acc d; simpl.
  - by rewrite app_nil_r.
  - unfold run_policy. rewrite Es, Ep, IH, record_app, <- app_assoc. done.
Qed.

(** A pass whose reply parses, whose build succeeds and whose five
    simulations report the rates [ts]. *)
Lemma step_evaluated ses st a name desc code ts :
  parse_reply U (oracle a (compose ses st).1) = Ok (name, desc, code) ->
  let cc := cc_path (i st) (sanitize U name) in
  compiles a cc = true ->
  Forall2 (fun w t => exists out,
             simulate a (with_suffix_out cc) (trace_path w) = Ok out /\
             parse_hit_rate U out = Ok t) workloads ts ->
  let best := (compose ses st).2 in
  let fs := <[cc := code]> (files st) in
  let current := mean ts in
  let d'' := db st ++ workload_rows name desc cc workloads ts ++
               [all_row name desc cc current] in
  step U ses st a =
  match float_div current best with
  | Raise e =>
      Abort e {| i := S (i st); best_hit := best; current_hit := current;
                 prev_name := prev_name st; prev_desc := prev_desc st;
                 prev_code := prev_code st; db := d''; files := fs |}
  | Ok ratio =>
      if (1.3 <? ratio)%float then
        Break {| i := S (i st); best_hit := best; current_hit := current;
                 prev_name := prev_name st; prev_desc := prev_desc st;
                 prev_code := prev_code st; db := d''; files := fs |}
      else
        Next {| i := S (i st); best_hit := best; current_hit := current;
                prev_name := Some name; prev_desc := Some desc;
                prev_code := Some code; db := d''; files := fs |}
  end.
Proof.
  intros Hp cc Hc Hts best fs current d''. subst cc best fs current d''.
  unfold step. destruct (compose ses st) as [prompt best].
  cbv beta iota zeta in *.
  change ((prompt, best).1) with prompt in *.
  change ((prompt, best).2) with best in *.
  rewrite Hp. cbv beta iota zeta. unfold compile_policy. rewrite Hc.
  cbv beta iota zeta.
  rewrite (run_workloads_complete _ _ _ _ _ _ _ _ _ Hts).
  rewrite float_div_workloads.
  pose proof (Forall2_length _ _ _ Hts) as Hlen.
  assert (mean ts = (fold_left PrimFloat.add ts 0 / float_of_nat (length workloads))%float) as Hm.
  { unfold mean, py_sum. by rewrite Hlen. }
  rewrite <- Hm. unfold record, all_row. rewrite <- app_assoc.
  destruct (float_div (mean ts) best) as [ratio|e]; [|done].
  by destruct (1.3 <? ratio)%float.
Qed.

End LoopFacts.

(** ** Deciding and stopping *)

Lemma step_break_iff U ses st a :
  (exists st', step U ses st a = Break st') <->
  i (final (step U ses st a)) = S (i st) /\
  exists ratio,
    float_div (current_hit (final (step U ses st a))) (compose ses st).2 = Ok ratio /\
    (1.3 <? ratio)%float = true.
Proof.
  destruct (step_cases U ses st a) as
    [(e & _ & E) | (name & desc & code & _ &
       [(_ & E) | [(_ & e & d' & E) | (_ & ts & _ & H)]])].
  1-3: rewrite E; simpl; split; [by intros [st' ?] | intros [Hi _]; lia].
  cbv zeta in H.
  destruct (float_div (mean ts) (compose ses st).2) as [ratio|e] eqn:Ed.
  - destruct (1.3 <? ratio)%float eqn:Er; rewrite H; simpl.
    + split; [|by eexists]. intros _. split; [done|]. by exists ratio.
    + split; [by intros [st' ?]|]. intros [_ (r & Hr & Hlt)].
      rewrite Ed in Hr. injection Hr as <-. congruence.
  - rewrite H. simpl. split; [by intros [st' ?]|]. intros [_ (r & Hr & _)].
    congruence.
Qed.

Lemma parse_reply_sample U :
  parse_reply U sample_reply =
  Ok (py "Hawkeye LRU v2", py "Mixes two ideas.", py "int main() {}").
Proof. by vm_compute. Qed.

Lemma sample_rates U (accesses hits : string) exe t :
  parse_hit_rate U (sample_report accesses hits) = Ok t ->
  Forall2 (fun w t' => exists out,
             simulate (sample_attempt true accesses hits) exe (trace_path w) = Ok out /\
             parse_hit_rate U out = Ok t') workloads (replicate 5 t).
Proof. intros H. repeat constructor; by eexists. Qed.

(** A pass that scores 0.4 against a best of 0.5 goes on to the next pass. *)
Lemma sample_pass U st :
  best_hit st = 0.5%float -> (0.5 <? current_hit st)%float = false ->
  exists st', step U (sample_session 0.5) st (sample_attempt true "100" "40") = Next st' /\
    i st' = S (i st) /\ best_hit st' = 0.5%float /\ current_hit st' = 0.4%float.
Proof.
  intros Hb Hc.
  assert ((compose (sample_session 0.5) st).2 = 0.5%float) as Hd.
  { rewrite compose_best. unfold decided. rewrite Hb, Hc. by destruct (i st =? 0)%nat. }
  assert (parse_hit_rate U (sample_report "100" "40") = Ok 0.4%float) as Hr
    by by vm_compute.
  erewrite step_evaluated;
    [ | apply parse_reply_sample | done | by apply sample_rates ].
  rewrite Hd. eexists. split; [by vm_compute|]. by vm_compute.
Qed.

Lemma sample_loop U n st :
  best_hit st = 0.5%float -> (0.5 <? current_hit st)%float = false ->
  exists st',
    loop U (sample_session 0.5) st (replicate n (sample_attempt true "100" "40")) = Next st' /\
    i st' = (i st + n)%nat.
Proof.
  revert st. induction n as [|n IH]; intros st Hb Hc; simpl.
  - exists st. split; [done | lia].
  - destruct (sample_pass U st Hb Hc) as (st1 & -> & Hi & Hb1 & Hc1).
    destruct (IH st1 Hb1) as (st' & -> & Hi').
    + rewrite Hc1. by vm_compute.
    + exists st'. split; [done | lia].
Qed.

(** ** The best score *)

Lemma workload_rows_not_all name desc cc ws ts :
  Forall (fun w => w_name w <> all) ws ->
  filter (fun t => is_all t = true) (workload_rows name desc cc ws ts) = [].
Proof.
  intros H. revert ts. induction H as [|w ws Hw _ IH]; intros [|t ts]; try done.
  unfold workload_rows. simpl. rewrite filter_cons_False.
  - apply IH.
  - unfold is_all. simpl. by rewrite bool_decide_eq_true.
Qed.

Lemma workloads_not_all : Forall (fun w => w_name w <> all) workloads.
Proof. repeat constructor; intros H; vm_compute in H; discriminate H. Qed.

Lemma evaluated_scores_app db0 new (st : State) :
  db st = db0 ++ new ->
  evaluated_scores db0 st = score <$> filter (fun t => is_all t = true) new.
Proof. intros H. unfold evaluated_scores. by rewrite H, drop_app_length. Qed.

Lemma invariant_decided ses db0 seed st :
  loop_invariant db0 seed st ->
  is_max (seed :: evaluated_scores db0 st) (compose ses st).2.
Proof.
  intros (_ & Hlen & Hcur & Hin & Hmax). rewrite compose_best.
  destruct (i st =? 0)%nat eqn:Ei.
  - apply Nat.eqb_eq in Ei. rewrite Ei in Hlen.
    apply nil_length_inv in Hlen. rewrite Hlen in *.
    apply list_elem_of_singleton in Hin. rewrite Hin.
    split; [apply list_elem_of_here|].
    constructor; [apply float_ltb_irrefl | constructor].
  - apply Nat.eqb_neq in Ei.
    destruct (last (evaluated_scores db0 st)) as [c|] eqn:El.
    2: { apply last_None in El. rewrite El in Hlen. simpl in Hlen. lia. }
    apply last_Some in El as (H0 & El). rewrite El in *.
    rewrite removelast_last in Hmax. simpl in Hcur.
    unfold decided. rewrite Hcur.
    destruct (best_hit st <? c)%float eqn:Elt.
    + split.
      * apply list_elem_of_further, elem_of_app. right. apply list_elem_of_here.
      * rewrite app_comm_cons. apply Forall_app. split.
        -- eapply Forall_impl; [exact Hmax|]. intros x Hx. simpl in Hx.
           destruct (c <? x)%float eqn:Ecx; [|done].
           by rewrite (float_ltb_trans _ _ _ Elt Ecx) in Hx.
        -- constructor; [apply float_ltb_irrefl | constructor].
    + split; [done|].
      rewrite app_comm_cons. apply Forall_app. split; [done|].
      by constructor.
Qed.

Lemma is_max_removelast l x m :
  is_max (x :: l) m ->
  Forall (fun y => (m <? y)%float = false) (x :: removelast l).
Proof.
  intros [_ H]. apply Forall_cons in H as [Hx Hl]. constructor; [done|].
  destruct l as [|y l _] using rev_ind; [done|].
  rewrite removelast_last. by apply Forall_app in Hl as [Hl _].
Qed.

Lemma main_init_invariant ses db0 files0 st0 :
  main_init ses db0 files0 = Ok st0 -> loop_invariant db0 (best_hit st0) st0.
Proof.
  unfold main_init. destruct (top_policies ses) as [|p ?]; [done|].
  intros [= <-]. unfold loop_invariant.
  rewrite (evaluated_scores_app db0 [] _) by (simpl; by rewrite app_nil_r).
  simpl. repeat split; try done.
  - exists []. by rewrite app_nil_r.
  - apply list_elem_of_here.
  - constructor; [apply float_ltb_irrefl | constructor].
Qed.

Lemma reachable_invariant U ses db0 files0 st0 st :
  main_init ses db0 files0 = Ok st0 ->
  reachable U ses db0 files0 st -> loop_invariant db0 (best_hit st0) st.
Proof.
  intros Hinit. induction 1 as [st Hst | st a st' _ IH Hstep].
  - rewrite Hinit in Hst. injection Hst as <-. by eapply main_init_invariant.
  - pose proof (invariant_decided ses _ _ st IH) as Hdec.
    destruct IH as ((new & Hdb) & Hlen & Hcur & Hin & Hmax).
    destruct (step_cases U ses st a) as
      [(e & _ & E) | (name & desc & code & _ &
         [(_ & E) | [(_ & e & d' & E) | (_ & ts & Hts & H)]])];
      rewrite Hstep in *; try done.
    + injection E as ->. unfold loop_invariant.
      assert (evaluated_scores db0
                (with_best st (compose ses st).2 (db st)
                   (<[cc_path (i st) (sanitize U name):=code]> (files st))) =
              evaluated_scores db0 st) as -> by done.
      simpl. repeat split; try done.
      * by exists new.
      * apply Hdec.
      * by apply is_max_removelast.
    + cbv zeta in H. destruct (float_div (mean ts) _) as [ratio|e]; [|done].
      destruct (1.3 <? ratio)%float; [done|]. injection H as ->.
      unfold loop_invariant.
      rewrite (evaluated_scores_app db0
                 (new ++ workload_rows name desc
                    (cc_path (i st) (sanitize U name)) workloads ts ++
                  [all_row name desc (cc_path (i st) (sanitize U name)) (mean ts)]) _)
        by (simpl; by rewrite Hdb, <- app_assoc).
      rewrite (evaluated_scores_app db0 new st Hdb) in *.
      rewrite !filter_app, workload_rows_not_all by apply workloads_not_all.
      rewrite filter_cons_True by done. rewrite filter_nil. simpl.
      rewrite !fmap_app. simpl. rewrite removelast_last, last_snoc.
      simpl. repeat split.
      * eexists. by rewrite Hdb, <- app_assoc.
      * rewrite length_app. simpl. lia.
      * destruct Hdec as [Hd _]. apply elem_of_cons in Hd as [Hd|Hd].
        -- rewrite Hd. apply list_elem_of_here.
        -- apply list_elem_of_further, elem_of_app. by left.
      * apply Hdec.
Qed.

Lemma sample_init_reachable U seed :
  reachable U (sample_session seed) [] ∅ (sample_init seed).
Proof. by apply reachable_init. Qed.

Lemma sample_second_reachable :
  reachable ucd_excerpt (sample_session 0.5) [] ∅ sample_second.
Proof.
  apply (reachable_step _ _ _ _ (sample_init 0.5) (sample_attempt true "100" "60"));
    [apply sample_init_reachable|].
  vm_compute. reflexivity.
Qed.

(** The two runs of the specification: from a best score of 0.50, a candidate
    that scores 0.66 ends the loop (and [best_hit] is still 0.50 then); one
    that scores 0.60 does not, and the next pass raises [best_hit] to 0.60. *)
Example end_to_end :
  match main ucd_excerpt (sample_session 0.5) [] ∅
          [sample_attempt true "100" "66"] with
  | Ok (Break st) => i st = 1 /\ current_hit st = 0.66%float /\ best_hit st = 0.5%float
  | _ => False
  end /\
  match main ucd_excerpt (sample_session 0.5) [] ∅
          [sample_attempt true "100" "60"] with
  | Ok (Next st) =>
      i st = 1 /\ current_hit st = 0.6%float /\ best_hit st = 0.5%float /\
      (compose (sample_session 0.5) st).2 = 0.6%float
  | _ => False
  end.
Proof. vm_compute. repeat split. Qed.

(** C9 (as amended).  [best_hit] starts at the score of the top-ranked
    aggregate row and a pass changes it only at its top and only to a
    [current_hit] that is greater, so it never decreases.  After that
    comparison, and until the end of the pass, it is a maximum of the seed and
    of the aggregate scores evaluated before the pass; the score the pass
    itself evaluates is not in it yet.  At the top of the loop it is one of
    the seed and the scores evaluated so far, and none of them except
    possibly the newest exceeds it. *)
Theorem best_hit_monotone_max (U : unicode_db) (ses : Session)
    (db0 : list Trial) (files0 : gmap str str) (st0 st : State) (a : Attempt) :
  main_init ses db0 files0 = Ok st0 ->
  reachable U ses db0 files0 st ->
  (best_hit (final (step U ses st a)) = best_hit st \/
   (best_hit st <? current_hit st)%float = true /\
   best_hit (final (step U ses st a)) = current_hit st) /\
  (is_nan (best_hit st) = false ->
   (best_hit st <=? best_hit (final (step U ses st a)))%float = true) /\
  is_max (best_hit st0 :: evaluated_scores db0 st)
    (best_hit (final (step U ses st a))) /\
  best_hit st ∈ best_hit st0 :: evaluated_scores db0 st /\
  Forall (fun x => (best_hit st <? x)%float = false)
    (best_hit st0 :: removelast (evaluated_scores db0 st)).
Proof.
  intros Hinit Hr.
  pose proof (reachable_invariant U _ _ _ _ _ Hinit Hr) as Hinv.
  pose proof (invariant_decided ses _ _ _ Hinv) as Hmax.
  rewrite step_best.
  assert ((compose ses st).2 = best_hit st \/
          (best_hit st <? current_hit st)%float = true /\
          (compose ses st).2 = current_hit st) as Hcase.
  { rewrite (reachable_decided U _ _ _ _ Hr). unfold decided.
    destruct (best_hit st <? current_hit st)%float; [by right | by left]. }
  split; [done|]. split; [|split; [done|]].
  - intros Hnan. destruct Hcase as [-> | [Hlt ->]].
    + by apply float_leb_refl.
    + by apply float_ltb_leb.
  - by destruct Hinv as (_ & _ & _ & Hin & Hfa).
Qed.

Lemma best_hit_monotone_max_witness :
  (best_hit (final (step ucd_excerpt (sample_session 0.5) sample_second
                      (sample_attempt true "100" "40"))) =
     best_hit sample_second \/
   (best_hit sample_second <? current_hit sample_second)%float = true /\
   best_hit (final (step ucd_excerpt (sample_session 0.5) sample_second
                      (sample_attempt true "100" "40"))) =
     current_hit sample_second) /\
  (is_nan (best_hit sample_second) = false ->
   (best_hit sample_second <=?
    best_hit (final (step ucd_excerpt (sample_session 0.5) sample_second
                       (sample_attempt true "100" "40"))))%float = true) /\
  is_max (best_hit (sample_init 0.5) :: evaluated_scores [] sample_second)
    (best_hit (final (step ucd_excerpt (sample_session 0.5) sample_second
                        (sample_attempt true "100" "40")))) /\
  best_hit sample_second ∈
    best_hit (sample_init 0.5) :: evaluated_scores [] sample_second /\
  Forall (fun x => (best_hit sample_second <? x)%float = false)
    (best_hit (sample_init 0.5) ::
     removelast (evaluated_scores [] sample_second)).
Proof.
  exact (best_hit_monotone_max ucd_excerpt (sample_session 0.5) [] ∅
           (sample_init 0.5) sample_second (sample_attempt true "100" "40")
           eq_refl sample_second_reachable).
Defined.

(** C9 fails as stated: when a candidate that scores 0.66 against a seed of
    0.50 ends the loop, [best_hit] is still 0.50; and after a candidate that
    scores 0.60, at the top of the next pass [best_hit] is still 0.50, below
    an aggregate score already evaluated and recorded. *)
Lemma best_hit_lags_counterexample :
  match main ucd_excerpt (sample_session 0.5) [] ∅
          [sample_attempt true "100" "66"] with
  | Ok (Break st) =>
      best_hit st = 0.5%float /\ evaluated_scores [] st = [0.66%float] /\
      (best_hit st <? 0.66)%float = true
  | _ => False
  end /\
  match main ucd_excerpt (sample_session 0.5) [] ∅
          [sample_attempt true "100" "60"] with
  | Ok (Next st) =>
      best_hit st = 0.5%float /\ evaluated_scores [] st = [0.6%float] /\
      (best_hit st <? 0.6)%float = true
  | _ => False
  end.
Proof. vm_compute. repeat split. Qed.

(** ** A failed build *)

Lemma step_build_failed U ses st a name desc code :
  parse_reply U (oracle a (compose ses st).1) = Ok (name, desc, code) ->
  compiles a (cc_path (i st) (sanitize U name)) = false ->
  step U ses st a =
  Next (with_best st (compose ses st).2 (db st)
          (<[cc_path (i st) (sanitize U name) := code]> (files st))).
Proof.
  intros Hp Hc. unfold step. destruct (compose ses st) as [prompt best].
  change ((prompt, best).1) with prompt in *.
  change ((prompt, best).2) with best in *.
  cbv beta iota zeta. rewrite Hp. cbv beta iota zeta.
  unfold compile_policy. by rewrite Hc.
Qed.

(** The prompt of a pass that follows a failed build. *)
Lemma compose_after_failure ses st best d fs :
  best = (compose ses st).2 ->
  (compose ses (with_best st best d fs)).2 = best /\
  (compose ses (with_best st best d fs)).1 =
    match (compose ses st).1 with
    | ColdStart w p t => ColdStart w p t
    | Refine w n dsc c _ t => Refine w n dsc c (NotBetter (current_hit st) best) t
    end.
Proof.
  intros ->. unfold compose, with_best. simpl.
  destruct (i st =? 0)%nat; [done|].
  destruct (best_hit st <? current_hit st)%float eqn:E; simpl.
  - by rewrite float_ltb_irrefl.
  - by rewrite E.
Qed.

(** When the counter advances, a candidate was evaluated on every workload
    and its aggregate row was recorded. *)
Lemma step_advanced U ses st a :
  i (final (step U ses st a)) = S (i st) ->
  exists name desc code ts,
    parse_reply U (oracle a (compose ses st).1) = Ok (name, desc, code) /\
    length ts = length workloads /\
    current_hit (final (step U ses st a)) = mean ts /\
    db (final (step U ses st a)) =
      db st ++ workload_rows name desc (cc_path (i st) (sanitize U name)) workloads ts ++
      [all_row name desc (cc_path (i st) (sanitize U name)) (mean ts)].
Proof.
  destruct (step_cases U ses st a) as
    [(e & _ & E) | (name & desc & code & Hp &
       [(_ & E) | [(_ & e & d' & E) | (_ & ts & Hts & H)]])].
  1-3: rewrite E; simpl; lia.
  intros _. exists name, desc, code, ts.
  split; [done|]. split; [symmetry; by eapply Forall2_length|].
  cbv zeta in H. destruct (float_div (mean ts) _) as [ratio|e].
  - destruct (1.3 <? ratio)%float; by rewrite H.
  - by rewrite H.
Qed.

(** The previous candidate changes only in a pass that evaluated its
    candidate and goes on to the next pass. *)
Lemma step_previous U ses st a :
  previous (final (step U ses st a)) = previous st \/
  exists name desc code st',
    parse_reply U (oracle a (compose ses st).1) = Ok (name, desc, code) /\
    step U ses st a = Next st' /\ i st' = S (i st) /\
    previous st' = (Some name, Some desc, Some code).
Proof.
  destruct (step_cases U ses st a) as
    [(e & _ & E) | (name & desc & code & Hp &
       [(_ & E) | [(_ & e & d' & E) | (_ & ts & Hts & H)]])].
  1-3: left; by rewrite E.
  cbv zeta in H. destruct (float_div (mean ts) _) as [ratio|e].
  - destruct (1.3 <? ratio)%float.
    + left. by rewrite H.
    + right. exists name, desc, code. eexists. by rewrite H.
  - left. by rewrite H.
Qed.

(** The prompt of the pass that follows a failed build, by the counter. *)
Lemma compose_retry ses st d fs :
  (i st = 0 ->
   (compose ses (with_best st (compose ses st).2 d fs)).1 =
   ColdStart (workload_desc ses) (top_policies ses) (code_template ses)) /\
  (i st <> 0 ->
   (compose ses (with_best st (compose ses st).2 d fs)).1 =
   Refine (workload_desc ses) (prev_name st) (prev_desc st) (prev_code st)
     (NotBetter (current_hit st) (compose ses st).2) (code_template ses)).
Proof.
  unfold compose, with_best. cbn [i best_hit current_hit prev_name prev_desc
                                  prev_code].
  destruct (i st =? 0)%nat eqn:Ei.
  - apply Nat.eqb_eq in Ei. split; [done|]. by intros [].
  - apply Nat.eqb_neq in Ei. split; [done|]. intros _.
    destruct (best_hit st <? current_hit st)%float eqn:E; cbn [snd].
    + by rewrite float_ltb_irrefl.
    + by rewrite E.
Qed.

(** C4 (as amended).  If the build of a candidate fails, the pass records no
    Trial, computes no score ([current_hit] is unchanged) and leaves the
    previous candidate and the counter as they were.  [best_hit] is the value
    the comparison at the top of the failed pass gave it (it has absorbed
    [current_hit] if that was greater).  When the failed pass was the first
    ([i = 0]), where no comparison is made, the retry sends the cold-start
    prompt again; in a later pass the prompt of the retry names the same
    previous candidate, compares the same [current_hit] with that
    [best_hit], and reports no improvement.  The previous candidate changes
    only at the end of a pass that evaluated its candidate and continues. *)
Theorem build_failure_retry (U : unicode_db) (ses : Session) (st : State)
    (a : Attempt) (name desc code : str) :
  parse_reply U (oracle a (compose ses st).1) = Ok (name, desc, code) ->
  compiles a (cc_path (i st) (sanitize U name)) = false ->
  (exists st',
     step U ses st a = Next st' /\
     db st' = db st /\ current_hit st' = current_hit st /\ i st' = i st /\
     previous st' = previous st /\
     best_hit st' = (compose ses st).2 /\
     (compose ses st').2 = best_hit st' /\
     (compose ses st').1 =
       match (compose ses st).1 with
       | ColdStart w p t => ColdStart w p t
       | Refine w n dsc c _ t =>
           Refine w n dsc c (NotBetter (current_hit st) (best_hit st')) t
       end /\
     (i st = 0 ->
      (compose ses st').1 =
      ColdStart (workload_desc ses) (top_policies ses) (code_template ses)) /\
     (i st <> 0 ->
      (compose ses st').1 =
      Refine (workload_desc ses) (prev_name st) (prev_desc st) (prev_code st)
        (NotBetter (current_hit st) (best_hit st')) (code_template ses))) /\
  (forall b,
     previous (final (step U ses st b)) = previous st \/
     exists name' desc' code' st',
       parse_reply U (oracle b (compose ses st).1) = Ok (name', desc', code') /\
       step U ses st b = Next st' /\ i st' = S (i st) /\
       previous st' = (Some name', Some desc', Some code')).
Proof.
  intros Hp Hc. split; [|intros b; apply step_previous].
  eexists. split; [exact (step_build_failed U ses st a name desc code Hp Hc)|].
  destruct (compose_after_failure ses st (compose ses st).2 (db st)
              (<[cc_path (i st) (sanitize U name) := code]> (files st)) eq_refl)
    as [H2 H1].
  destruct (compose_retry ses st (db st)
              (<[cc_path (i st) (sanitize U name) := code]> (files st)))
    as [H3 H4].
  repeat split; try done.
Qed.

Lemma build_failure_retry_witness :
  (exists st',
     step ucd_excerpt (sample_session 0.5) sample_second
       (sample_attempt false "100" "60") = Next st' /\
     db st' = db sample_second /\
     current_hit st' = current_hit sample_second /\
     i st' = i sample_second /\
     previous st' = previous sample_second /\
     best_hit st' = (compose (sample_session 0.5) sample_second).2 /\
     (compose (sample_session 0.5) st').2 = best_hit st' /\
     (compose (sample_session 0.5) st').1 =
       match (compose (sample_session 0.5) sample_second).1 with
       | ColdStart w p t => ColdStart w p t
       | Refine w n dsc c _ t =>
           Refine w n dsc c
             (NotBetter (current_hit sample_second) (best_hit st')) t
       end /\
     (i sample_second = 0 ->
      (compose (sample_session 0.5) st').1 =
      ColdStart (workload_desc (sample_session 0.5))
        (top_policies (sample_session 0.5))
        (code_template (sample_session 0.5))) /\
     (i sample_second <> 0 ->
      (compose (sample_session 0.5) st').1 =
      Refine (workload_desc (sample_session 0.5)) (prev_name sample_second)
        (prev_desc sample_second) (prev_code sample_second)
        (NotBetter (current_hit sample_second) (best_hit st'))
        (code_template (sample_session 0.5)))) /\
  (forall b,
     previous (final (step ucd_excerpt (sample_session 0.5) sample_second b)) =
       previous sample_second \/
     exists name' desc' code' st',
       parse_reply ucd_excerpt
         (oracle b (compose (sample_session 0.5) sample_second).1) =
         Ok (name', desc', code') /\
       step ucd_excerpt (sample_session 0.5) sample_second b = Next st' /\
       i st' = S (i sample_second) /\
       previous st' = (Some name', Some desc', Some code')).
Proof.
  exact (build_failure_retry ucd_excerpt (sample_session 0.5) sample_second
           (sample_attempt false "100" "60")
           (py "Hawkeye LRU v2") (py "Mixes two ideas.") (py "int main() {}")
           (parse_reply_sample ucd_excerpt) eq_refl).
Defined.

(** C4 fails as stated: after a candidate that scored 0.60 against a best of
    0.50, a pass whose build fails leaves [best_hit] at 0.60, and the feedback
    of the retry is "not better" where that of the failed pass was
    "improved". *)
Lemma build_failure_counterexample :
  match loop ucd_excerpt (sample_session 0.5) (sample_init 0.5)
          [sample_attempt true "100" "60"] with
  | Next st1 =>
      best_hit st1 = 0.5%float /\ current_hit st1 = 0.6%float /\
      prompt_feedback (compose (sample_session 0.5) st1).1 =
        Some (Improved 0.5 0.6) /\
      match step ucd_excerpt (sample_session 0.5) st1
              (sample_attempt false "100" "60") with
      | Next st2 =>
          db st2 = db st1 /\ previous st2 = previous st1 /\
          best_hit st2 = 0.6%float /\
          prompt_feedback (compose (sample_session 0.5) st2).1 =
            Some (NotBetter 0.6 0.6)
      | _ => False
      end
  | _ => False
  end.
Proof. vm_compute. repeat split. Qed.

(** A build that fails in the first pass: the retry is the first pass
    again, with the cold-start prompt, which carries no feedback. *)
Example first_pass_build_failure :
  match step ucd_excerpt (sample_session 0.5) (sample_init 0.5)
          (sample_attempt false "100" "60") with
  | Next st' =>
      i st' = 0 /\ db st' = [] /\ best_hit st' = 0.5%float /\
      prompt_feedback (compose (sample_session 0.5) st').1 = None /\
      (compose (sample_session 0.5) st').1 =
        (compose (sample_session 0.5) (sample_init 0.5)).1
  | _ => False
  end.
Proof. vm_compute. repeat split. Qed.

(** ** The source files *)

Lemma cc_path_inj n base1 base2 : cc_path n base1 = cc_path n base2 -> base1 = base2.
Proof.
  unfold cc_path. intros H.
  do 4 apply app_inv_head in H. by apply app_inv_tail in H.
Qed.

(** A pass whose reply parses writes the source under the current counter,
    however the pass ends. *)
Lemma step_files U ses st a name desc code :
  parse_reply U (oracle a (compose ses st).1) = Ok (name, desc, code) ->
  files (final (step U ses st a)) =
  <[cc_path (i st) (sanitize U name) := code]> (files st).
Proof.
  intros Hp.
  destruct (step_cases U ses st a) as
    [(e & Hp' & E) | (name' & desc' & code' & Hp' &
       [(_ & E) | [(_ & e & d' & E) | (_ & ts & Hts & H)]])];
    rewrite Hp in Hp'; try done; injection Hp' as <- <- <-.
  1-2: by rewrite E.
  cbv zeta in H. destruct (float_div (mean ts) _) as [ratio|e].
  - destruct (1.3 <? ratio)%float; by rewrite H.
  - by rewrite H.
Qed.

(** C10.  When the build of a candidate fails, its source is already in the
    directory and the counter has not advanced; the next pass writes its
    source under the same counter, so it replaces the failed file when the
    two sanitized names are equal (and leaves it in place otherwise).  The
    counter advances only in a pass that evaluated its candidate on every
    workload and recorded its aggregate row. *)
Theorem failed_build_keeps_index (U : unicode_db) (ses : Session) (st : State)
    (a : Attempt) (name desc code : str) :
  parse_reply U (oracle a (compose ses st).1) = Ok (name, desc, code) ->
  compiles a (cc_path (i st) (sanitize U name)) = false ->
  (exists st',
     step U ses st a = Next st' /\ i st' = i st /\
     files st' !! cc_path (i st) (sanitize U name) = Some code /\
     forall b name2 desc2 code2,
       parse_reply U (oracle b (compose ses st').1) = Ok (name2, desc2, code2) ->
       files (final (step U ses st' b)) !! cc_path (i st) (sanitize U name2) =
         Some code2 /\
       (sanitize U name2 = sanitize U name ->
        files (final (step U ses st' b)) !! cc_path (i st) (sanitize U name) =
          Some code2) /\
       (sanitize U name2 <> sanitize U name ->
        files (final (step U ses st' b)) !! cc_path (i st) (sanitize U name) =
          Some code)) /\
  (forall b,
     i (final (step U ses st b)) = i st \/
     i (final (step U ses st b)) = S (i st) /\
     exists name' desc' code' ts,
       parse_reply U (oracle b (compose ses st).1) = Ok (name', desc', code') /\
       length ts = length workloads /\
       current_hit (final (step U ses st b)) = mean ts /\
       db (final (step U ses st b)) =
         db st ++
         workload_rows name' desc' (cc_path (i st) (sanitize U name')) workloads ts ++
         [all_row name' desc' (cc_path (i st) (sanitize U name')) (mean ts)]).
Proof.
  intros Hp Hc. split.
  - eexists. split; [exact (step_build_failed U ses st a name desc code Hp Hc)|].
    simpl. split; [done|]. split; [apply lookup_insert_eq|].
    intros b name2 desc2 code2 Hp2.
    rewrite (step_files U ses _ b name2 desc2 code2 Hp2). simpl.
    split; [apply lookup_insert_eq|]. split.
    + intros ->. apply lookup_insert_eq.
    + intros Hne. rewrite lookup_insert_ne; [apply lookup_insert_eq|].
      intros H. by apply cc_path_inj in H.
  - intros b. destruct (step_index U ses st b) as [H|H]; [by left|].
    right. split; [done|]. by apply step_advanced.
Qed.

Lemma failed_build_keeps_index_witness :
  (exists st',
     step ucd_excerpt (sample_session 0.5) sample_second
       (sample_attempt false "100" "60") = Next st' /\
     i st' = i sample_second /\
     files st' !! cc_path (i sample_second)
                    (sanitize ucd_excerpt (py "Hawkeye LRU v2")) =
       Some (py "int main() {}") /\
     forall b name2 desc2 code2,
       parse_reply ucd_excerpt (oracle b (compose (sample_session 0.5) st').1) =
         Ok (name2, desc2, code2) ->
       files (final (step ucd_excerpt (sample_session 0.5) st' b)) !!
         cc_path (i sample_second) (sanitize ucd_excerpt name2) = Some code2 /\
       (sanitize ucd_excerpt name2 = sanitize ucd_excerpt (py "Hawkeye LRU v2") ->
        files (final (step ucd_excerpt (sample_session 0.5) st' b)) !!
          cc_path (i sample_second)
            (sanitize ucd_excerpt (py "Hawkeye LRU v2")) = Some code2) /\
       (sanitize ucd_excerpt name2 <> sanitize ucd_excerpt (py "Hawkeye LRU v2") ->
        files (final (step ucd_excerpt (sample_session 0.5) st' b)) !!
          cc_path (i sample_second)
            (sanitize ucd_excerpt (py "Hawkeye LRU v2")) =
          Some (py "int main() {}"))) /\
  (forall b,
     i (final (step ucd_excerpt (sample_session 0.5) sample_second b)) =
       i sample_second \/
     i (final (step ucd_excerpt (sample_session 0.5) sample_second b)) =
       S (i sample_second) /\
     exists name' desc' code' ts,
       parse_reply ucd_excerpt
         (oracle b (compose (sample_session 0.5) sample_second).1) =
         Ok (name', desc', code') /\
       length ts = length workloads /\
       current_hit (final (step ucd_excerpt (sample_session 0.5)
                             sample_second b)) = mean ts /\
       db (final (step ucd_excerpt (sample_session 0.5) sample_second b)) =
         db sample_second ++
         workload_rows name' desc'
           (cc_path (i sample_second) (sanitize ucd_excerpt name')) workloads ts ++
         [all_row name' desc'
            (cc_path (i sample_second) (sanitize ucd_excerpt name')) (mean ts)]).
Proof.
  exact (failed_build_keeps_index ucd_excerpt (sample_session 0.5)
           sample_second (sample_attempt false "100" "60")
           (py "Hawkeye LRU v2") (py "Mixes two ideas.") (py "int main() {}")
           (parse_reply_sample ucd_excerpt) eq_refl).
Defined.

(** A failed build followed by a retry under the same name: one file, with
    the source of the retry, under the counter 000. *)
Example retry_overwrites :
  match loop ucd_excerpt (sample_session 0.5) (sample_init 0.5)
          [ {| oracle := fun _ => sample_reply; compiles := fun _ => false;
               simulate := fun _ _ => Raise CalledProcessError |};
            sample_attempt true "100" "60" ] with
  | Next st =>
      i st = 1 /\
      files st !! py "ChampSim_CRC2/new_policies/000_hawkeye_lru_v2.cc" =
        Some (py "int main() {}") /\
      size (files st) = 1
  | _ => False
  end.
Proof. vm_compute. repeat split. Qed.

(** ** The table of the seeding script *)

Lemma recorded_rates_app t1 t2 name :
  recorded_rates (t1 ++ t2) name = recorded_rates t1 name ++ recorded_rates t2 name.
Proof. unfold recorded_rates. by rewrite filter_app, fmap_app. Qed.

Lemma recorded_rates_all table name :
  Forall (fun t => is_all t = true) table -> recorded_rates table name = [].
Proof.
  induction 1 as [|t table Ht _ IH]; [done|].
  unfold recorded_rates in *. rewrite filter_cons_False; [done|].
  intros [_ H]. congruence.
Qed.

Lemma recorded_rates_cons_in t table name :
  policy t = name -> is_all t = false ->
  recorded_rates (t :: table) name = cache_hit_rate t :: recorded_rates table name.
Proof. intros. unfold recorded_rates. by rewrite filter_cons_True. Qed.

Lemma recorded_rates_cons_out t table name :
  policy t <> name -> recorded_rates (t :: table) name = recorded_rates table name.
Proof.
  intros. unfold recorded_rates. rewrite filter_cons_False; [done|]. by intros [? _].
Qed.

Section SeedingFacts.
Import DB_Connection.
Variable sum : list float -> float.
Variable policies : list (str * PolicyInfo).
Variable perf_data : list (str * list float).
Hypothesis policies_NoDup : NoDup policies.*1.

Lemma insert_Ok row table table' :
  insert row table = Ok table' <->
  table' = table ++ [row] /\
  is_nan (cache_hit_rate row) = false /\ is_nan (score row) = false.
Proof.
  unfold insert.
  destruct (is_nan (cache_hit_rate row)), (is_nan (score row)); simpl;
    split; try done; try (by intros (_ & ? & ?)).
  - by intros [= <-].
  - by intros (-> & _).
Qed.

Lemma insert_Raise row table e : insert row table = Raise e -> e = IntegrityError.
Proof.
  unfold insert. destruct (_ || _); [|done]. by intros [= <-].
Qed.

Lemma collect_policies_spec w ps n m m' :
  collect_policies perf_data w ps n m = Ok m' ->
  NoDup ps ->
  forall p,
    (p ∉ ps -> m' !! p = m !! p) /\
    (forall k, ps !! k = Some p ->
       exists x, perf_at perf_data w (n + k) = Ok x /\
                 m' !! p = Some (default [] (m !! p) ++ [x])).
Proof.
  revert n m. induction ps as [|p0 ps IH]; intros n m; simpl.
  - intros [= <-] _ p. split; [done|]. by intros k.
  - destruct (perf_at perf_data w n) as [x0|e] eqn:E0; [|done].
    intros H Hnd p. apply NoDup_cons in Hnd as [Hp0 Hnd].
    destruct (IH _ _ H Hnd p) as [IH1 IH2]. split.
    + intros Hp. apply not_elem_of_cons in Hp as [Hne Hp].
      rewrite IH1 by done. by rewrite lookup_insert_ne.
    + intros [|k] Hk; simpl in Hk.
      * injection Hk as <-. exists x0. rewrite Nat.add_0_r. split; [done|].
        rewrite IH1 by done. by rewrite lookup_insert_eq.
      * destruct (IH2 k Hk) as (x & Hx & Hm). exists x.
        replace (n + S k) with (S n + k) by lia. split; [done|].
        rewrite Hm. rewrite lookup_insert_ne; [done|].
        intros ->. apply Hp0. by eapply list_elem_of_lookup_2.
Qed.

Lemma collect_workloads_spec ws m m' :
  collect_workloads policies perf_data ws m = Ok m' ->
  forall k p, policies.*1 !! k = Some p ->
    exists col,
      Forall2 (fun w x => perf_at perf_data w k = Ok x) ws col /\
      default [] (m' !! p) = default [] (m !! p) ++ col /\
      (ws <> [] -> is_Some (m' !! p)).
Proof.
  revert m. induction ws as [|w ws IH]; intros m; simpl.
  - intros [= <-] k p _. exists []. split; [constructor|].
    by rewrite app_nil_r.
  - destruct (collect_policies perf_data w policies.*1 0 m) as [m1|e] eqn:E1;
      [|done].
    intros H k p Hk.
    destruct (collect_policies_spec _ _ _ _ _ E1 policies_NoDup p) as [_ H1].
    destruct (H1 k Hk) as (x & Hx & Hm1). simpl in Hx.
    destruct (IH _ H k p Hk) as (col & Hcol & Hm' & Hsome).
    exists (x :: col). split; [by constructor|]. split.
    + rewrite Hm', Hm1. simpl. by rewrite <- app_assoc.
    + intros _. destruct ws as [|w' ws].
      * simpl in H. injection H as <-. by rewrite Hm1.
      * by apply Hsome.
Qed.

Lemma insert_policies_spec scores w wd ps n table table' :
  insert_policies perf_data scores w wd ps n table = Ok table' ->
  NoDup ps.*1 -> w <> all ->
  exists rows,
    table' = table ++ rows /\
    Forall (fun t => is_all t = false /\ policy t ∈ ps.*1 /\
                     scores !! policy t = Some (score t)) rows /\
    forall p,
      (p ∉ ps.*1 -> recorded_rates rows p = []) /\
      (forall k, ps.*1 !! k = Some p ->
         exists x, perf_at perf_data w (n + k) = Ok x /\ recorded_rates rows p = [x]).
Proof.
  intros H Hnd Hw. revert n table H Hnd.
  induction ps as [|[p0 pd] ps IH]; intros n table; simpl.
  - intros [= <-] _. exists []. rewrite app_nil_r.
    repeat split; try done; by intros k.
  - destruct (perf_at perf_data w n) as [x0|e] eqn:E0; [|done].
    unfold score_of. destruct (scores !! p0) as [sc|] eqn:Esc; [|done].
    destruct (insert _ table) as [t1|e] eqn:Ei; [|done].
    apply insert_Ok in Ei as (-> & _ & _).
    intros H Hnd. apply NoDup_cons in Hnd as [Hp0 Hnd].
    destruct (IH _ _ H Hnd) as (rows & -> & Hrows & Hrates).
    eexists (_ :: rows). split; [by rewrite <- app_assoc|].
    assert (is_all {| workload := w; policy := p0;
                      policy_description := p_description pd;
                      workload_description := wd;
                      cpp_file_path := file_path pd;
                      cache_hit_rate := x0; score := sc |} = false) as Hna.
    { unfold is_all. simpl. by apply bool_decide_eq_false. }
    split.
    { constructor.
      - simpl. repeat split; [done | apply list_elem_of_here | done].
      - eapply Forall_impl; [exact Hrows|]. intros t (? & ? & ?).
        repeat split; [done | by apply list_elem_of_further | done]. }
    intros p. destruct (Hrates p) as [Hr1 Hr2]. split.
    + intros Hp. apply not_elem_of_cons in Hp as [Hne Hp].
      rewrite recorded_rates_cons_out by (simpl; congruence). by apply Hr1.
    + intros [|k] Hk; simpl in Hk.
      * injection Hk as <-. exists x0. rewrite Nat.add_0_r. split; [done|].
        rewrite recorded_rates_cons_in by done. simpl. by rewrite Hr1.
      * destruct (Hr2 k Hk) as (x & Hx & Hr). exists x.
        replace (n + S k) with (S n + k) by lia. split; [done|].
        rewrite recorded_rates_cons_out; [done|].
        simpl. intros ->. apply Hp0. by eapply list_elem_of_lookup_2.
Qed.

Lemma insert_workloads_spec scores (ws : list (str * WorkloadInfo)) table table' :
  insert_workloads policies perf_data scores ws table = Ok table' ->
  all ∉ ws.*1 ->
  exists rows,
    table' = table ++ rows /\
    Forall (fun t => is_all t = false /\ policy t ∈ policies.*1 /\
                     scores !! policy t = Some (score t)) rows /\
    forall k p, policies.*1 !! k = Some p ->
      exists col,
        Forall2 (fun w x => perf_at perf_data w k = Ok x) ws.*1 col /\
        recorded_rates rows p = col.
Proof.
  revert table. induction ws as [|[w wd] ws IH]; intros table; simpl.
  - intros [= <-] _. exists []. rewrite app_nil_r. repeat split; try done.
    intros k p _. exists []. split; [constructor | done].
  - destruct (insert_policies perf_data scores w (w_description wd) policies 0 table)
      as [t1|e] eqn:E1; [|done].
    intros H Hall. apply not_elem_of_cons in Hall as [Hw Hall].
    destruct (insert_policies_spec _ _ _ _ _ _ _ E1 policies_NoDup) as
      (rows1 & -> & Hna1 & Hr1); [done|].
    destruct (IH _ H Hall) as (rows2 & -> & Hna2 & Hr2).
    exists (rows1 ++ rows2). split; [by rewrite <- app_assoc|].
    split; [by apply Forall_app|]. intros k p Hk.
    destruct (Hr1 p) as [_ Hr1']. destruct (Hr1' k Hk) as (x & Hx & Hrx).
    destruct (Hr2 k p Hk) as (col & Hcol & Hrc).
    exists (x :: col). split; [by constructor|].
    by rewrite recorded_rates_app, Hrx, Hrc.
Qed.

Lemma insert_all_spec scores (ps : list (str * PolicyInfo)) table table' :
  insert_all scores ps table = Ok table' ->
  exists rows,
    table' = table ++ rows /\
    Forall (fun t => is_all t = true /\ policy t ∈ ps.*1 /\
                     scores !! policy t = Some (score t)) rows.
Proof.
  revert table. induction ps as [|[p0 pd] ps IH]; intros table; simpl.
  - intros [= <-]. exists []. by rewrite app_nil_r.
  - unfold score_of. destruct (scores !! p0) as [sc|] eqn:E; [|done].
    destruct (insert _ table) as [t1|e] eqn:Ei; [|done].
    apply insert_Ok in Ei as (-> & _ & _).
    intros H. destruct (IH _ H) as (rows & -> & Hrows).
    eexists (_ :: rows). split; [by rewrite <- app_assoc|].
    constructor.
    + simpl. repeat split; [apply list_elem_of_here | done].
    + eapply Forall_impl; [exact Hrows|]. intros t (? & ? & ?).
      repeat split; [done | by apply list_elem_of_further | done].
Qed.

Lemma Forall2_perf_functional k ws col1 col2 :
  Forall2 (fun w x => perf_at perf_data w k = Ok x) ws col1 ->
  Forall2 (fun w x => perf_at perf_data w k = Ok x) ws col2 ->
  col1 = col2.
Proof.
  intros H. revert col2. induction H as [|w x ws col1 Hx _ IH]; intros col2 H2.
  - by inversion H2.
  - inversion H2 as [|? y ? col2' Hy Hrest]; subst.
    rewrite Hx in Hy. injection Hy as <-. f_equal. by apply IH.
Qed.

Lemma average_nonempty col :
  col <> [] -> average sum col = (sum col / float_of_nat (length col))%float.
Proof. by destruct col. Qed.

Lemma average_mean col : col <> [] -> average py_sum col = mean col.
Proof. by destruct col. Qed.

(** Every row of the seeded table, per-workload or aggregate, carries in
    [score] the mean of the rates recorded for its policy: their [sum]
    divided by their number. *)
Lemma seed_denormalized (workloads : list (str * WorkloadInfo)) table :
  all ∉ workloads.*1 ->
  seed sum workloads policies perf_data = Ok table ->
  forall r, r ∈ table ->
    recorded_rates table (policy r) <> [] /\
    score r = average sum (recorded_rates table (policy r)).
Proof.
  intros Hall. unfold seed.
  destruct (collect_workloads policies perf_data workloads.*1 ∅) as [m|e] eqn:Ec;
    [|done].
  destruct (insert_workloads policies perf_data (policy_scores sum m) workloads [])
    as [t1|e] eqn:E1; [|done].
  intros E2 r Hr.
  destruct (insert_workloads_spec _ _ _ _ E1 Hall) as (rows1 & -> & Hrows1 & Hr1).
  destruct (insert_all_spec _ _ _ _ E2) as (rows2 & -> & Hrows2).
  simpl in *.
  assert (policy r ∈ policies.*1 /\
          policy_scores sum m !! policy r = Some (score r)) as [Hp Hsc].
  { rewrite Forall_forall in Hrows1. rewrite Forall_forall in Hrows2.
    apply elem_of_app in Hr as [Hr|Hr].
    - by destruct (Hrows1 r Hr) as (_ & ? & ?).
    - by destruct (Hrows2 r Hr) as (_ & ? & ?). }
  apply list_elem_of_lookup_1 in Hp as [k Hk].
  destruct (Hr1 k _ Hk) as (col1 & Hcol1 & Hrates).
  destruct (collect_workloads_spec _ _ _ Ec k _ Hk) as (col & Hcol & Hm & Hsome).
  pose proof (Forall2_perf_functional _ _ _ _ Hcol1 Hcol) as ->.
  rewrite recorded_rates_app, Hrates.
  rewrite (recorded_rates_all rows2), app_nil_r.
  2: { eapply Forall_impl; [exact Hrows2|]. by intros t (? & _). }
  unfold policy_scores in Hsc. rewrite lookup_fmap in Hsc.
  destruct (m !! policy r) as [hit_rates|] eqn:Em; [|done].
  simpl in Hsc, Hm. injection Hsc as <-. rewrite lookup_empty in Hm.
  simpl in Hm. subst hit_rates. split; [|done].
  intros ->. inversion Hcol as [Hws|]; subst.
  destruct workloads; [|done]. simpl in Ec. injection Ec as <-.
  by rewrite lookup_empty in Em.
Qed.

End SeedingFacts.

Lemma seed_tables_ok :
  NoDup DB_Connection.policies.*1 /\ all ∉ DB_Connection.workloads.*1.
Proof.
  split.
  - apply (bool_decide_unpack _). by vm_compute.
  - apply (bool_decide_unpack _). by vm_compute.
Qed.

(** ** The rows of one evaluation *)

Lemma workload_rows_spec name desc cc ws ts :
  length ts = length ws ->
  cache_hit_rate <$> workload_rows name desc cc ws ts = ts /\
  workload <$> workload_rows name desc cc ws ts = w_name <$> ws /\
  Forall (fun t => policy t = name /\ score t = cache_hit_rate t)
    (workload_rows name desc cc ws ts).
Proof.
  revert ts. induction ws as [|w ws IH]; intros [|t ts] Hlen; try done.
  injection Hlen as Hlen. destruct (IH ts Hlen) as (H1 & H2 & H3).
  unfold workload_rows in *. cbn [zip_with]. rewrite !fmap_cons, H1, H2.
  repeat split. by constructor.
Qed.

Lemma workload_rows_named name desc cc ws ts :
  Forall (fun w => w_name w <> all) ws ->
  Forall (fun t => workload t <> all) (workload_rows name desc cc ws ts).
Proof.
  intros H. revert ts. induction H as [|w ws Hw _ IH]; intros [|t ts];
    try by constructor.
Qed.

(** ** The score column *)

(** C1, on the program.  [record] writes the rate it is given to both
    [cache_hit_rate] and [score].  For a candidate that reaches 0.4 on astar
    and 0.6 on the four other workloads, the per-workload rows carry the
    scores 0.4 and 0.6 and only the row under ["all"] carries the mean,
    0.56. *)
Theorem record_writes_own_rate :
  (forall workload name desc cc rate wd table,
     exists r,
       record workload name desc cc rate wd table = table ++ [r] /\
       cache_hit_rate r = rate /\ score r = rate) /\
  match main ucd_excerpt (sample_session 0.5) [] ∅ [uneven_attempt] with
  | Ok (Next st) =>
      workload <$> db st =
        [py "astar"; py "lbm"; py "mcf"; py "milc"; py "omnetpp"; all] /\
      policy <$> db st = replicate 6 (py "Hawkeye LRU v2") /\
      score <$> db st = [0.4; 0.6; 0.6; 0.6; 0.6; 0.56]%float /\
      mean (recorded_rates (db st) (py "Hawkeye LRU v2")) = 0.56%float
  | _ => False
  end.
Proof.
  split.
  - intros. eexists. by rewrite record_app.
  - vm_compute. repeat split.
Qed.

(** The seeding script, for comparison: every row of its table carries the
    mean of its policy. *)
Example seed_rows_carry_the_mean :
  match DB_Connection.seed py_sum DB_Connection.workloads
          DB_Connection.policies DB_Connection.perf_data with
  | Ok table =>
      Forall (fun r => score r = mean (recorded_rates table (policy r))) table
  | Raise _ => False
  end /\
  match DB_Connection.seed neumaier_sum DB_Connection.workloads
          DB_Connection.policies DB_Connection.perf_data with
  | Ok table =>
      Forall (fun r =>
                score r =
                DB_Connection.average neumaier_sum
                  (recorded_rates table (policy r))) table
  | Raise _ => False
  end.
Proof.
  destruct seed_tables_ok as [Hnd Hall]. split.
  - destruct (DB_Connection.seed py_sum _ _ _) as [table|e] eqn:E.
    + apply Forall_forall. intros r Hr.
      destruct (seed_denormalized _ _ _ Hnd _ _ Hall E r Hr) as [Hne ->].
      by apply average_mean.
    + by vm_compute in E.
  - destruct (DB_Connection.seed neumaier_sum _ _ _) as [table|e] eqn:E.
    + apply Forall_forall. intros r Hr.
      by destruct (seed_denormalized _ _ _ Hnd _ _ Hall E r Hr) as [Hne ->].
    + by vm_compute in E.
Qed.

(* ------------------------------------------------------------------ *)
(** * Further properties *)


(** ** File names and the counter *)

Lemma digit_value U c :
  ascii_isdecimal c = true ->
  is_ascii c = true /\ (0 <= decimal_value U c <= 9)%Z /\
  c <> underscore /\ c <> nl /\ c <> slash.
Proof.
  intros H. unfold decimal_value.
  assert (is_ascii c = true) as -> by ascii_cases.
  unfold nl, slash. split; [done|]. ascii_cases.
Qed.

Lemma uint_str_digits d : Forall (fun c => ascii_isdecimal c = true) (uint_str d).
Proof. induction d; simpl; by constructor. Qed.

Lemma fmt03_digits n : Forall (fun c => ascii_isdecimal c = true) (fmt03 n).
Proof.
  unfold fmt03. apply Forall_app. split; [|apply uint_str_digits].
  by apply Forall_replicate.
Qed.

Lemma fmt03_length n : 3 <= length (fmt03 n).
Proof. unfold fmt03. rewrite length_app, length_replicate. lia. Qed.

Lemma int_of_app U s t :
  int_of U (s ++ t) =
  fold_left (fun n c => (10 * n + decimal_value U c)%Z) t (int_of U s).
Proof. unfold int_of. by rewrite fold_left_app. Qed.

Lemma int_of_uint_str U d acc :
  fold_left (fun n c => (10 * n + decimal_value U c)%Z) (uint_str d) (Z.of_nat acc) =
  Z.of_nat (Nat.of_uint_acc d acc).
Proof.
  revert acc. induction d; intros acc; simpl; [done|..];
    rewrite <- IHd; f_equal; rewrite Nat.tail_mul_spec;
    unfold decimal_value; simpl; lia.
Qed.

Lemma int_of_zeros U k : int_of U (replicate k 48%N) = 0%Z.
Proof. unfold int_of. induction k as [|k IH]; [done|]. simpl. exact IH. Qed.

(** The digits of [f"{i:03}"] read back as [i]. *)
Lemma int_of_fmt03 U n : int_of U (fmt03 n) = Z.of_nat n.
Proof.
  unfold fmt03. rewrite int_of_app, int_of_zeros.
  change 0%Z with (Z.of_nat 0). rewrite int_of_uint_str.
  f_equal. apply Unsigned.of_to.
Qed.

Lemma digits_until_underscore d1 d2 r1 r2 :
  Forall (fun c => ascii_isdecimal c = true) d1 ->
  Forall (fun c => ascii_isdecimal c = true) d2 ->
  d1 ++ underscore :: r1 = d2 ++ underscore :: r2 -> d1 = d2 /\ r1 = r2.
Proof.
  intros H1. revert d2. induction H1 as [|c d1 Hc _ IH]; intros d2 H2 E.
  - destruct H2 as [|c d2 Hc _]; simpl in E.
    + by injection E.
    + injection E as <- _. done.
  - destruct H2 as [|c' d2 Hc' H2]; simpl in E.
    + injection E as -> _. done.
    + injection E as <- E. destruct (IH d2 H2 E) as [-> ->]. done.
Qed.

(** X1.  Two sources get the same path only when they have the same counter
    and the same sanitized name: the zero-padded counter is read back without
    loss, so passes with different counters never write to the same file. *)
Theorem cc_path_injective (n m : nat) (base1 base2 : str) :
  cc_path n base1 = cc_path m base2 <-> n = m /\ base1 = base2.
Proof.
  split; [|by intros [-> ->]].
  unfold cc_path. intros H. do 2 apply app_inv_head in H.
  apply digits_until_underscore in H as [Hd H]; [|apply fmt03_digits..].
  apply app_inv_tail in H. split; [|done].
  apply Nat2Z.inj. rewrite <- (int_of_fmt03 ucd_excerpt n), Hd.
  apply int_of_fmt03.
Qed.

Lemma split_on_nonempty sep s : split_on sep s <> [].
Proof.
  destruct s as [|c s]; simpl; [done|].
  destruct (c =? sep)%N; [done|]. by destruct (split_on sep s).
Qed.

Lemma split_on_app sep a b :
  split_on sep (a ++ sep :: b) = split_on sep a ++ split_on sep b.
Proof.
  induction a as [|c a IH]; simpl.
  - by rewrite N.eqb_refl.
  - destruct (c =? sep)%N; [by rewrite IH|]. rewrite IH.
    pose proof (split_on_nonempty sep a). by destruct (split_on sep a).
Qed.

Lemma split_on_absent sep s : sep ∉ s -> split_on sep s = [s].
Proof.
  induction s as [|c s IH]; [done|]. intros H.
  apply not_elem_of_cons in H as [Hc Hs]. simpl.
  destruct (N.eqb_spec c sep) as [->|_]; [done|]. by rewrite IH.
Qed.

(** The name of a path whose last piece has no slash and is not a dot. *)
Lemma path_name_last dir f :
  slash ∉ f -> f <> [] -> f <> py "." -> path_name (dir ++ slash :: f) = f.
Proof.
  intros Hs Hne Hdot. unfold path_name.
  rewrite split_on_app, (split_on_absent slash f Hs), filter_app.
  rewrite (filter_cons_True _ f) by done. rewrite filter_nil, last_snoc. done.
Qed.

Lemma three_digits_Some rest g :
  three_digits rest = Some g ->
  exists d1 d2 d3 rest',
    rest = d1 :: d2 :: d3 :: underscore :: rest' /\ g = [d1; d2; d3] /\
    ascii_isdecimal d1 = true /\ ascii_isdecimal d2 = true /\
    ascii_isdecimal d3 = true.
Proof.
  destruct rest as [|d1 [|d2 [|d3 [|u rest']]]]; try done. simpl.
  destruct (ascii_isdecimal d1) eqn:E1; [|done].
  destruct (ascii_isdecimal d2) eqn:E2; [|done].
  destruct (ascii_isdecimal d3) eqn:E3; [|done]. simpl.
  destruct (N.eqb_spec u underscore) as [->|_]; [|done]. intros [= <-].
  by exists d1, d2, d3, rest'.
Qed.

Lemma three_digits_here d1 d2 d3 rest :
  ascii_isdecimal d1 = true -> ascii_isdecimal d2 = true ->
  ascii_isdecimal d3 = true ->
  three_digits (d1 :: d2 :: d3 :: underscore :: rest) = Some [d1; d2; d3].
Proof. intros H1 H2 H3. simpl. by rewrite H1, H2, H3. Qed.

(** Four digits in a row: the underscore is not there yet. *)
Lemma three_digits_digits d1 d2 d3 d4 rest :
  ascii_isdecimal d4 = true -> three_digits (d1 :: d2 :: d3 :: d4 :: rest) = None.
Proof.
  intros H4. simpl. destruct (digit_value ucd_excerpt d4 H4) as (_ & _ & Hu & _).
  destruct (N.eqb_spec d4 underscore); [done|]. by rewrite andb_false_r.
Qed.

(** The lazy dot stops before the last three digits of a run of digits that
    an underscore follows. *)
Lemma match_iteration_digits pre d1 d2 d3 rest :
  Forall (fun c => ascii_isdecimal c = true) pre ->
  ascii_isdecimal d1 = true -> ascii_isdecimal d2 = true ->
  ascii_isdecimal d3 = true ->
  match_iteration (pre ++ d1 :: d2 :: d3 :: underscore :: rest) = Some [d1; d2; d3].
Proof.
  intros Hpre H1 H2 H3. unfold match_iteration.
  induction Hpre as [|c pre Hc Hpre IH].
  - cbn [app rep_lazy]. by rewrite three_digits_here.
  - cbn [app rep_lazy].
    assert (three_digits (c :: pre ++ d1 :: d2 :: d3 :: underscore :: rest) = None)
      as ->.
    { destruct Hpre as [|c1 pre Hc1 Hpre]; [by apply three_digits_digits|].
      destruct Hpre as [|c2 pre Hc2 Hpre]; [by apply three_digits_digits|].
      destruct Hpre as [|c3 pre Hc3 Hpre]; by apply three_digits_digits. }
    destruct (digit_value ucd_excerpt c Hc) as (_ & _ & _ & Hnl & _).
    destruct (N.eqb_spec c nl); [done|]. simpl. exact IH.
Qed.

Lemma last_three (l : str) :
  3 <= length l -> exists pre a b c, l = pre ++ [a; b; c].
Proof.
  intros H. destruct l as [|c l _] using rev_ind; [simpl in H; lia|].
  destruct l as [|b l _] using rev_ind; [simpl in H; lia|].
  destruct l as [|a l _] using rev_ind.
  { rewrite !length_app in H. simpl in H. lia. }
  exists l, a, b, c. by rewrite <- !app_assoc.
Qed.

Lemma int_of_three U d1 d2 d3 :
  ascii_isdecimal d1 = true -> ascii_isdecimal d2 = true ->
  ascii_isdecimal d3 = true ->
  (0 <= int_of U [d1; d2; d3] <= 999)%Z.
Proof.
  intros H1 H2 H3. unfold int_of. simpl.
  destruct (digit_value U d1 H1) as (_ & ? & _).
  destruct (digit_value U d2 H2) as (_ & ? & _).
  destruct (digit_value U d3 H3) as (_ & ? & _). lia.
Qed.

(** X2.  [infer_iter] gives -1 or a number from 0 to 999.  On the path the
    loop gives the source of its pass [n], for a name without a slash, it
    gives [n] modulo 1000: the counter itself up to 999, its last three
    digits from then on. *)
Theorem infer_iter_cc_path (U : unicode_db) (n : nat) (base : str) :
  slash ∉ base ->
  infer_iter U (cc_path n base) = Z.of_nat (n mod 1000) /\
  (n < 1000 -> infer_iter U (cc_path n base) = Z.of_nat n) /\
  (forall cpp_path,
     infer_iter U cpp_path = (-1)%Z \/ (0 <= infer_iter U cpp_path <= 999)%Z).
Proof.
  intros Hbase.
  assert (infer_iter U (cc_path n base) = Z.of_nat (n mod 1000)) as Hmod.
  { unfold infer_iter, cc_path.
    destruct (last_three (fmt03 n) (fmt03_length n)) as (pre & a & b & c & Hf).
    pose proof (fmt03_digits n) as Hd. rewrite Hf in Hd.
    apply Forall_app in Hd as [Hpre Habc].
    apply Forall_cons in Habc as [Ha Habc].
    apply Forall_cons in Habc as [Hb Habc].
    apply Forall_cons in Habc as [Hc _].
    replace (EXAMPLE_DIR ++ py "/" ++ fmt03 n ++ [underscore] ++ base ++ py ".cc")
      with (EXAMPLE_DIR ++ slash :: (fmt03 n ++ [underscore] ++ base ++ py ".cc"))
      by done.
    rewrite path_name_last.
    - rewrite Hf. rewrite <- app_assoc. cbn [app].
      rewrite match_iteration_digits by done.
      pose proof (int_of_fmt03 U n) as Hv. rewrite Hf, int_of_app in Hv.
      pose proof (int_of_three U a b c Ha Hb Hc) as Hr.
      unfold int_of in Hr. simpl in Hr, Hv.
      rewrite Nat2Z.inj_mod, <- Hv. unfold int_of. simpl.
      change (Z.of_nat 1000) with 1000%Z.
      apply Z.mod_unique with (q := int_of U pre); [lia|].
      unfold int_of. lia.
    - rewrite !not_elem_of_app. split; [|split; [|split]]; try done.
      + intros Hin. rewrite Forall_forall in Hpre.
        pose proof (fmt03_digits n) as Hd'. rewrite Forall_forall in Hd'.
        by destruct (digit_value U _ (Hd' _ Hin)) as (_ & _ & _ & _ & ?).
      + by intros ?%list_elem_of_singleton.
      + intros Hin. apply list_elem_of_In in Hin. simpl in Hin.
        by repeat destruct Hin as [Hin|Hin].
    - rewrite Hf. by destruct pre.
    - rewrite Hf. destruct pre as [|? [|? ?]]; done. }
  split; [done|]. split.
  - intros Hlt. by rewrite Hmod, Nat.mod_small.
  - intros cpp_path. unfold infer_iter, match_iteration.
    destruct (rep_lazy _ _ (path_name cpp_path)) as [g|] eqn:E; [|by left].
    right. apply rep_lazy_sound in E as (w & rest & _ & _ & Hg).
    apply three_digits_Some in Hg as (d1 & d2 & d3 & rest' & _ & -> & H1 & H2 & H3).
    by apply int_of_three.
Qed.

Lemma infer_iter_cc_path_witness :
  infer_iter ucd_excerpt (cc_path 1234 (sanitize ucd_excerpt (py "Hawkeye LRU v2"))) =
    Z.of_nat (1234 mod 1000) /\
  (1234 < 1000 ->
   infer_iter ucd_excerpt (cc_path 1234 (sanitize ucd_excerpt (py "Hawkeye LRU v2"))) =
     Z.of_nat 1234) /\
  (forall cpp_path,
     infer_iter ucd_excerpt cpp_path = (-1)%Z \/
     (0 <= infer_iter ucd_excerpt cpp_path <= 999)%Z).
Proof.
  apply (infer_iter_cc_path ucd_excerpt 1234
           (sanitize ucd_excerpt (py "Hawkeye LRU v2"))).
  apply (bool_decide_unpack _). vm_compute. reflexivity.
Defined.

(** ** A pass that fails during the evaluation *)

Section PassFacts.
Variable U : unicode_db.

Lemma run_workloads_measure a exe name desc cc ws acc d :
  run_workloads U a exe name desc cc ws acc d =
  match ws with
  | [] => (Ok acc, d)
  | w :: ws' =>
      match measure U a exe w with
      | Raise e => (Raise e, d)
      | Ok tmp =>
          run_workloads U a exe name desc cc ws' (acc + tmp)%float
            (record (w_name w) name desc cc tmp [] d)
      end
  end.
Proof.
  destruct ws as [|w ws']; [done|]. simpl. unfold measure.
  by destruct (run_policy a exe (trace_path w)).
Qed.

Lemma run_workloads_Raise a exe name desc cc ws acc d e d' :
  run_workloads U a exe name desc cc ws acc d = (Raise e, d') <->
  exists ws1 w ws2 ts,
    ws = ws1 ++ w :: ws2 /\
    Forall2 (fun w t => measure U a exe w = Ok t) ws1 ts /\
    measure U a exe w = Raise e /\
    d' = d ++ workload_rows name desc cc ws1 ts.
Proof.
  revert acc d. induction ws as [|w ws IH]; intros acc d;
    rewrite run_workloads_measure.
  - split; [done|]. intros (ws1 & w & ws2 & ts & E & _). by destruct ws1.
  - destruct (measure U a exe w) as [tmp|e0] eqn:Em.
    + rewrite IH. split.
      * intros (ws1 & w' & ws2 & ts & -> & Hts & Hw' & ->).
        exists (w :: ws1), w', ws2, (tmp :: ts).
        split; [done|]. split; [by constructor|]. split; [done|].
        by rewrite record_app, <- app_assoc.
      * intros (ws1 & w' & ws2 & ts & E & Hts & Hw' & ->).
        destruct Hts as [|w1 t1 ws1 ts Ht1 Hts].
        { injection E as <- _. congruence. }
        injection E as <- ->. rewrite Em in Ht1. injection Ht1 as <-.
        exists ws1, w', ws2, ts. split; [done|]. split; [done|]. split; [done|].
        by rewrite record_app, <- app_assoc.
    + split.
      * intros [= <- <-]. exists [], w, ws, []. split; [done|].
        split; [constructor|]. split; [done|]. by rewrite app_nil_r.
      * intros (ws1 & w' & ws2 & ts & E & Hts & Hw' & ->).
        destruct Hts as [|w1 t1 ws1 ts Ht1 Hts].
        -- injection E as <- _. rewrite Em in Hw'. injection Hw' as <-.
           by rewrite app_nil_r.
        -- injection E as <- _. congruence.
Qed.

(** The body of the loop once the reply is parsed and the build succeeded. *)
Lemma step_compiled ses st a name desc code :
  parse_reply U (oracle a (compose ses st).1) = Ok (name, desc, code) ->
  compiles a (cc_path (i st) (sanitize U name)) = true ->
  forall e d',
    run_workloads U a (with_suffix_out (cc_path (i st) (sanitize U name)))
      name desc (cc_path (i st) (sanitize U name)) workloads 0%float (db st) =
      (Raise e, d') ->
    step U ses st a =
    Abort e (with_best st (compose ses st).2 d'
               (<[cc_path (i st) (sanitize U name) := code]> (files st))).
Proof.
  intros Hp Hc e d' Hr. unfold step. destruct (compose ses st) as [prompt best].
  change ((prompt, best).1) with prompt in *.
  change ((prompt, best).2) with best in *.
  cbv beta iota zeta. rewrite Hp. cbv beta iota zeta.
  unfold compile_policy. rewrite Hc. cbv beta iota zeta. by rewrite Hr.
Qed.

End PassFacts.

(** X3.  When the simulation of a workload fails, or its report has no
    "LLC TOTAL" line, the pass ends with that exception: the rows of the
    workloads measured before it are in the table, no row under ["all"] is
    added for the candidate, and the counter, [current_hit] and the previous
    candidate are as before; the source file of the candidate is in the
    directory. *)
Theorem evaluation_failure_keeps_partial_rows (U : unicode_db) (ses : Session)
    (st : State) (a : Attempt) (name desc code : str)
    (ws1 ws2 : list Workload) (w : Workload) (ts : list float) (e : exn) :
  parse_reply U (oracle a (compose ses st).1) = Ok (name, desc, code) ->
  compiles a (cc_path (i st) (sanitize U name)) = true ->
  workloads = ws1 ++ w :: ws2 ->
  Forall2 (fun w t =>
             measure U a (with_suffix_out (cc_path (i st) (sanitize U name))) w = Ok t)
    ws1 ts ->
  measure U a (with_suffix_out (cc_path (i st) (sanitize U name))) w = Raise e ->
  exists st',
    step U ses st a = Abort e st' /\
    db st' = db st ++ workload_rows name desc (cc_path (i st) (sanitize U name)) ws1 ts /\
    length (db st') = length (db st) + length ws1 /\
    filter (fun t => is_all t = true) (db st') =
      filter (fun t => is_all t = true) (db st) /\
    i st' = i st /\ current_hit st' = current_hit st /\
    previous st' = previous st /\
    files st' !! cc_path (i st) (sanitize U name) = Some code.
Proof.
  intros Hp Hc Hws Hts Hw.
  eexists. split.
  { apply (step_compiled U ses st a name desc code Hp Hc e).
    apply run_workloads_Raise. exists ws1, w, ws2, ts. by rewrite <- Hws. }
  simpl. split; [done|]. split; [|split].
  - rewrite length_app. f_equal. unfold workload_rows.
    rewrite length_zip_with. apply Forall2_length in Hts. lia.
  - rewrite filter_app, workload_rows_not_all; [by rewrite app_nil_r|].
    pose proof workloads_not_all as Hna. rewrite Hws in Hna.
    by apply Forall_app in Hna as [Hna _].
  - repeat split. apply lookup_insert_eq.
Qed.

Lemma evaluation_failure_keeps_partial_rows_witness :
  exists st',
    step ucd_excerpt (sample_session 0.5) sample_second failing_attempt =
      Abort CalledProcessError st' /\
    db st' =
      db sample_second ++
      workload_rows (py "Hawkeye LRU v2") (py "Mixes two ideas.")
        (cc_path (i sample_second) (sanitize ucd_excerpt (py "Hawkeye LRU v2")))
        (take 2 workloads) [0.4; 0.4]%float /\
    length (db st') = length (db sample_second) + length (take 2 workloads) /\
    filter (fun t => is_all t = true) (db st') =
      filter (fun t => is_all t = true) (db sample_second) /\
    i st' = i sample_second /\ current_hit st' = current_hit sample_second /\
    previous st' = previous sample_second /\
    files st' !! cc_path (i sample_second)
                   (sanitize ucd_excerpt (py "Hawkeye LRU v2")) =
      Some (py "int main() {}").
Proof.
  apply (evaluation_failure_keeps_partial_rows ucd_excerpt (sample_session 0.5)
           sample_second failing_attempt
           (py "Hawkeye LRU v2") (py "Mixes two ideas.") (py "int main() {}")
           (take 2 workloads) (drop 3 workloads)
           {| w_name := py "mcf";
              trace_path := py "ChampSim_CRC2/traces/mcf_250B.trace.gz" |}
           [0.4; 0.4]%float CalledProcessError).
  - apply parse_reply_sample.
  - reflexivity.
  - reflexivity.
  - repeat constructor; vm_compute; reflexivity.
  - vm_compute. reflexivity.
Defined.

(** ** A pass that evaluates its candidate *)

Lemma measure_Ok U a exe w t :
  measure U a exe w = Ok t <->
  exists out, simulate a exe (trace_path w) = Ok out /\ parse_hit_rate U out = Ok t.
Proof.
  unfold measure, run_policy.
  destruct (simulate a exe (trace_path w)) as [out|e]; split.
  - intros H. by exists out.
  - by intros (o & [= <-] & H).
  - done.
  - by intros (o & H & _).
Qed.

(** The pass whose reply parses, whose build succeeds and whose simulations
    give the rates [ts]: what it leaves, however it ends. *)
Lemma step_measured U ses st a name desc code ts :
  parse_reply U (oracle a (compose ses st).1) = Ok (name, desc, code) ->
  compiles a (cc_path (i st) (sanitize U name)) = true ->
  Forall2 (fun w t =>
             measure U a (with_suffix_out (cc_path (i st) (sanitize U name))) w =
             Ok t) workloads ts ->
  step U ses st a =
    (if ((compose ses st).2 =? 0)%float then Abort ZeroDivisionError
     else if (1.3 <? mean ts / (compose ses st).2)%float then Break else Next)
      (final (step U ses st a)) /\
  i (final (step U ses st a)) = S (i st) /\
  best_hit (final (step U ses st a)) = (compose ses st).2 /\
  current_hit (final (step U ses st a)) = mean ts /\
  db (final (step U ses st a)) =
    db st ++
    workload_rows name desc (cc_path (i st) (sanitize U name)) workloads ts ++
    [all_row name desc (cc_path (i st) (sanitize U name)) (mean ts)].
Proof.
  intros Hp Hc Hts.
  assert (Forall2 (fun w t => exists out,
             simulate a (with_suffix_out (cc_path (i st) (sanitize U name)))
               (trace_path w) = Ok out /\
             parse_hit_rate U out = Ok t) workloads ts) as Hts'.
  { eapply Forall2_impl; [exact Hts|]. intros w t H. by apply measure_Ok. }
  pose proof (step_evaluated U ses st a name desc code ts Hp Hc Hts') as H.
  cbv zeta in H. unfold float_div in H.
  destruct ((compose ses st).2 =? 0)%float;
    [|destruct (1.3 <? mean ts / (compose ses st).2)%float];
    by rewrite H.
Qed.

(** C2 (as amended).  The comparison that updates [best_hit] is made at the
    top of a pass, with the score of the pass before: there [best_hit]
    becomes [current_hit] exactly when [current_hit > best_hit], whatever the
    size of the gain, and this value, [decided st], stays for the rest of
    the pass, whatever the pass does; the score the pass itself evaluates is
    not compared in it.  A pass that evaluates its candidate with the rates
    [ts] ends the loop exactly when their mean divided by [decided st]
    exceeds 1.3, goes on otherwise, and ends the run with
    [ZeroDivisionError] when [decided st] is zero; no pass ends the loop in
    another way.  Nothing bounds the number of passes: the loop is still
    running after any number of candidates that score 0.4 against a best
    of 0.5. *)
Theorem decide_and_terminate (U : unicode_db) (ses : Session)
    (db0 : list Trial) (files0 : gmap str str) (st : State) (a : Attempt)
    (name desc code : str) (ts : list float) :
  reachable U ses db0 files0 st ->
  parse_reply U (oracle a (compose ses st).1) = Ok (name, desc, code) ->
  compiles a (cc_path (i st) (sanitize U name)) = true ->
  Forall2 (fun w t =>
             measure U a (with_suffix_out (cc_path (i st) (sanitize U name))) w =
             Ok t) workloads ts ->
  decided st =
    (if (best_hit st <? current_hit st)%float then current_hit st
     else best_hit st) /\
  (forall b, best_hit (final (step U ses st b)) = decided st) /\
  current_hit (final (step U ses st a)) = mean ts /\
  i (final (step U ses st a)) = S (i st) /\
  step U ses st a =
    (if (decided st =? 0)%float then Abort ZeroDivisionError
     else if (1.3 <? mean ts / decided st)%float then Break else Next)
      (final (step U ses st a)) /\
  (forall b st', step U ses st b = Break st' ->
     i st' = S (i st) /\ best_hit st' = decided st /\
     (decided st =? 0)%float = false /\
     (1.3 <? current_hit st' / decided st)%float = true) /\
  (forall n, exists st',
     main U (sample_session 0.5) db0 files0
       (replicate n (sample_attempt true "100" "40")) = Ok (Next st') /\
     i st' = n).
Proof.
  intros Hr Hp Hc Hts.
  pose proof (reachable_decided U _ _ _ _ Hr) as Hd.
  destruct (step_measured U ses st a name desc code ts Hp Hc Hts)
    as (Hs & Hi & Hb & Hcur & _).
  rewrite Hd in Hs.
  split; [done|]. split; [intros b; by rewrite step_best|].
  split; [done|]. split; [done|]. split; [done|]. split.
  - intros b st' E.
    assert (exists st', step U ses st b = Break st') as Hbr by (by exists st').
    apply step_break_iff in Hbr as (Hib & ratio & Hdiv & Hlt).
    rewrite E in Hib, Hdiv. cbn [final] in Hib, Hdiv.
    pose proof (step_best U ses st b) as Hbb. rewrite E in Hbb.
    cbn [final] in Hbb. rewrite Hd in Hdiv, Hbb.
    unfold float_div in Hdiv.
    destruct (decided st =? 0)%float; [done|]. injection Hdiv as <-.
    done.
  - intros n. unfold main. simpl.
    destruct (sample_loop U n
      {| i := 0; best_hit := 0.5; current_hit := 0.5; prev_name := None;
         prev_desc := None; prev_code := None; db := db0; files := files0 |})
      as (st' & -> & Hi'); [done | by vm_compute |].
    by exists st'.
Qed.

Lemma decide_and_terminate_witness :
  best_hit sample_second = 0.5%float /\
  current_hit sample_second = 0.6%float /\
  decided sample_second = 0.6%float /\
  exists st',
    step ucd_excerpt (sample_session 0.5) sample_second
      (sample_attempt true "100" "90") = Break st' /\
    best_hit st' = 0.6%float /\ current_hit st' = 0.9%float /\ i st' = 2.
Proof.
  assert (Forall2
            (fun w t =>
               measure ucd_excerpt (sample_attempt true "100" "90")
                 (with_suffix_out
                    (cc_path (i sample_second)
                       (sanitize ucd_excerpt (py "Hawkeye LRU v2")))) w = Ok t)
            workloads (replicate 5 0.9%float)) as Hts
    by (repeat constructor; vm_compute; reflexivity).
  assert (parse_reply ucd_excerpt
            (oracle (sample_attempt true "100" "90")
               (compose (sample_session 0.5) sample_second).1) =
          Ok (py "Hawkeye LRU v2", py "Mixes two ideas.", py "int main() {}"))
    as Hp by (vm_compute; reflexivity).
  assert (compiles (sample_attempt true "100" "90")
            (cc_path (i sample_second)
               (sanitize ucd_excerpt (py "Hawkeye LRU v2"))) = true)
    as Hc by reflexivity.
  destruct (decide_and_terminate ucd_excerpt (sample_session 0.5) [] ∅
              sample_second (sample_attempt true "100" "90")
              (py "Hawkeye LRU v2") (py "Mixes two ideas.") (py "int main() {}")
              (replicate 5 0.9%float)
              sample_second_reachable Hp Hc Hts)
    as (Hd & Hb & Hcur & Hi & Hs & _).
  split; [vm_compute; reflexivity|]. split; [vm_compute; reflexivity|].
  split; [vm_compute; reflexivity|].
  exists (final (step ucd_excerpt (sample_session 0.5) sample_second
                   (sample_attempt true "100" "90"))).
  split; [etrans; [exact Hs|]; vm_compute; reflexivity|].
  rewrite Hb, Hcur, Hi. vm_compute. repeat split; reflexivity.
Defined.

(** C2 fails as stated: the pass that evaluates a candidate does not compare
    its score with [best_hit].  A candidate that scores 0.66 against a best
    of 0.50 ends the loop with [best_hit] still 0.50; one that scores 0.60
    leaves [best_hit] at 0.50 at the end of its pass. *)
Lemma decide_deferred_counterexample :
  match step ucd_excerpt (sample_session 0.5) (sample_init 0.5)
          (sample_attempt true "100" "66") with
  | Break st' =>
      current_hit st' = 0.66%float /\ best_hit st' = 0.5%float /\
      (best_hit st' <? current_hit st')%float = true
  | _ => False
  end /\
  match step ucd_excerpt (sample_session 0.5) (sample_init 0.5)
          (sample_attempt true "100" "60") with
  | Next st' =>
      current_hit st' = 0.6%float /\ best_hit st' = 0.5%float /\
      (best_hit st' <? current_hit st')%float = true
  | _ => False
  end.
Proof. vm_compute. repeat split. Qed.

(** C3.  A pass whose reply parses, whose build succeeds and whose
    simulations give the rates [ts] adds one row per workload, with these
    rates, and then one row under ["all"], all for that candidate; the score
    of the ["all"] row is the arithmetic mean of the rates of those rows,
    their sum from left to right divided by their number, and it is the
    [current_hit] the loop goes on with.  The counter advances in no other
    pass.  In the table the seeding script builds, the score of every
    ["all"] row is the arithmetic mean of the rates recorded for its policy
    under the workloads, the [sum] of the interpreter divided by their
    number; the script succeeds on its own tables, with the plain sum and
    with the compensated one, which differ in the last digit of one
    score. *)
Theorem aggregate_is_mean (U : unicode_db) (ses : Session) (st : State)
    (a : Attempt) (name desc code : str) (ts : list float) :
  parse_reply U (oracle a (compose ses st).1) = Ok (name, desc, code) ->
  compiles a (cc_path (i st) (sanitize U name)) = true ->
  Forall2 (fun w t =>
             measure U a (with_suffix_out (cc_path (i st) (sanitize U name))) w =
             Ok t) workloads ts ->
  (exists rows r,
     db (final (step U ses st a)) = db st ++ rows ++ [r] /\
     workload <$> rows = w_name <$> workloads /\
     cache_hit_rate <$> rows = ts /\
     Forall (fun t => policy t = name /\ workload t <> all) rows /\
     workload r = all /\ policy r = name /\
     score r = mean (cache_hit_rate <$> rows) /\
     mean (cache_hit_rate <$> rows) =
       (fold_left PrimFloat.add ts 0 / float_of_nat (length workloads))%float /\
     current_hit (final (step U ses st a)) = score r /\
     i (final (step U ses st a)) = S (i st)) /\
  (forall b,
     i (final (step U ses st b)) = S (i st) ->
     exists rows r,
       db (final (step U ses st b)) = db st ++ rows ++ [r] /\
       workload r = all /\
       workload <$> rows = w_name <$> workloads /\
       Forall (fun t => policy t = policy r /\ workload t <> all) rows /\
       score r = mean (cache_hit_rate <$> rows) /\
       current_hit (final (step U ses st b)) = score r) /\
  (forall sum workloads policies perf_data table,
     NoDup policies.*1 -> all ∉ workloads.*1 ->
     DB_Connection.seed sum workloads policies perf_data = Ok table ->
     forall r, r ∈ table -> workload r = all ->
       recorded_rates table (policy r) <> [] /\
       score r =
         (sum (recorded_rates table (policy r)) /
          float_of_nat (length (recorded_rates table (policy r))))%float) /\
  (NoDup DB_Connection.policies.*1 /\ (all ∉ DB_Connection.workloads.*1) /\
   (exists table,
      DB_Connection.seed py_sum DB_Connection.workloads
        DB_Connection.policies DB_Connection.perf_data = Ok table /\
      length table = 36 /\
      score <$> filter (fun t => is_all t = true) table =
        [0.41687338947664559; 0.37579227983384317; 0.43328268976887818;
         0.11453256801665043; 0.34660260743866517; 0.37559793796024865]%float) /\
   (exists table,
      DB_Connection.seed neumaier_sum DB_Connection.workloads
        DB_Connection.policies DB_Connection.perf_data = Ok table /\
      length table = 36 /\
      score <$> filter (fun t => is_all t = true) table =
        [0.41687338947664559; 0.37579227983384317; 0.43328268976887818;
         0.11453256801665043; 0.34660260743866522; 0.37559793796024865]%float)).
Proof.
  intros Hp Hc Hts. split; [|split; [|split]].
  - destruct (step_measured U ses st a name desc code ts Hp Hc Hts)
      as (_ & Hi & _ & Hcur & Hdb).
    pose proof (Forall2_length _ _ _ Hts) as Hlen. symmetry in Hlen.
    destruct (workload_rows_spec name desc
                (cc_path (i st) (sanitize U name)) workloads ts Hlen)
      as (Hrates & Hnames & Hrows).
    exists (workload_rows name desc (cc_path (i st) (sanitize U name)) workloads ts),
      (all_row name desc (cc_path (i st) (sanitize U name)) (mean ts)).
    rewrite Hrates. repeat split; try done.
    + apply Forall_and. split.
      * eapply Forall_impl; [exact Hrows|]. by intros t [? _].
      * apply workload_rows_named, workloads_not_all.
    + unfold mean, py_sum. by rewrite Hlen.
  - intros b Hi.
    destruct (step_advanced U ses st b Hi) as
      (name' & desc' & code' & ts' & _ & Hlen & Hcur & Hdb).
    destruct (workload_rows_spec name' desc'
                (cc_path (i st) (sanitize U name')) workloads ts' Hlen)
      as (Hrates & Hnames & Hrows).
    exists (workload_rows name' desc' (cc_path (i st) (sanitize U name')) workloads ts'),
      (all_row name' desc' (cc_path (i st) (sanitize U name')) (mean ts')).
    split; [exact Hdb|].
    split; [done|]. split; [done|].
    split; [|rewrite Hrates; by split].
    change (policy (all_row name' desc' (cc_path (i st) (sanitize U name')) (mean ts')))
      with name'.
    apply Forall_and. split.
    + eapply Forall_impl; [exact Hrows|]. by intros t [? _].
    + apply workload_rows_named, workloads_not_all.
  - intros sum workloads policies perf_data table Hnd Hall Hseed r Hr _.
    destruct (seed_denormalized sum policies perf_data Hnd workloads table
                Hall Hseed r Hr) as [Hne ->].
    split; [done|]. by apply average_nonempty.
  - destruct seed_tables_ok as [Hnd Hall]. split; [done|]. split; [done|].
    split; (eexists; split; [by vm_compute|]; by vm_compute).
Qed.

Lemma aggregate_is_mean_witness :
  exists rows r,
    db (final (step ucd_excerpt (sample_session 0.5) (sample_init 0.5)
                 uneven_attempt)) = rows ++ [r] /\
    workload <$> rows =
      [py "astar"; py "lbm"; py "mcf"; py "milc"; py "omnetpp"] /\
    cache_hit_rate <$> rows = [0.4; 0.6; 0.6; 0.6; 0.6]%float /\
    workload r = all /\ score r = 0.56%float /\
    current_hit (final (step ucd_excerpt (sample_session 0.5) (sample_init 0.5)
                          uneven_attempt)) = 0.56%float.
Proof.
  assert (Forall2
            (fun w t =>
               measure ucd_excerpt uneven_attempt
                 (with_suffix_out
                    (cc_path (i (sample_init 0.5))
                       (sanitize ucd_excerpt (py "Hawkeye LRU v2")))) w = Ok t)
            workloads [0.4; 0.6; 0.6; 0.6; 0.6]%float) as Hts
    by (repeat constructor; vm_compute; reflexivity).
  destruct (aggregate_is_mean ucd_excerpt (sample_session 0.5) (sample_init 0.5)
              uneven_attempt
              (py "Hawkeye LRU v2") (py "Mixes two ideas.") (py "int main() {}")
              [0.4; 0.6; 0.6; 0.6; 0.6]%float eq_refl eq_refl Hts)
    as [(rows & r & Hdb & Hw & Hrates & _ & Hall & _ & Hsc & Hm & Hcur & _) _].
  exists rows, r. split; [exact Hdb|]. split; [exact Hw|].
  split; [exact Hrates|]. split; [exact Hall|].
  assert (score r = 0.56%float) as Hr.
  { rewrite Hsc, Hm. by vm_compute. }
  split; [exact Hr|]. by rewrite Hcur.
Defined.

(** ** What a pass does to the table and to the directory *)

Section EffectFacts.
Variable U : unicode_db.

Lemma workload_rows_candidate name desc cc ws ts :
  Forall (fun r => policy r = name /\ cpp_file_path r = cc)
    (workload_rows name desc cc ws ts).
Proof.
  unfold workload_rows. revert ts.
  induction ws as [|w ws IH]; intros [|t ts]; try by constructor.
Qed.

(** The rows and the file a pass adds, however it ends: nothing; or the
    source file alone; or the source file and rows that all name it, one per
    workload measured, and the aggregate row when all five were. *)
Lemma step_effects ses st a :
  (db (final (step U ses st a)) = db st /\
   files (final (step U ses st a)) = files st) \/
  exists name desc code rows,
    parse_reply U (oracle a (compose ses st).1) = Ok (name, desc, code) /\
    db (final (step U ses st a)) = db st ++ rows /\
    files (final (step U ses st a)) =
      <[cc_path (i st) (sanitize U name) := code]> (files st) /\
    length rows <= S (length workloads) /\
    Forall (fun r => policy r = name /\
                     cpp_file_path r = cc_path (i st) (sanitize U name)) rows.
Proof.
  destruct (parse_reply U (oracle a (compose ses st).1))
    as [[[name desc] code]|e0] eqn:Hp.
  2: { left.
       destruct (step_cases U ses st a) as
         [(e & _ & ->) | (n & d & c & Hp' & _)]; [done | congruence]. }
  right. exists name, desc, code.
  destruct (compiles a (cc_path (i st) (sanitize U name))) eqn:Hc.
  2: { exists []. rewrite (step_build_failed U ses st a name desc code Hp Hc).
       simpl. rewrite app_nil_r. repeat split; [lia | constructor]. }
  destruct (run_workloads U a (with_suffix_out (cc_path (i st) (sanitize U name)))
              name desc (cc_path (i st) (sanitize U name)) workloads 0%float (db st))
    as [[sum|e] d'] eqn:Hr.
  - apply run_workloads_Ok in Hr as (ts & Hts & _ & _).
    pose proof (step_evaluated U ses st a name desc code ts Hp Hc Hts) as Hs.
    cbv zeta in Hs.
    exists (workload_rows name desc (cc_path (i st) (sanitize U name)) workloads ts ++
            [all_row name desc (cc_path (i st) (sanitize U name)) (mean ts)]).
    split; [done|].
    assert (length (workload_rows name desc (cc_path (i st) (sanitize U name))
                      workloads ts) <= length workloads) as Hlen.
    { unfold workload_rows. rewrite length_zip_with. lia. }
    assert (Forall (fun r => policy r = name /\
                             cpp_file_path r = cc_path (i st) (sanitize U name))
              (workload_rows name desc (cc_path (i st) (sanitize U name))
                 workloads ts ++
               [all_row name desc (cc_path (i st) (sanitize U name)) (mean ts)]))
      as Hrows.
    { apply Forall_app. split; [apply workload_rows_candidate | by constructor]. }
    assert (length (workload_rows name desc (cc_path (i st) (sanitize U name))
                      workloads ts ++
                    [all_row name desc (cc_path (i st) (sanitize U name)) (mean ts)])
            <= S (length workloads)) as Hlen'.
    { rewrite length_app. cbn [length]. lia. }
    rewrite Hs. destruct (float_div (mean ts) _) as [ratio|e'].
    + destruct (1.3 <? ratio)%float; cbn [final db files]; by repeat split.
    + cbn [final db files]. by repeat split.
  - pose proof (step_compiled U ses st a name desc code Hp Hc e d' Hr) as Hs.
    apply run_workloads_Raise in Hr as (ws1 & w & ws2 & ts & Hws & Hts & _ & ->).
    exists (workload_rows name desc (cc_path (i st) (sanitize U name)) ws1 ts).
    assert (length ws1 <= length workloads) as Hle
      by (rewrite Hws, length_app; lia).
    rewrite Hs. cbn [final db files with_best].
    split; [done|]. split; [done|]. split; [done|]. split.
    + unfold workload_rows. rewrite length_zip_with. lia.
    + apply workload_rows_candidate.
Qed.

End EffectFacts.

(** X4.  A pass never removes or changes a row and never removes a file,
    however it ends: the table after it is the table before it followed by at
    most six rows, each of which points to a file that is in the directory
    then. *)
Theorem pass_only_appends (U : unicode_db) (ses : Session) (st : State)
    (a : Attempt) :
  exists rows,
    db (final (step U ses st a)) = db st ++ rows /\
    length rows <= 6 /\
    Forall (fun r => is_Some (files (final (step U ses st a)) !! cpp_file_path r))
      rows /\
    (forall path, is_Some (files st !! path) ->
       is_Some (files (final (step U ses st a)) !! path)).
Proof.
  destruct (step_effects U ses st a) as
    [[Hdb Hfiles] | (name & desc & code & rows & _ & Hdb & Hfiles & Hlen & Hrows)].
  - exists []. rewrite Hdb, Hfiles, app_nil_r.
    repeat split; [simpl; lia | constructor | done].
  - exists rows. rewrite Hdb, Hfiles. split; [done|]. split; [exact Hlen|]. split.
    + eapply Forall_impl; [exact Hrows|]. intros r [_ ->].
      by rewrite lookup_insert_eq.
    + intros path Hpath. rewrite lookup_insert_is_Some.
      destruct (decide (cc_path (i st) (sanitize U name) = path)); [by left|].
      by right.
Qed.

(** ** The table and the directory at the top of the loop *)

Lemma main_init_fields ses db0 files0 st0 :
  main_init ses db0 files0 = Ok st0 ->
  i st0 = 0 /\ db st0 = db0 /\ files st0 = files0 /\
  current_hit st0 = best_hit st0 /\ previous st0 = (None, None, None).
Proof.
  unfold main_init. destruct (top_policies ses); [done|]. by intros [= <-].
Qed.

Lemma workload_rows_length name desc cc ws ts :
  length ws = length ts -> length (workload_rows name desc cc ws ts) = length ws.
Proof. intros H. unfold workload_rows. rewrite length_zip_with. lia. Qed.

Lemma reachable_rows U ses db0 files0 st :
  reachable U ses db0 files0 st ->
  length (db st) = length db0 + S (length workloads) * i st.
Proof.
  induction 1 as [st Hst | st a st' _ IH Hstep].
  - destruct (main_init_fields _ _ _ _ Hst) as (-> & -> & _). lia.
  - destruct (step_cases U ses st a) as
      [(e & _ & E) | (name & desc & code & _ &
         [(_ & E) | [(_ & e & d' & E) | (_ & ts & Hts & H)]])];
      rewrite Hstep in *; try done.
    + assert (db st' = db st /\ i st' = i st) as [-> ->]
        by (by injection E as ->).
      exact IH.
    + cbv zeta in H. destruct (float_div (mean ts) _) as [ratio|e]; [|done].
      destruct (1.3 <? ratio)%float; [done|].
      assert (db st' = db st ++
                workload_rows name desc (cc_path (i st) (sanitize U name))
                  workloads ts ++
                [all_row name desc (cc_path (i st) (sanitize U name)) (mean ts)] /\
              i st' = S (i st)) as [-> ->] by (by injection H as ->).
      rewrite !length_app, IH, workload_rows_length by by eapply Forall2_length.
      cbn [length]. lia.
Qed.

(** X5.  At the top of the loop the counter is the number of candidates
    evaluated so far: the table holds six more rows for each of them (five
    workloads and the aggregate) and none for the builds that failed, the
    counter is the number of rows added under ["all"], and [current_hit] is
    the score of the newest of them, or the seed when there is none. *)
Theorem counter_counts_evaluations (U : unicode_db) (ses : Session)
    (db0 : list Trial) (files0 : gmap str str) (st0 st : State) :
  main_init ses db0 files0 = Ok st0 ->
  reachable U ses db0 files0 st ->
  length (db st) = length db0 + 6 * i st /\
  length (evaluated_scores db0 st) = i st /\
  current_hit st = default (best_hit st0) (last (evaluated_scores db0 st)).
Proof.
  intros Hinit Hr. split; [exact (reachable_rows U _ _ _ _ Hr)|].
  by destruct (reachable_invariant U _ _ _ _ _ Hinit Hr) as (_ & ? & ? & _).
Qed.

Lemma counter_counts_evaluations_witness :
  length (db sample_second) = length ([] : list Trial) + 6 * i sample_second /\
  length (evaluated_scores [] sample_second) = i sample_second /\
  current_hit sample_second =
    default (best_hit (sample_init 0.5)) (last (evaluated_scores [] sample_second)).
Proof.
  exact (counter_counts_evaluations ucd_excerpt (sample_session 0.5) [] ∅
           (sample_init 0.5) sample_second eq_refl sample_second_reachable).
Defined.




(** ** The first "LLC TOTAL" line of a report *)

Section LineFacts.
Variable U : unicode_db.

Lemma match_here_literal l its t :
  match_here U ((map (Lit false) l) ++ its) (l ++ t) = match_here U its t.
Proof.
  induction l as [|c l IH]; [done|]. cbn [map app match_here].
  unfold lit_match. by rewrite N.eqb_refl.
Qed.

Lemma match_here_literal_inv l its t gs :
  match_here U ((map (Lit false) l) ++ its) t = Some gs -> exists t', t = l ++ t'.
Proof.
  revert t. induction l as [|c l IH]; intros t; [by exists t|].
  cbn [map app match_here]. destruct t as [|d t]; [done|].
  unfold lit_match. destruct (N.eqb_spec c d) as [->|]; [|done].
  intros H. apply IH in H as [t' ->]. by exists t'.
Qed.

Lemma rep_greedy_max {R} (p : N -> bool) (K : str -> str -> option R) w t r :
  Forall (fun c => p c = true) w ->
  (forall c, head t = Some c -> p c = false) ->
  K w t = Some r ->
  rep_greedy p K (w ++ t) = Some r.
Proof.
  intros Hw Ht. revert K. induction Hw as [|c w Hc _ IH]; intros K HK.
  - destruct t as [|c t]; [done|]. cbn [app rep_greedy].
    by rewrite (Ht c eq_refl).
  - cbn [app rep_greedy]. rewrite Hc.
    by rewrite (IH (fun w rest => K (c :: w) rest) HK).
Qed.

(** A greedy [+] takes a whole run of its class when what follows the run is
    not of the class and the rest of the pattern matches there. *)
Lemma match_here_run k cap its w t gs :
  w <> [] ->
  Forall (fun c => in_cls U k c = true) w ->
  (forall c, head t = Some c -> in_cls U k c = false) ->
  match_here U its t = Some gs ->
  match_here U (Rep k true true cap :: its) (w ++ t) =
  Some (if cap then w :: gs else gs).
Proof.
  intros Hne Hw Ht Hm. destruct w as [|c w]; [done|].
  apply Forall_cons in Hw as [Hc Hw].
  cbn [match_here app]. unfold rep. rewrite Hc.
  apply rep_greedy_max; [done | done |]. by rewrite Hm.
Qed.

Lemma search_here its s gs :
  match_here U its s = Some gs -> search U its s = Some gs.
Proof. intros H. destruct s; simpl; by rewrite H. Qed.

(** [re.search] passes over a text in which the words the pattern starts
    with do not occur, not even across its end. *)
Lemma search_skip l its pre t :
  l <> [] ->
  ~ occurs l (pre ++ removelast l) ->
  search U ((map (Lit false) l) ++ its) (pre ++ l ++ t) =
  search U ((map (Lit false) l) ++ its) (l ++ t).
Proof.
  intros Hl. destruct l as [|x l' _] using rev_ind; [done|]. clear Hl.
  rewrite removelast_last.
  induction pre as [|c pre IH]; intros Hocc; [done|].
  cbn [app search].
  destruct (match_here U ((map (Lit false) (l' ++ [x])) ++ its)
              (c :: pre ++ (l' ++ [x]) ++ t)) as [gs|] eqn:E.
  - exfalso. apply match_here_literal_inv in E as [t' E]. apply Hocc.
    assert ((l' ++ [x]) `prefix_of` (c :: pre) ++ l') as [after Hafter].
    { assert ((l' ++ [x]) `prefix_of` (c :: pre) ++ (l' ++ [x]) ++ t) as H1
        by (exists t'; exact E).
      assert (((c :: pre) ++ l') `prefix_of` (c :: pre) ++ (l' ++ [x]) ++ t) as H2.
      { apply prefix_app. rewrite <- app_assoc. by eexists. }
      destruct (prefix_weak_total _ _ _ H1 H2) as [H|H]; [done|].
      apply prefix_length_eq in H; [by rewrite H|].
      rewrite !length_app. cbn [length]. lia. }
    exists [], after. by rewrite Hafter.
  - apply IH. intros (before & after & H). apply Hocc.
    exists (c :: before), after. cbn [app]. by rewrite H.
Qed.

Lemma blank_space c :
  ascii_isspace c = true -> isspace U c = true /\ isdecimal U c = false.
Proof.
  intros H. unfold isspace, isdecimal.
  assert (is_ascii c = true) as -> by ascii_cases. split; [done|]. ascii_cases.
Qed.

Lemma number_digit c :
  ascii_isdecimal c = true -> isdecimal U c = true /\ isspace U c = false.
Proof.
  intros H. unfold isspace, isdecimal.
  assert (is_ascii c = true) as -> by ascii_cases. split; [done|]. ascii_cases.
Qed.

Lemma blank_run s :
  blank s ->
  s <> [] /\ Forall (fun c => in_cls U Space c = true) s /\
  (forall c, head s = Some c -> in_cls U Digit c = false).
Proof.
  intros [Hne Hs]. split; [done|]. split.
  - eapply Forall_impl; [exact Hs|]. intros c Hc. by apply blank_space.
  - intros c Hc. apply head_Some_elem_of in Hc. rewrite Forall_forall in Hs.
    by apply blank_space, Hs.
Qed.

Lemma number_run s :
  number s ->
  s <> [] /\ Forall (fun c => in_cls U Digit c = true) s /\
  (forall c, head s = Some c -> in_cls U Space c = false).
Proof.
  intros [Hne Hs]. split; [done|]. split.
  - eapply Forall_impl; [exact Hs|]. intros c Hc. by apply number_digit.
  - intros c Hc. apply head_Some_elem_of in Hc. rewrite Forall_forall in Hs.
    by apply number_digit, Hs.
Qed.

Lemma head_app_run (s t : str) (P : N -> Prop) :
  s <> [] -> (forall c, head s = Some c -> P c) ->
  forall c, head (s ++ t) = Some c -> P c.
Proof. destruct s; [done|]. intros _ H c Hc. by apply H. Qed.

Lemma match_here_llc_total ws1 ws2 accesses ws3 ws4 hits rest :
  blank ws1 -> blank ws2 -> number accesses -> blank ws3 -> blank ws4 ->
  number hits ->
  (forall c, head rest = Some c -> isdecimal U c = false) ->
  match_here U re_llc_total
    (llc_total_line ws1 ws2 accesses ws3 ws4 hits ++ rest) =
  Some [accesses; hits].
Proof.
  intros (N1 & S1 & _)%blank_run (N2 & S2 & _)%blank_run
    (Na & Da & Sa)%number_run (N3 & S3 & D3)%blank_run
    (N4 & S4 & _)%blank_run (Nh & Dh & Sh)%number_run Hrest.
  unfold llc_total_line, re_llc_total, lits, ws_plus, digits.
  rewrite <- !app_assoc. cbn [app].
  rewrite match_here_literal.
  apply (match_here_run Space false _ ws1 _ [accesses; hits]);
    [done | done | by intros c [= <-] |].
  rewrite match_here_literal.
  apply (match_here_run Space false _ ws2 _ [accesses; hits]);
    [done | done | by apply head_app_run |].
  apply (match_here_run Digit true _ accesses _ [hits]);
    [done | done | by apply head_app_run |].
  apply (match_here_run Space false _ ws3 _ [hits]);
    [done | done | by intros c [= <-] |].
  rewrite match_here_literal.
  apply (match_here_run Space false _ ws4 _ [hits]);
    [done | done | by apply head_app_run |].
  by apply (match_here_run Digit true [] hits rest []).
Qed.

End LineFacts.

Lemma occurs_search U l text :
  occurs l text <-> is_Some (search U (map (Lit false) l) text).
Proof.
  rewrite search_Some. unfold occurs, contains_match. split.
  - intros (before & after & ->). exists before, l, after, [].
    split; [done|]. clear. induction l as [|c l IH]; simpl; [constructor|].
    constructor; [|done]. unfold lit_match. apply N.eqb_refl.
  - intros (before & m & after & gs & -> & Hm). exists before, after.
    do 2 f_equal. clear before after. revert m gs Hm.
    induction l as [|c l IH]; intros m gs Hm; inversion Hm; subst; [done|].
    unfold lit_match in *. f_equal; [symmetry; by apply N.eqb_eq | by eapply IH].
Qed.

Lemma search_llc_total_line U pre ws1 ws2 accesses ws3 ws4 hits rest :
  ~ occurs (py "LLC TOTAL") (pre ++ py "LLC TOTA") ->
  blank ws1 -> blank ws2 -> number accesses -> blank ws3 -> blank ws4 ->
  number hits ->
  (forall c, head rest = Some c -> isdecimal U c = false) ->
  search U re_llc_total
    (pre ++ llc_total_line ws1 ws2 accesses ws3 ws4 hits ++ rest) =
  Some [accesses; hits].
Proof.
  intros Hocc H1 H2 Ha H3 H4 Hh Hrest.
  pose proof (match_here_llc_total U ws1 ws2 accesses ws3 ws4 hits rest
                H1 H2 Ha H3 H4 Hh Hrest) as Hm.
  apply search_here in Hm.
  assert (llc_total_line ws1 ws2 accesses ws3 ws4 hits ++ rest =
          py "LLC TOTAL" ++
          (ws1 ++ py "ACCESS:" ++ ws2 ++ accesses ++ ws3 ++ py "HIT:" ++
           ws4 ++ hits) ++ rest) as Eq.
  { unfold llc_total_line. by rewrite <- app_assoc. }
  rewrite Eq in *. unfold re_llc_total, lits in *.
  by rewrite (search_skip U (py "LLC TOTAL") _ pre _ ltac:(done) Hocc).
Qed.

Lemma int_truediv_pos a b e :
  (b >? 0)%Z = true -> int_truediv a b = Raise e -> e = OverflowError.
Proof.
  intros Hb H. destruct (int_truediv_raises _ _ _ H) as [-> | ->]; [|done].
  unfold int_truediv in H. destruct b; [done| |];
    by destruct (SFdiv prec emax (Z2SF a) _).
Qed.

(** X7.  In a report where the words "LLC TOTAL" first occur in a line of the
    form [LLC TOTAL <blank> ACCESS: <blank> A <blank> HIT: <blank> H], with
    no digit right after [H], whatever comes before and after the line:
    [parse_llc_stats] and [parse_hit_rate] raise [ValueError] when [A] or
    [H] has more digits than the interpreter converts; otherwise
    [parse_llc_stats] returns the two numbers, and [parse_hit_rate] returns
    [0.0] when [A] is 0 and else the quotient [H / A] rounded to a float, or
    raises [OverflowError] when that quotient is too large for a float. *)
Theorem first_llc_total_line (U : unicode_db)
    (pre ws1 ws2 accesses ws3 ws4 hits rest : str) :
  ~ occurs (py "LLC TOTAL") (pre ++ py "LLC TOTA") ->
  blank ws1 -> blank ws2 -> number accesses -> blank ws3 -> blank ws4 ->
  number hits ->
  (forall c, head rest = Some c -> isdecimal U c = false) ->
  parse_llc_stats U
    (pre ++ llc_total_line ws1 ws2 accesses ws3 ws4 hits ++ rest) =
    (if (int_max_str_digits <? length accesses)%nat ||
        (int_max_str_digits <? length hits)%nat
     then Raise ValueError
     else Ok (int_of U accesses, int_of U hits)) /\
  parse_hit_rate U
    (pre ++ llc_total_line ws1 ws2 accesses ws3 ws4 hits ++ rest) =
    (if (int_max_str_digits <? length accesses)%nat ||
        (int_max_str_digits <? length hits)%nat
     then Raise ValueError
     else if (int_of U accesses >? 0)%Z
          then int_truediv (int_of U hits) (int_of U accesses)
          else Ok 0%float) /\
  (forall e,
     parse_hit_rate U
       (pre ++ llc_total_line ws1 ws2 accesses ws3 ws4 hits ++ rest) =
       Raise e ->
     e = ValueError \/ e = OverflowError).
Proof.
  intros Hocc H1 H2 Ha H3 H4 Hh Hrest.
  pose proof (search_llc_total_line U pre ws1 ws2 accesses ws3 ws4 hits rest
                Hocc H1 H2 Ha H3 H4 Hh Hrest) as Hs.
  unfold parse_llc_stats, parse_hit_rate, py_int. rewrite Hs.
  change (group [accesses; hits] 1) with accesses.
  change (group [accesses; hits] 2) with hits.
  destruct (int_max_str_digits <? length accesses)%nat;
    destruct (int_max_str_digits <? length hits)%nat;
    cbn [orb]; (split; [done|]); (split; [done|]);
    try (intros e [= <-]; by left).
  intros e. destruct (int_of U accesses >? 0)%Z eqn:Epos; [|done].
  intros He. right. by eapply int_truediv_pos.
Qed.

Lemma first_llc_total_line_witness :
  parse_llc_stats ucd_excerpt
    ((py "LLC LOAD      ACCESS: 7  HIT: 3" ++ [nl]) ++
     llc_total_line (py "     ") (py " ") (py "2500") (py "  ") (py " ")
       (py "1000") ++
     py "  MISS: 1500" ++ [nl] ++ py "LLC TOTAL ACCESS: 1 HIT: 1") =
    Ok (2500%Z, 1000%Z) /\
  parse_hit_rate ucd_excerpt
    ((py "LLC LOAD      ACCESS: 7  HIT: 3" ++ [nl]) ++
     llc_total_line (py "     ") (py " ") (py "2500") (py "  ") (py " ")
       (py "1000") ++
     py "  MISS: 1500" ++ [nl] ++ py "LLC TOTAL ACCESS: 1 HIT: 1") =
    Ok 0.4%float /\
  (forall e,
     parse_hit_rate ucd_excerpt
       ((py "LLC LOAD      ACCESS: 7  HIT: 3" ++ [nl]) ++
        llc_total_line (py "     ") (py " ") (py "2500") (py "  ") (py " ")
          (py "1000") ++
        py "  MISS: 1500" ++ [nl] ++ py "LLC TOTAL ACCESS: 1 HIT: 1") =
       Raise e ->
     e = ValueError \/ e = OverflowError).
Proof.
  apply (first_llc_total_line ucd_excerpt
           (py "LLC LOAD      ACCESS: 7  HIT: 3" ++ [nl])
           (py "     ") (py " ") (py "2500") (py "  ") (py " ") (py "1000")
           (py "  MISS: 1500" ++ [nl] ++ py "LLC TOTAL ACCESS: 1 HIT: 1")).
  - intros H. apply (occurs_search ucd_excerpt) in H. vm_compute in H.
    destruct H as [x H]. discriminate H.
  - split; [discriminate | vm_compute; repeat constructor].
  - split; [discriminate | vm_compute; repeat constructor].
  - split; [discriminate | vm_compute; repeat constructor].
  - split; [discriminate | vm_compute; repeat constructor].
  - split; [discriminate | vm_compute; repeat constructor].
  - split; [discriminate | vm_compute; repeat constructor].
  - intros c H. vm_compute in H. injection H as <-. reflexivity.
Defined.

(** C5 (as amended).  The pattern of the program is
    [LLC TOTAL\s+ACCESS:\s+(\d+)\s+HIT:\s+(\d+)], and [re.search] takes the
    leftmost substring of the report that matches it.  [parse_hit_rate]
    raises "LLC TOTAL not found" exactly when no substring matches.  When
    one does, with [a] and [h] the two numerals of the leftmost match: it
    raises [ValueError] when a numeral has more digits than the interpreter
    converts; otherwise it returns [0.0] when [a] is 0, and else [h / a]
    rounded to a float, or raises [OverflowError] when that quotient is too
    large for a float.  It raises nothing else.  A report in which the words
    "LLC TOTAL" first occur in ["LLC TOTAL ACCESS: 100 HIT: 40"], with no
    digit after it, yields [(100, 40)] and the rate [0.4]. *)
Theorem parse_hit_rate_llc_total (U : unicode_db) (output : str) :
  (parse_hit_rate U output = Raise (RuntimeError "LLC TOTAL not found") <->
   ~ contains_match U re_llc_total output) /\
  (parse_llc_stats U output =
     Raise (RuntimeError "LLC TOTAL line not found in ChampSim output") <->
   ~ contains_match U re_llc_total output) /\
  (contains_match U re_llc_total output ->
   exists pre m post a h,
     output = pre ++ m ++ post /\ Matches U re_llc_total m [a; h] /\
     (forall pre1 pre2, pre = pre1 ++ pre2 -> pre2 <> [] ->
        match_here U re_llc_total (pre2 ++ m ++ post) = None) /\
     parse_llc_stats U output =
       (if (int_max_str_digits <? length a)%nat ||
           (int_max_str_digits <? length h)%nat
        then Raise ValueError
        else Ok (int_of U a, int_of U h)) /\
     parse_hit_rate U output =
       (if (int_max_str_digits <? length a)%nat ||
           (int_max_str_digits <? length h)%nat
        then Raise ValueError
        else if (int_of U a >? 0)%Z
             then int_truediv (int_of U h) (int_of U a)
             else Ok 0%float)) /\
  (forall e, parse_hit_rate U output = Raise e ->
     e = RuntimeError "LLC TOTAL not found" \/ e = ValueError \/
     e = OverflowError) /\
  (forall pre rest,
     output = pre ++ py "LLC TOTAL ACCESS: 100 HIT: 40" ++ rest ->
     ~ occurs (py "LLC TOTAL") (pre ++ py "LLC TOTA") ->
     (forall c, head rest = Some c -> isdecimal U c = false) ->
     parse_llc_stats U output = Ok (100%Z, 40%Z) /\
     parse_hit_rate U output = Ok 0.4%float) /\
  (parse_llc_stats U (py "... LLC TOTAL ACCESS: 100 HIT: 40 ...") =
     Ok (100%Z, 40%Z) /\
   parse_hit_rate U (py "... LLC TOTAL ACCESS: 100 HIT: 40 ...") =
     Ok 0.4%float /\
   parse_llc_stats U (py "... LLC TOTAL ACCESS: 100 HIT: 400 ...") =
     Ok (100%Z, 400%Z) /\
   parse_hit_rate U (py "LLC TOTAL ACCESS: 0 HIT: 0") = Ok 0%float /\
   parse_hit_rate U (sample_report "2500" "1000") = Ok 0.4%float /\
   parse_hit_rate U (py "LLC TOTAL ACCESS: 1 HIT: 1" ++ replicate 400 48%N) =
     Raise OverflowError /\
   parse_hit_rate U (py "LLC TOTAL ACCESS: 1 HIT: " ++ replicate 4301 49%N) =
     Raise ValueError).
Proof.
  split; [|split; [|split; [|split; [|split]]]].
  - rewrite <- search_None. unfold parse_hit_rate, py_int.
    destruct (search U re_llc_total output) as [m|]; [|done].
    split; [|done].
    destruct (int_max_str_digits <? length (group m 1))%nat; [done|].
    destruct (int_max_str_digits <? length (group m 2))%nat; [done|].
    destruct (_ >? _)%Z; [|done].
    intros H. by apply int_truediv_not_RuntimeError in H.
  - rewrite <- search_None. unfold parse_llc_stats, py_int.
    destruct (search U re_llc_total output) as [m|]; [|done].
    split; [|done].
    destruct (int_max_str_digits <? length (group m 1))%nat; [done|].
    by destruct (int_max_str_digits <? length (group m 2))%nat.
  - intros H. apply search_Some in H as [gs E].
    pose proof E as (pre & m & post & Hs & Hm & Hleft)%search_leftmost.
    pose proof (Matches_groups U _ _ _ Hm) as Hlen.
    destruct gs as [|a [|h [|? ?]]]; try discriminate Hlen.
    exists pre, m, post, a, h. unfold parse_llc_stats, parse_hit_rate, py_int.
    rewrite E. change (group [a; h] 1) with a. change (group [a; h] 2) with h.
    destruct (int_max_str_digits <? length a)%nat;
      by destruct (int_max_str_digits <? length h)%nat.
  - intros e. unfold parse_hit_rate, py_int.
    destruct (search U re_llc_total output) as [m|];
      [|intros [= <-]; by left].
    destruct (int_max_str_digits <? length (group m 1))%nat;
      [intros [= <-]; right; by left|].
    destruct (int_max_str_digits <? length (group m 2))%nat;
      [intros [= <-]; right; by left|].
    destruct (_ >? _)%Z eqn:Epos; [|done].
    intros He. right. right. by eapply int_truediv_pos.
  - intros pre rest -> Hocc Hrest.
    assert (search U re_llc_total
              (pre ++ py "LLC TOTAL ACCESS: 100 HIT: 40" ++ rest) =
            Some [py "100"; py "40"]) as Hs.
    { apply (search_llc_total_line U pre (py " ") (py " ") (py "100")
               (py " ") (py " ") (py "40") rest); try done;
        (split; [discriminate | by repeat constructor]). }
    unfold parse_llc_stats, parse_hit_rate. rewrite Hs. by vm_compute.
  - vm_compute. done.
Qed.

(** C5 fails as stated: the report of the specification's own example has a
    substring matching [ACCESS:\s*(\d+)\s+HIT:\s*(\d+)], and
    [parse_hit_rate] raises, because the words [LLC TOTAL] are not there. *)
Lemma parse_hit_rate_counterexample :
  contains_match ucd_excerpt re_spec_report (py "... ACCESS: 100 HIT: 40 ...") /\
  parse_hit_rate ucd_excerpt (py "... ACCESS: 100 HIT: 40 ...") =
    Raise (RuntimeError "LLC TOTAL not found") /\
  parse_hit_rate ucd_excerpt (py "ACCESS:100 HIT:40") =
    Raise (RuntimeError "LLC TOTAL not found").
Proof.
  split; [|vm_compute; by split].
  apply search_Some. vm_compute. by eexists.
Qed.

(** ** A reply in the requested format is read back *)

Section ReplyFacts.
Variable U : unicode_db.

Lemma free_of_ascii p s :
  forallb (fun c => is_ascii c && negb (ascii_lower p =? ascii_lower c)%N) s
    = true ->
  free_of U p s.
Proof.
  intros H. apply Forall_forall. intros c Hc%list_elem_of_In.
  rewrite forallb_forall in H. apply H in Hc as [Ha Hc]%andb_prop.
  unfold lit_match. rewrite Ha. by apply negb_true_iff.
Qed.

(** [re.search] passes over characters that are not read as the first
    character of the pattern. *)
Lemma search_past_free its p pre t :
  its = Lit true p :: tl its -> free_of U p pre ->
  search U its (pre ++ t) = search U its t.
Proof.
  intros E H. rewrite E. induction H as [|c pre Hc _ IH]; [done|].
  cbn [app search match_here]. by rewrite Hc.
Qed.

Lemma match_here_lits l its t :
  forallb is_ascii l = true ->
  match_here U (map (Lit true) l ++ its) (l ++ t) = match_here U its t.
Proof.
  induction l as [|c l IH]; [done|]. cbn [forallb map app match_here].
  intros [Ha Hl]%andb_prop. unfold lit_match. rewrite Ha, N.eqb_refl.
  by apply IH.
Qed.

Lemma match_here_star k cap its w t gs :
  Forall (fun c => in_cls U k c = true) w ->
  (forall c, head t = Some c -> in_cls U k c = false) ->
  match_here U its t = Some gs ->
  match_here U (Rep k false true cap :: its) (w ++ t) =
  Some (if cap then w :: gs else gs).
Proof.
  intros Hw Ht Hm. cbn [match_here]. unfold rep.
  apply rep_greedy_max; [done | done |]. by rewrite Hm.
Qed.

(** A lazy repetition stops at the first place where the rest of the
    pattern matches. *)
Lemma rep_lazy_first {R} (p : N -> bool) (K : str -> str -> option R) w t r :
  Forall (fun c => p c = true) w ->
  (forall w1 c w2, w = w1 ++ c :: w2 -> K w1 (c :: w2 ++ t) = None) ->
  K w t = Some r ->
  rep_lazy p K (w ++ t) = Some r.
Proof.
  intros Hw. revert K. induction Hw as [|c w Hc _ IH]; intros K Hnone Hsome.
  - destruct t; cbn [app rep_lazy]; by rewrite Hsome.
  - cbn [app rep_lazy]. rewrite (Hnone [] c w eq_refl), Hc.
    apply IH; [|done]. intros w1 d w2 ->. apply (Hnone (c :: w1) d w2 eq_refl).
Qed.

Lemma name_header its t :
  match_here U
    (lits true "##" ++ [ws_star] ++ lits true "Policy" ++ [ws_star] ++
     lits true "Name" ++ its) (py "## Policy Name" ++ t) =
  match_here U its t.
Proof. cbn. by destruct (match_here U its t). Qed.

Lemma description_header its t :
  match_here U
    (lits true "##" ++ [ws_star] ++ lits true "Policy" ++ [ws_star] ++
     lits true "Description" ++ its) (py "## Policy Description" ++ t) =
  match_here U its t.
Proof. cbn. by destruct (match_here U its t). Qed.

(** [\s*\n] before a line that starts with neither whitespace nor a
    newline: the [\s*] gives the newline back. *)
Lemma match_here_newline its c t :
  isspace U c = false -> lit_match U true nl c = false ->
  match_here U (ws_star :: Lit true nl :: its) (nl :: c :: t) =
  match_here U its (c :: t).
Proof.
  intros Hc Hn. unfold ws_star. cbn [match_here]. unfold rep.
  cbn [rep_greedy in_cls]. change (isspace U nl) with true. cbn iota.
  rewrite Hc, Hn. change (lit_match U true nl nl) with true. cbn iota.
  by destruct (match_here U its (c :: t)).
Qed.

(** After a header, [\s*\n(.*?)\n] captures the next line whole. *)
Lemma match_here_line line rest :
  line <> [] ->
  (forall c, head line = Some c -> isspace U c = false) ->
  free_of U nl line ->
  match_here U [ws_star; Lit true nl; lazy_any; Lit true nl]
    (nl :: line ++ nl :: rest) = Some [line].
Proof.
  intros Hne Hhead Hfree. unfold free_of in Hfree.
  destruct line as [|c line]; [done|].
  cbn [app]. rewrite match_here_newline;
    [| by apply Hhead | by apply (Forall_inv Hfree)].
  change (c :: line ++ nl :: rest) with ((c :: line) ++ nl :: rest).
  unfold lazy_any. cbn [match_here]. unfold rep. apply rep_lazy_first.
  - by apply Forall_forall.
  - intros w1 d w2 E.
    assert (lit_match U true nl d = false) as ->; [|done].
    rewrite Forall_forall in Hfree. apply Hfree. rewrite E.
    apply elem_of_app. right. apply list_elem_of_here.
  - change (lit_match U true nl nl) with true. done.
Qed.

(** Inside a text without backticks that does not end in whitespace,
    [\s*```] matches nowhere. *)
Lemma block_end_none code1 c code2 rest :
  free_of U backtick (code1 ++ c :: code2) ->
  (forall d, last (code1 ++ c :: code2) = Some d -> isspace U d = false) ->
  match_here U (ws_star :: lits true "```") (c :: code2 ++ rest) = None.
Proof.
  intros Hfree Hlast. unfold free_of in Hfree.
  destruct (match_here U (ws_star :: lits true "```") (c :: code2 ++ rest))
    as [gs|] eqn:E; [|done]. exfalso.
  cbn [match_here] in E. apply rep_sound in E as (w & t & Heq & Hw & _ & HK).
  destruct t as [|d t]; [done|].
  destruct (lit_match U true backtick d) eqn:Ed;
    [|by cbn [lits py map list_ascii_of_string match_here] in HK;
         change (N_of_ascii "`") with backtick in HK; rewrite Ed in HK].
  assert (isspace U (default c (last code2)) = false) as Hsp.
  { apply Hlast. rewrite last_app, last_cons. by destruct (last code2). }
  assert (default c (last code2) ∈ c :: code2) as Hin.
  { destruct (last code2) as [x|] eqn:El; cbn [default].
    - apply list_elem_of_further. by eapply last_Some_elem_of.
    - apply list_elem_of_here. }
  apply Forall_app in Hfree as [_ Hfree]. rewrite Forall_forall in Hfree.
  rewrite Forall_forall in Hw.
  change (c :: code2 ++ rest) with ((c :: code2) ++ rest) in Heq.
  apply app_eq_inv in Heq as [(k & Hk & Ht)|(k & Hk & Ht)].
  - destruct k as [|d' k].
    + rewrite app_nil_r in Hk. subst w.
      specialize (Hw _ Hin). cbn [in_cls] in Hw. congruence.
    + cbn [app] in Ht. injection Ht as <- _.
      assert (d ∈ c :: code2) as Hd
        by (rewrite Hk; apply elem_of_app; right; apply list_elem_of_here).
      specialize (Hfree _ Hd). cbn beta in Hfree. congruence.
  - assert (default c (last code2) ∈ w) as Hd
      by (rewrite Hk; apply elem_of_app; by left).
    specialize (Hw _ Hd). cbn [in_cls] in Hw. congruence.
Qed.

Lemma match_here_Rep k plus greedy cap its s :
  match_here U (Rep k plus greedy cap :: its) s =
  rep (in_cls U k) plus greedy
    (fun w rest =>
       match match_here U its rest with
       | Some gs => Some (if cap then w :: gs else gs)
       | None => None
       end) s.
Proof. reflexivity. Qed.

(** [```cpp\s*(.*?)\s*```] at the start of a block captures the source. *)
Lemma match_here_block code post :
  trimmed U code -> free_of U backtick code ->
  match_here U re_cpp_block
    (py "```cpp" ++ [nl] ++ code ++ [nl] ++ py "```" ++ post) = Some [code].
Proof.
  intros (Hne & Hhead & Hlast) Hfree. unfold re_cpp_block. unfold lits at 1.
  rewrite match_here_lits by reflexivity. cbn [app].
  apply (match_here_star Space false _ [nl] _ [code]).
  - by repeat constructor.
  - by apply head_app_run.
  - unfold lazy_any. rewrite match_here_Rep. unfold rep. apply rep_lazy_first.
    + by apply Forall_forall.
    + intros w1 c w2 E. rewrite (block_end_none w1 c w2); [done | |];
        by rewrite <- E.
    + reflexivity.
Qed.

Lemma search_next its c s :
  match_here U its (c :: s) = None -> search U its (c :: s) = search U its s.
Proof. intros H. cbn [search]. by rewrite H. Qed.

(** The search for the description passes over the header of the name. *)
Lemma description_past_name t :
  search U re_policy_description (py "## Policy Name" ++ t) =
  search U re_policy_description t.
Proof.
  change (py "## Policy Name" ++ t) with (hash :: hash :: py " Policy Name" ++ t).
  rewrite search_next by reflexivity. rewrite search_next by reflexivity.
  apply (search_past_free _ hash); [reflexivity | by apply free_of_ascii].
Qed.

Ltac past_free p :=
  rewrite (search_past_free _ p);
    [| reflexivity | first [assumption | by apply free_of_ascii]].

Lemma search_name pre name desc code post :
  free_of U hash pre -> trimmed U name -> free_of U nl name ->
  search U re_policy_name (format_reply pre name desc code post) = Some [name].
Proof.
  intros Hpre (Hne & Hhead & _) Hnl. unfold format_reply.
  past_free hash. apply search_here. unfold re_policy_name.
  rewrite name_header. cbn [app]. by apply match_here_line.
Qed.

Lemma search_description pre name desc code post :
  free_of U hash pre -> free_of U hash name ->
  trimmed U desc -> free_of U nl desc ->
  search U re_policy_description (format_reply pre name desc code post) =
  Some [desc].
Proof.
  intros Hpre Hname (Hne & Hhead & _) Hnl. unfold format_reply.
  past_free hash. rewrite description_past_name. do 3 past_free hash.
  apply search_here. unfold re_policy_description.
  rewrite description_header. cbn [app]. by apply match_here_line.
Qed.

Lemma search_block pre name desc code post :
  free_of U backtick pre -> free_of U backtick name ->
  free_of U backtick desc -> trimmed U code -> free_of U backtick code ->
  search U re_cpp_block (format_reply pre name desc code post) = Some [code].
Proof.
  intros Hpre Hname Hdesc Hcode Hfree. unfold format_reply.
  do 11 past_free backtick. apply search_here. by apply match_here_block.
Qed.


End ReplyFacts.

(** X8.  A reply in the format the prompts ask for is read back as it was
    written: [parse_policy_content] returns the name, the description and
    the source, and [main] does not raise "Parse failed".  The name and the
    description are one line each, the three texts are non-empty and have no
    whitespace at their ends, there is no backtick before the block or in
    it, and no [#] before the header of the description other than in the
    two headers; what follows the block is arbitrary. *)
Theorem format_reply_parsed (U : unicode_db) (pre name desc code post : str) :
  free_of U hash pre -> free_of U backtick pre ->
  trimmed U name -> free_of U nl name -> free_of U hash name ->
  free_of U backtick name ->
  trimmed U desc -> free_of U nl desc -> free_of U backtick desc ->
  trimmed U code -> free_of U backtick code ->
  parse_policy_content U (format_reply pre name desc code post) =
    (Some name, Some desc, Some code) /\
  parse_reply U (format_reply pre name desc code post) = Ok (name, desc, code).
Proof.
  intros Hp1 Hp2 Hn Hn1 Hn2 Hn3 Hd Hd1 Hd2 Hc Hc1.
  assert (parse_policy_content U (format_reply pre name desc code post) =
          (Some name, Some desc, Some code)) as E.
  { unfold parse_policy_content, _extract.
    rewrite search_name, search_description, search_block by done.
    change (group [name] 1) with name. change (group [desc] 1) with desc.
    change (group [code] 1) with code.
    destruct Hn as (_ & ? & ?), Hd as (_ & ? & ?), Hc as (_ & ? & ?).
    by rewrite !strip_id. }
  split; [done|]. unfold parse_reply. rewrite E.
  destruct Hn as (? & _), Hd as (? & _), Hc as (? & _).
  by destruct name, desc, code.
Qed.

Lemma format_reply_parsed_witness :
  parse_policy_content ucd_excerpt
    (format_reply (py "Two ideas; the second is better." ++ [nl; nl])
       (py "Hawkeye LRU v2") (py "Mixes #1 and #2.")
       (py "int main() {" ++ [nl] ++ py "  return 0; }")
       ([nl] ++ py "Tune `K` as needed.")) =
    (Some (py "Hawkeye LRU v2"), Some (py "Mixes #1 and #2."),
     Some (py "int main() {" ++ [nl] ++ py "  return 0; }")) /\
  parse_reply ucd_excerpt
    (format_reply (py "Two ideas; the second is better." ++ [nl; nl])
       (py "Hawkeye LRU v2") (py "Mixes #1 and #2.")
       (py "int main() {" ++ [nl] ++ py "  return 0; }")
       ([nl] ++ py "Tune `K` as needed.")) =
    Ok (py "Hawkeye LRU v2", py "Mixes #1 and #2.",
        py "int main() {" ++ [nl] ++ py "  return 0; }").
Proof.
  apply (format_reply_parsed ucd_excerpt).
  - vm_compute. repeat constructor.
  - vm_compute. repeat constructor.
  - split; [discriminate|]. split; intros c H; vm_compute in H;
      injection H as <-; reflexivity.
  - vm_compute. repeat constructor.
  - vm_compute. repeat constructor.
  - vm_compute. repeat constructor.
  - split; [discriminate|]. split; intros c H; vm_compute in H;
      injection H as <-; reflexivity.
  - vm_compute. repeat constructor.
  - vm_compute. repeat constructor.
  - split; [discriminate|]. split; intros c H; vm_compute in H;
      injection H as <-; reflexivity.
  - vm_compute. repeat constructor.
Defined.

(** ** What the reading of a reply accepts *)





(** ** When the seeding script succeeds, and the shape of its table *)

Section SeedingRuns.
Import DB_Connection.
Variable policies : list (str * PolicyInfo).
Variable perf_data : list (str * list float).

Lemma dict_get_raises {V} (d : list (str * V)) k e :
  dict_get d k = Raise e -> e = KeyError.
Proof.
  induction d as [|[k' v] d IH]; simpl; [by intros [= <-]|].
  by destruct (bool_decide (k' = k)).
Qed.

Lemma perf_at_raises w k e :
  perf_at perf_data w k = Raise e -> e = KeyError \/ e = IndexError.
Proof.
  unfold perf_at. destruct (dict_get perf_data w) as [rates|e'] eqn:E.
  - destruct (rates !! k); [done|]. intros [= <-]. by right.
  - intros [= <-]. left. by eapply dict_get_raises.
Qed.

Lemma score_of_raises scores p e : score_of scores p = Raise e -> e = KeyError.
Proof. unfold score_of. destruct (scores !! p); [done|]. by intros [= <-]. Qed.

Lemma collect_policies_total w ps n m :
  (forall k, k < length ps -> is_ok (perf_at perf_data w (n + k)) = true) ->
  exists m',
    collect_policies perf_data w ps n m = Ok m' /\
    forall p, p ∈ ps \/ is_Some (m !! p) -> is_Some (m' !! p).
Proof.
  revert n m. induction ps as [|p0 ps IH]; intros n m H; simpl.
  - exists m. split; [done|]. intros p [Hp|Hp]; [by apply elem_of_nil in Hp|done].
  - pose proof (H 0 ltac:(simpl; lia)) as H0. rewrite Nat.add_0_r in H0.
    destruct (perf_at perf_data w n) as [x|e]; [|done].
    destruct (IH (S n)
                (<[p0 := default [] (m !! p0) ++ [x]]> m)) as (m' & E & Hdom).
    { intros k Hk. replace (S n + k) with (n + S k) by lia. apply H. simpl. lia. }
    exists m'. split; [done|]. intros p Hp. apply Hdom.
    destruct Hp as [Hp|Hp].
    + apply elem_of_cons in Hp as [->|Hp]; [|by left].
      right. rewrite lookup_insert_eq. by eexists.
    + right. apply lookup_insert_is_Some.
      destruct (decide (p0 = p)); [by left | by right].
Qed.

Lemma collect_policies_complete w ps n m m' :
  collect_policies perf_data w ps n m = Ok m' ->
  forall k, k < length ps -> is_ok (perf_at perf_data w (n + k)) = true.
Proof.
  revert n m. induction ps as [|p0 ps IH]; intros n m; simpl.
  - intros _ k Hk. lia.
  - destruct (perf_at perf_data w n) as [x|e] eqn:E; [|done].
    intros H [|k] Hk.
    + by rewrite Nat.add_0_r, E.
    + replace (n + S k) with (S n + k) by lia. eapply IH; [exact H|lia].
Qed.

Lemma collect_policies_raises w ps n m e :
  collect_policies perf_data w ps n m = Raise e ->
  e = KeyError \/ e = IndexError.
Proof.
  revert n m. induction ps as [|p0 ps IH]; intros n m; simpl; [done|].
  destruct (perf_at perf_data w n) as [x|e'] eqn:E; [by apply IH|].
  intros [= <-]. by eapply perf_at_raises.
Qed.

Lemma collect_workloads_total ws m :
  (forall w, w ∈ ws -> forall k, k < length policies ->
     is_ok (perf_at perf_data w k) = true) ->
  exists m',
    collect_workloads policies perf_data ws m = Ok m' /\
    forall p, ws <> [] /\ p ∈ policies.*1 \/ is_Some (m !! p) ->
      is_Some (m' !! p).
Proof.
  revert m. induction ws as [|w ws IH]; intros m H; simpl.
  - exists m. split; [done|]. by intros p [[? _]|?].
  - destruct (collect_policies_total w policies.*1 0 m) as (m1 & E1 & D1).
    { intros k Hk. rewrite length_fmap in Hk. apply H; [apply list_elem_of_here|done]. }
    rewrite E1. destruct (IH m1) as (m' & E & D).
    { intros w' Hw'. apply H. by apply list_elem_of_further. }
    exists m'. split; [done|]. intros p Hp. apply D. right. apply D1.
    destruct Hp as [[_ Hp]|Hp]; [by left | by right].
Qed.

Lemma collect_workloads_complete ws m m' :
  collect_workloads policies perf_data ws m = Ok m' ->
  forall w, w ∈ ws -> forall k, k < length policies ->
    is_ok (perf_at perf_data w k) = true.
Proof.
  revert m. induction ws as [|w ws IH]; intros m; simpl.
  - intros _ w Hw. by apply elem_of_nil in Hw.
  - destruct (collect_policies perf_data w policies.*1 0 m) as [m1|e] eqn:E1;
      [|done].
    intros H w' Hw k Hk. apply elem_of_cons in Hw as [->|Hw].
    + apply (collect_policies_complete _ _ _ _ _ E1 k). by rewrite length_fmap.
    + by eapply IH.
Qed.

Lemma collect_workloads_raises ws m e :
  collect_workloads policies perf_data ws m = Raise e ->
  e = KeyError \/ e = IndexError.
Proof.
  revert m. induction ws as [|w ws IH]; intros m; simpl; [done|].
  destruct (collect_policies perf_data w policies.*1 0 m) as [m1|e'] eqn:E1;
    [by apply IH|].
  intros [= <-]. by eapply collect_policies_raises.
Qed.

Lemma insert_policies_total scores w wd (ps : list (str * PolicyInfo)) n table :
  (forall k, k < length ps -> is_ok (perf_at perf_data w (n + k)) = true) ->
  (forall p, p ∈ ps.*1 -> is_Some (scores !! p)) ->
  (forall k x, k < length ps -> perf_at perf_data w (n + k) = Ok x ->
     is_nan x = false) ->
  (forall p sc, p ∈ ps.*1 -> scores !! p = Some sc -> is_nan sc = false) ->
  is_ok (insert_policies perf_data scores w wd ps n table) = true.
Proof.
  revert n table.
  induction ps as [|[p0 pd] ps IH]; intros n table H Hs Hx Hsc; simpl;
    [done|].
  pose proof (H 0 ltac:(simpl; lia)) as H0.
  pose proof (Hx 0) as Hx0. rewrite Nat.add_0_r in H0, Hx0.
  destruct (perf_at perf_data w n) as [x|e]; [|done].
  unfold score_of.
  destruct (Hs p0 ltac:(apply list_elem_of_here)) as [sc Esc]. rewrite Esc.
  unfold insert. cbn [cache_hit_rate score].
  rewrite (Hx0 x ltac:(simpl; lia) eq_refl).
  rewrite (Hsc p0 sc ltac:(apply list_elem_of_here) Esc). cbn [orb].
  apply IH.
  - intros k Hk. replace (S n + k) with (n + S k) by lia. apply H. simpl. lia.
  - intros p Hp. apply Hs. by apply list_elem_of_further.
  - intros k y Hk. replace (S n + k) with (n + S k) by lia. apply Hx.
    simpl. lia.
  - intros p sc' Hp. apply Hsc. by apply list_elem_of_further.
Qed.

Lemma insert_policies_stored scores w wd (ps : list (str * PolicyInfo)) n
    table table' :
  insert_policies perf_data scores w wd ps n table = Ok table' ->
  (forall k x, k < length ps -> perf_at perf_data w (n + k) = Ok x ->
     is_nan x = false) /\
  (forall p sc, p ∈ ps.*1 -> scores !! p = Some sc -> is_nan sc = false).
Proof.
  revert n table. induction ps as [|[p0 pd] ps IH]; intros n table; simpl.
  - intros _. split; [intros k x Hk; lia|].
    intros p sc Hp. by apply elem_of_nil in Hp.
  - destruct (perf_at perf_data w n) as [x0|e] eqn:E0; [|done].
    unfold score_of. destruct (scores !! p0) as [sc0|] eqn:Esc; [|done].
    destruct (insert _ table) as [t1|e] eqn:Ei; [|done].
    apply insert_Ok in Ei as (_ & Hn1 & Hn2). cbn [cache_hit_rate score] in *.
    intros [IH1 IH2]%IH. split.
    + intros [|k] x Hk.
      * rewrite Nat.add_0_r, E0. by intros [= <-].
      * replace (n + S k) with (S n + k) by lia. apply IH1. simpl in Hk. lia.
    + intros p sc [->|Hp]%elem_of_cons; [|by apply IH2].
      rewrite Esc. by intros [= <-].
Qed.

Lemma insert_policies_shape scores w wd (ps : list (str * PolicyInfo)) n
    table table' :
  insert_policies perf_data scores w wd ps n table = Ok table' ->
  exists rows,
    table' = table ++ rows /\
    workload <$> rows = replicate (length ps) w /\
    policy <$> rows = ps.*1 /\
    Forall no_nan rows.
Proof.
  revert n table. induction ps as [|[p0 pd] ps IH]; intros n table; simpl.
  - intros [= <-]. exists []. by rewrite app_nil_r.
  - destruct (perf_at perf_data w n) as [x|e]; [|done].
    destruct (score_of scores p0) as [sc|e]; [|done].
    destruct (insert _ table) as [t1|e] eqn:Ei; [|done].
    apply insert_Ok in Ei as (-> & Hn1 & Hn2).
    intros (rows & -> & Hw & Hp & Hn)%IH. eexists (_ :: rows).
    rewrite <- app_assoc. split; [done|]. cbn [fmap list_fmap].
    fold (fmap (M := list) workload rows). fold (fmap (M := list) policy rows).
    rewrite Hw, Hp. split; [done|]. split; [done|]. by constructor.
Qed.

Lemma insert_policies_raises scores w wd (ps : list (str * PolicyInfo)) n
    table e :
  insert_policies perf_data scores w wd ps n table = Raise e ->
  (e = KeyError \/ e = IndexError \/ e = IntegrityError) /\
  ((forall k, k < length ps -> is_ok (perf_at perf_data w (n + k)) = true) ->
   (forall p, p ∈ ps.*1 -> is_Some (scores !! p)) ->
   e = IntegrityError).
Proof.
  revert n table. induction ps as [|[p0 pd] ps IH]; intros n table; simpl;
    [done|].
  destruct (perf_at perf_data w n) as [x|e'] eqn:E.
  2: { intros [= <-]. split.
       - destruct (perf_at_raises _ _ _ E) as [->| ->]; auto.
       - intros H _. specialize (H 0 ltac:(simpl; lia)).
         by rewrite Nat.add_0_r, E in H. }
  destruct (score_of scores p0) as [sc|e'] eqn:Es.
  2: { intros [= <-]. pose proof (score_of_raises _ _ _ Es) as ->.
       split; [auto|]. intros _ Hs.
       destruct (Hs p0 ltac:(apply list_elem_of_here)) as [sc Hsc].
       unfold score_of in Es. by rewrite Hsc in Es. }
  destruct (insert _ table) as [t1|e'] eqn:Ei.
  2: { intros [= <-]. apply insert_Raise in Ei as ->. auto. }
  intros [H1 H2]%IH. split; [done|]. intros H Hs. apply H2.
  - intros k Hk. replace (S n + k) with (n + S k) by lia. apply H. simpl. lia.
  - intros p Hp. apply Hs. by apply list_elem_of_further.
Qed.

Lemma insert_workloads_total scores (ws : list (str * WorkloadInfo)) table :
  (forall w, w ∈ ws.*1 -> forall k, k < length policies ->
     is_ok (perf_at perf_data w k) = true) ->
  (forall p, p ∈ policies.*1 -> is_Some (scores !! p)) ->
  (forall w k x, w ∈ ws.*1 -> k < length policies ->
     perf_at perf_data w k = Ok x -> is_nan x = false) ->
  (forall p sc, p ∈ policies.*1 -> scores !! p = Some sc ->
     is_nan sc = false) ->
  is_ok (insert_workloads policies perf_data scores ws table) = true.
Proof.
  intros H Hs Hx Hsc. revert table H Hx.
  induction ws as [|[w wd] ws IH]; intros table H Hx; simpl; [done|].
  pose proof (insert_policies_total scores w (w_description wd) policies 0
                table (H w ltac:(apply list_elem_of_here)) Hs
                (fun k x => Hx w k x ltac:(apply list_elem_of_here)) Hsc) as Hp.
  destruct (insert_policies perf_data scores w (w_description wd) policies 0
              table) as [table'|e]; [|done].
  apply IH.
  - intros w' Hw'. apply H. by apply list_elem_of_further.
  - intros w' k x Hw'. apply Hx. by apply list_elem_of_further.
Qed.

Lemma insert_workloads_stored scores (ws : list (str * WorkloadInfo))
    table table' :
  insert_workloads policies perf_data scores ws table = Ok table' ->
  (forall w k x, w ∈ ws.*1 -> k < length policies ->
     perf_at perf_data w k = Ok x -> is_nan x = false) /\
  (ws <> [] ->
   forall p sc, p ∈ policies.*1 -> scores !! p = Some sc -> is_nan sc = false).
Proof.
  revert table. induction ws as [|[w wd] ws IH]; intros table; simpl.
  - intros _. split; [|done]. intros w k x Hw. by apply elem_of_nil in Hw.
  - destruct (insert_policies perf_data scores w (w_description wd) policies 0
                table) as [t1|e] eqn:E1; [|done].
    apply insert_policies_stored in E1 as [Hx Hsc].
    intros [IH1 _]%IH. split; [|done].
    intros w' k x [->|Hw']%elem_of_cons Hk; [by apply (Hx k x)|by apply IH1].
Qed.

Lemma insert_workloads_shape scores (ws : list (str * WorkloadInfo))
    table table' :
  insert_workloads policies perf_data scores ws table = Ok table' ->
  exists rows,
    table' = table ++ rows /\
    workload <$> rows = ws.*1 ≫= replicate (length policies) /\
    policy <$> rows = ws ≫= (fun _ => policies.*1) /\
    Forall no_nan rows.
Proof.
  revert table. induction ws as [|[w wd] ws IH]; intros table; simpl.
  - intros [= <-]. exists []. by rewrite app_nil_r.
  - destruct (insert_policies perf_data scores w (w_description wd) policies 0
                table) as [t1|e] eqn:E1; [|done].
    apply insert_policies_shape in E1 as (rows1 & -> & Hw1 & Hp1 & Hn1).
    intros (rows & -> & Hw & Hp & Hn)%IH. exists (rows1 ++ rows).
    rewrite <- app_assoc. split; [done|].
    rewrite !fmap_app, Hw1, Hp1, Hw, Hp. split; [done|]. split; [done|].
    by apply Forall_app.
Qed.

Lemma insert_workloads_raises scores (ws : list (str * WorkloadInfo)) table e :
  insert_workloads policies perf_data scores ws table = Raise e ->
  (e = KeyError \/ e = IndexError \/ e = IntegrityError) /\
  ((forall w, w ∈ ws.*1 -> forall k, k < length policies ->
      is_ok (perf_at perf_data w k) = true) ->
   (forall p, p ∈ policies.*1 -> is_Some (scores !! p)) ->
   e = IntegrityError).
Proof.
  revert table. induction ws as [|[w wd] ws IH]; intros table; simpl; [done|].
  destruct (insert_policies perf_data scores w (w_description wd) policies 0
              table) as [t1|e'] eqn:E1.
  - intros [H1 H2]%IH. split; [done|]. intros H Hs. apply H2; [|done].
    intros w' Hw'. apply H. by apply list_elem_of_further.
  - intros [= <-]. apply insert_policies_raises in E1 as [H1 H2].
    split; [done|]. intros H Hs. apply H2; [|done].
    apply H. apply list_elem_of_here.
Qed.

Lemma insert_all_total scores (ps : list (str * PolicyInfo)) table :
  (forall p, p ∈ ps.*1 -> is_Some (scores !! p)) ->
  (forall p sc, p ∈ ps.*1 -> scores !! p = Some sc -> is_nan sc = false) ->
  is_ok (insert_all scores ps table) = true.
Proof.
  revert table. induction ps as [|[p0 pd] ps IH]; intros table Hs Hsc; simpl;
    [done|].
  unfold score_of.
  destruct (Hs p0 ltac:(apply list_elem_of_here)) as [sc Esc]. rewrite Esc.
  unfold insert. cbn [cache_hit_rate score].
  rewrite (Hsc p0 sc ltac:(apply list_elem_of_here) Esc). cbn [orb].
  apply IH.
  - intros p Hp. apply Hs. by apply list_elem_of_further.
  - intros p sc' Hp. apply Hsc. by apply list_elem_of_further.
Qed.

Lemma insert_all_stored scores (ps : list (str * PolicyInfo)) table table' :
  insert_all scores ps table = Ok table' ->
  forall p sc, p ∈ ps.*1 -> scores !! p = Some sc -> is_nan sc = false.
Proof.
  revert table. induction ps as [|[p0 pd] ps IH]; intros table; simpl.
  - intros _ p sc Hp. by apply elem_of_nil in Hp.
  - unfold score_of. destruct (scores !! p0) as [sc0|] eqn:Esc; [|done].
    destruct (insert _ table) as [t1|e] eqn:Ei; [|done].
    apply insert_Ok in Ei as (_ & Hn1 & _). cbn [cache_hit_rate] in Hn1.
    intros H p sc [->|Hp]%elem_of_cons; [|by eapply IH].
    rewrite Esc. by intros [= <-].
Qed.

Lemma insert_all_shape scores (ps : list (str * PolicyInfo)) table table' :
  insert_all scores ps table = Ok table' ->
  exists rows,
    table' = table ++ rows /\
    workload <$> rows = replicate (length ps) all /\
    policy <$> rows = ps.*1 /\
    Forall no_nan rows.
Proof.
  revert table. induction ps as [|[p0 pd] ps IH]; intros table; simpl.
  - intros [= <-]. exists []. by rewrite app_nil_r.
  - destruct (score_of scores p0) as [sc|e]; [|done].
    destruct (insert _ table) as [t1|e] eqn:Ei; [|done].
    apply insert_Ok in Ei as (-> & Hn1 & Hn2).
    intros (rows & -> & Hw & Hp & Hn)%IH. eexists (_ :: rows).
    rewrite <- app_assoc. split; [done|]. cbn [fmap list_fmap].
    fold (fmap (M := list) workload rows). fold (fmap (M := list) policy rows).
    rewrite Hw, Hp. split; [done|]. split; [done|]. by constructor.
Qed.

Lemma insert_all_raises scores (ps : list (str * PolicyInfo)) table e :
  insert_all scores ps table = Raise e ->
  (e = KeyError \/ e = IntegrityError) /\
  ((forall p, p ∈ ps.*1 -> is_Some (scores !! p)) -> e = IntegrityError).
Proof.
  revert table. induction ps as [|[p0 pd] ps IH]; intros table; simpl; [done|].
  destruct (score_of scores p0) as [sc|e'] eqn:Es.
  2: { intros [= <-]. pose proof (score_of_raises _ _ _ Es) as ->.
       split; [auto|]. intros Hs.
       destruct (Hs p0 ltac:(apply list_elem_of_here)) as [sc Hsc].
       unfold score_of in Es. by rewrite Hsc in Es. }
  destruct (insert _ table) as [t1|e'] eqn:Ei.
  2: { intros [= <-]. apply insert_Raise in Ei as ->. auto. }
  intros [H1 H2]%IH. split; [done|]. intros Hs. apply H2.
  intros p Hp. apply Hs. by apply list_elem_of_further.
Qed.

Lemma perf_complete_spec (workloads : list (str * WorkloadInfo)) :
  perf_complete workloads policies perf_data = true <->
  forall w, w ∈ workloads.*1 -> forall k, k < length policies ->
    is_ok (perf_at perf_data w k) = true.
Proof.
  unfold perf_complete. rewrite forallb_forall. split.
  - intros H w Hw%list_elem_of_In k Hk. specialize (H w Hw).
    rewrite forallb_forall in H. apply H. apply in_seq. lia.
  - intros H w Hw%list_elem_of_In. apply forallb_forall.
    intros k Hk%in_seq. apply H; [done|lia].
Qed.

Lemma length_bind_replicate {A} (l : list A) n :
  length (l ≫= replicate n) = length l * n.
Proof.
  induction l as [|x l IH]; [done|].
  rewrite bind_cons, length_app, length_replicate, IH. simpl. lia.
Qed.

Lemma rates_of_Forall2 (workloads : list (str * WorkloadInfo)) k col :
  Forall2 (fun w x => perf_at perf_data w k = Ok x) workloads.*1 col ->
  rates_of workloads perf_data k = col.
Proof.
  unfold rates_of. generalize (workloads.*1). intros ws.
  induction 1 as [|w x ws col Hx _ IH]; [done|].
  cbn [omap list_omap]. rewrite Hx. cbn. f_equal. exact IH.
Qed.

Lemma rates_of_elem (workloads : list (str * WorkloadInfo)) k x :
  x ∈ rates_of workloads perf_data k <->
  exists w, w ∈ workloads.*1 /\ perf_at perf_data w k = Ok x.
Proof.
  unfold rates_of. rewrite list_elem_of_omap. split.
  - intros (w & Hw & E). exists w. split; [done|].
    destruct (perf_at perf_data w k); by simplify_eq.
  - intros (w & Hw & E). exists w. split; [done|]. by rewrite E.
Qed.

End SeedingRuns.

(** The scores of the script are the averages of the columns of
    [perf_data]. *)
Lemma scores_columns sum (workloads : list (str * DB_Connection.WorkloadInfo))
    policies perf_data m k p :
  NoDup policies.*1 -> workloads <> [] ->
  DB_Connection.collect_workloads policies perf_data workloads.*1 ∅ = Ok m ->
  policies.*1 !! k = Some p ->
  DB_Connection.policy_scores sum m !! p =
  Some (DB_Connection.average sum (rates_of workloads perf_data k)).
Proof.
  intros Hnd Hne Ec Hk.
  destruct (collect_workloads_spec policies perf_data Hnd _ _ _ Ec k p Hk)
    as (col & Hcol & Hm & Hsome).
  rewrite (rates_of_Forall2 perf_data workloads k col Hcol).
  unfold DB_Connection.policy_scores. rewrite lookup_fmap.
  destruct Hsome as [l Hl]; [by destruct workloads|].
  rewrite Hl in Hm |- *. rewrite lookup_empty in Hm. simpl in Hm. by subst l.
Qed.

Lemma storable_spec sum (workloads : list (str * DB_Connection.WorkloadInfo))
    policies perf_data :
  storable sum workloads policies perf_data = true <->
  (forall w k x, w ∈ workloads.*1 -> k < length policies ->
     DB_Connection.perf_at perf_data w k = Ok x -> is_nan x = false) /\
  (forall k, k < length policies ->
     is_nan (DB_Connection.average sum (rates_of workloads perf_data k)) =
     false).
Proof.
  unfold storable. rewrite forallb_forall. split.
  - intros H. split.
    + intros w k x Hw Hk Hx.
      specialize (H k ltac:(apply in_seq; lia)) as [H _]%andb_prop.
      rewrite forallb_forall in H. apply negb_true_iff, H.
      apply list_elem_of_In, rates_of_elem. by exists w.
    + intros k Hk.
      specialize (H k ltac:(apply in_seq; lia)) as [_ H]%andb_prop.
      by apply negb_true_iff.
  - intros [H1 H2] k Hk%in_seq. apply andb_true_intro. split.
    + apply forallb_forall. intros x (w & Hw & Hx)%list_elem_of_In%rates_of_elem.
      apply negb_true_iff. apply (H1 w k x); [done|lia|done].
    + apply negb_true_iff, H2. lia.
Qed.

(** X9.  The seeding script runs to its end exactly when [perf_data] has a
    rate for every workload and policy, there is at least one workload if
    there are policies, and neither a rate nor the average of the rates of a
    policy is a NaN, which the table does not take.  Otherwise it stops: with
    a [KeyError] or an [IndexError] when a rate or a workload is missing,
    with an [IntegrityError] when all are there and a NaN is among them.
    The table it leaves has one row per workload and policy, workload by
    workload in the order of the two dictionaries, followed by one row per
    policy under ["all"], and no NaN in it. *)
Theorem seed_runs (sum : list float -> float)
    (workloads : list (str * DB_Connection.WorkloadInfo))
    (policies : list (str * DB_Connection.PolicyInfo))
    (perf_data : list (str * list float)) :
  NoDup policies.*1 ->
  (is_ok (DB_Connection.seed sum workloads policies perf_data) = true <->
   perf_complete workloads policies perf_data = true /\
   (workloads = [] -> policies = []) /\
   storable sum workloads policies perf_data = true) /\
  (DB_Connection.seed sum workloads policies perf_data = Raise IntegrityError <->
   perf_complete workloads policies perf_data = true /\
   (workloads = [] -> policies = []) /\
   storable sum workloads policies perf_data = false) /\
  (forall table,
     DB_Connection.seed sum workloads policies perf_data = Ok table ->
     workload <$> table =
       (workloads.*1 ≫= replicate (length policies)) ++
       replicate (length policies) all /\
     policy <$> table = (workloads ≫= (fun _ => policies.*1)) ++ policies.*1 /\
     length table = (length workloads + 1) * length policies /\
     Forall no_nan table) /\
  (forall e,
     DB_Connection.seed sum workloads policies perf_data = Raise e ->
     e = KeyError \/ e = IndexError \/ e = IntegrityError).
Proof.
  intros Hnd.
  assert (forall m,
    DB_Connection.collect_workloads policies perf_data workloads.*1 ∅ = Ok m ->
    (workloads = [] -> policies = []) ->
    forall p, p ∈ policies.*1 ->
      exists k, k < length policies /\
        DB_Connection.policy_scores sum m !! p =
        Some (DB_Connection.average sum (rates_of workloads perf_data k)))
    as Hscores.
  { intros m Ec He p Hp. pose proof Hp as [k Hk]%list_elem_of_lookup_1.
    exists k. split.
    - apply lookup_lt_Some in Hk. by rewrite length_fmap in Hk.
    - eapply scores_columns; [done| |done|done].
      intros Hw. rewrite (He Hw) in Hp. by apply elem_of_nil in Hp. }
  assert (is_ok (DB_Connection.seed sum workloads policies perf_data) = true <->
          perf_complete workloads policies perf_data = true /\
          (workloads = [] -> policies = []) /\
          storable sum workloads policies perf_data = true) as Hiff.
  { unfold DB_Connection.seed. split.
    - intros H.
      destruct (DB_Connection.collect_workloads policies perf_data
                  workloads.*1 ∅) as [m|e] eqn:Ec; [|done].
      assert (workloads = [] -> policies = []) as He.
      { intros ->. destruct policies as [|[p0 pd] ps]; [done|]. exfalso.
        simpl in Ec. injection Ec as <-. simpl in H.
        unfold DB_Connection.policy_scores, DB_Connection.score_of in H.
        by rewrite fmap_empty, lookup_empty in H. }
      split; [apply perf_complete_spec; by eapply collect_workloads_complete|].
      split; [done|]. apply storable_spec.
      destruct (DB_Connection.insert_workloads policies perf_data
                  (DB_Connection.policy_scores sum m) workloads [])
        as [t|e] eqn:E1; [|done].
      destruct (DB_Connection.insert_all (DB_Connection.policy_scores sum m)
                  policies t) as [t'|e] eqn:E2; [|done].
      apply insert_workloads_stored in E1 as [Hx _].
      pose proof (insert_all_stored _ _ _ _ E2) as Hsc.
      split; [exact Hx|]. intros k Hk.
      destruct (lookup_lt_is_Some_2 policies.*1 k) as [p Hp];
        [by rewrite length_fmap|].
      apply (Hsc p); [by eapply list_elem_of_lookup_2|].
      eapply scores_columns; [done| |done|done].
      intros Hw. rewrite (He Hw) in Hk. simpl in Hk. lia.
    - intros (Hc & He & [Hx Hav]%storable_spec).
      rewrite perf_complete_spec in Hc.
      destruct (collect_workloads_total policies perf_data workloads.*1 ∅ Hc)
        as (m & Ec & Hdom). rewrite Ec.
      assert (forall p, p ∈ policies.*1 ->
                is_Some (DB_Connection.policy_scores sum m !! p)) as Hs.
      { intros p Hp. destruct (Hscores m Ec He p Hp) as (k & _ & ->).
        by eexists. }
      assert (forall p sc, p ∈ policies.*1 ->
                DB_Connection.policy_scores sum m !! p = Some sc ->
                is_nan sc = false) as Hsc.
      { intros p sc Hp Hl. destruct (Hscores m Ec He p Hp) as (k & Hk & E).
        rewrite E in Hl. injection Hl as <-. by apply Hav. }
      pose proof (insert_workloads_total policies perf_data _ workloads []
                    Hc Hs Hx Hsc) as Hw.
      destruct (DB_Connection.insert_workloads policies perf_data
                  (DB_Connection.policy_scores sum m) workloads []) as [t|e];
        [|done].
      by apply insert_all_total. }
  assert (forall e,
     DB_Connection.seed sum workloads policies perf_data = Raise e ->
     (e = KeyError \/ e = IndexError \/ e = IntegrityError) /\
     (perf_complete workloads policies perf_data = true ->
      (workloads = [] -> policies = []) -> e = IntegrityError) /\
     (e = IntegrityError ->
      perf_complete workloads policies perf_data = true /\
      (workloads = [] -> policies = []))) as Hraise.
  { unfold DB_Connection.seed. intros e H.
    destruct (DB_Connection.collect_workloads policies perf_data
                workloads.*1 ∅) as [m|e'] eqn:Ec.
    2: { injection H as <-. split; [|split].
         - destruct (collect_workloads_raises _ _ _ _ _ Ec) as [->| ->]; auto.
         - intros Hc _. rewrite perf_complete_spec in Hc.
           destruct (collect_workloads_total policies perf_data workloads.*1
                       ∅ Hc) as (m & Ec' & _). congruence.
         - intros ->.
           by destruct (collect_workloads_raises _ _ _ _ _ Ec). }
    pose proof (collect_workloads_complete _ _ _ _ _ Ec) as Hc.
    destruct workloads as [|w0 workloads'] eqn:Ew.
    { simpl in Ec. injection Ec as <-. simpl in H.
      destruct policies as [|[p0 pd] ps]; [done|]. simpl in H.
      unfold DB_Connection.policy_scores, DB_Connection.score_of in H.
      rewrite fmap_empty, lookup_empty in H. injection H as <-.
      split; [auto|]. split; [|done]. intros _ He. by specialize (He eq_refl). }
    rewrite <- Ew in *.
    assert (workloads = [] -> policies = []) as He by (by rewrite Ew).
    assert (forall p, p ∈ policies.*1 ->
              is_Some (DB_Connection.policy_scores sum m !! p)) as Hs.
    { intros p Hp. destruct (Hscores m eq_refl He p Hp) as (k & _ & ->).
      by eexists. }
    assert (e = IntegrityError) as ->.
    { destruct (DB_Connection.insert_workloads policies perf_data
                  (DB_Connection.policy_scores sum m) workloads [])
        as [t|e'] eqn:E1.
      - apply insert_all_raises in H as [_ H]. by apply H.
      - injection H as <-. apply insert_workloads_raises in E1 as [_ E1].
        by apply E1. }
    split; [auto|]. split; [done|]. intros _.
    split; [by apply perf_complete_spec | done]. }
  split; [exact Hiff|]. split; [|split].
  - split.
    + intros H. destruct (Hraise _ H) as (_ & _ & [Hc He]); [done|].
      split; [done|]. split; [done|].
      destruct (storable sum workloads policies perf_data) eqn:Es; [|done].
      assert (is_ok (DB_Connection.seed sum workloads policies perf_data) = true)
        as Hok by (by apply Hiff).
      by rewrite H in Hok.
    + intros (Hc & He & Hst).
      destruct (DB_Connection.seed sum workloads policies perf_data)
        as [table|e] eqn:E.
      * assert (storable sum workloads policies perf_data = true) as Hst'
          by (by apply Hiff).
        congruence.
      * destruct (Hraise _ eq_refl) as (_ & H & _). by rewrite (H Hc He).
  - intros table H. unfold DB_Connection.seed in H.
    destruct (DB_Connection.collect_workloads policies perf_data
                workloads.*1 ∅) as [m|e]; [|done].
    destruct (DB_Connection.insert_workloads policies perf_data
                (DB_Connection.policy_scores sum m) workloads []) as [t|e] eqn:E1;
      [|done].
    apply insert_workloads_shape in E1 as (rows1 & -> & Hw1 & Hp1 & Hn1).
    apply insert_all_shape in H as (rows2 & -> & Hw2 & Hp2 & Hn2).
    cbn [app]. rewrite !fmap_app, Hw1, Hp1, Hw2, Hp2. split; [done|].
    split; [done|]. split; [|by apply Forall_app].
    rewrite <- (length_fmap workload), fmap_app, Hw1, Hw2.
    rewrite length_app, length_bind_replicate, length_replicate, length_fmap.
    lia.
  - intros e H. by destruct (Hraise e H) as (? & _).
Qed.

Lemma seed_runs_witness :
  perf_complete DB_Connection.workloads DB_Connection.policies
    DB_Connection.perf_data = true /\
  storable neumaier_sum DB_Connection.workloads DB_Connection.policies
    DB_Connection.perf_data = true /\
  exists table,
    DB_Connection.seed neumaier_sum DB_Connection.workloads
      DB_Connection.policies DB_Connection.perf_data = Ok table /\
    length table = 36 /\ Forall no_nan table.
Proof.
  assert (NoDup DB_Connection.policies.*1) as Hnd
    by (apply (bool_decide_unpack _); vm_compute; reflexivity).
  destruct (seed_runs neumaier_sum DB_Connection.workloads
              DB_Connection.policies DB_Connection.perf_data Hnd)
    as (Hiff & _ & Hshape & _).
  split; [vm_compute; reflexivity|]. split; [vm_compute; reflexivity|].
  assert (is_ok (DB_Connection.seed neumaier_sum DB_Connection.workloads
                   DB_Connection.policies DB_Connection.perf_data) = true)
    as Hok.
  { apply Hiff. split; [vm_compute; reflexivity|].
    split; [discriminate | vm_compute; reflexivity]. }
  destruct (DB_Connection.seed neumaier_sum DB_Connection.workloads
              DB_Connection.policies DB_Connection.perf_data)
    as [table|e]; [|discriminate Hok].
  exists table. destruct (Hshape table eq_refl) as (_ & _ & Hlen & Hn).
  split; [reflexivity|]. split; [exact Hlen | exact Hn].
Defined.

(** A NaN among the rates: the first [INSERT] fails. *)
Example seed_rejects_nan :
  DB_Connection.seed py_sum (take 1 DB_Connection.workloads)
    (take 1 DB_Connection.policies) [(py "astar", [nan])] =
    Raise IntegrityError /\
  storable py_sum (take 1 DB_Connection.workloads)
    (take 1 DB_Connection.policies) [(py "astar", [nan])] = false.
Proof. vm_compute. by split. Qed.

(** ** The division of the stopping test *)

Lemma float_pos_nonzero x : (0 <? x)%float = true -> (x =? 0)%float = false.
Proof.
  rewrite ltb_spec, FloatAxioms.eqb_spec.
  change (Prim2SF 0) with (S754_zero false).
  destruct (Prim2SF x) as [sg|sg| |sg m e]; try done; by destruct sg.
Qed.

Lemma decided_pos st :
  (0 <? best_hit st)%float = true -> (0 <? decided st)%float = true.
Proof.
  intros H. unfold decided.
  destruct (best_hit st <? current_hit st)%float eqn:E; [|done].
  by eapply float_ltb_trans.
Qed.

Lemma compose_pos ses st :
  (0 <? best_hit st)%float = true -> (0 <? (compose ses st).2)%float = true.
Proof.
  intros H. rewrite compose_best. destruct (i st =? 0)%nat; [done|].
  by apply decided_pos.
Qed.

Lemma reachable_pos U ses db0 files0 st0 st :
  main_init ses db0 files0 = Ok st0 ->
  (0 <? best_hit st0)%float = true ->
  reachable U ses db0 files0 st ->
  (0 <? best_hit st)%float = true.
Proof.
  intros Hinit Hpos. induction 1 as [st Hst|st a st' _ IH Hstep].
  - rewrite Hinit in Hst. by injection Hst as <-.
  - pose proof (step_best U ses st a) as Hb. rewrite Hstep in Hb.
    cbn [final] in Hb. rewrite Hb. by apply compose_pos.
Qed.

(** X10.  When the score the run starts from is positive, [best_hit] stays
    positive, so that the division [current_hit/best_hit] of the stopping
    test never fails: a pass that evaluated its candidate ends in [break] or
    goes on to the next pass, and an exception ends a pass only before the
    counter advances. *)
Theorem positive_seed_division_defined (U : unicode_db) (ses : Session)
    (db0 : list Trial) (files0 : gmap str str) (st0 st : State) (a : Attempt) :
  main_init ses db0 files0 = Ok st0 ->
  (0 <? best_hit st0)%float = true ->
  reachable U ses db0 files0 st ->
  (0 <? best_hit st)%float = true /\
  (0 <? (compose ses st).2)%float = true /\
  (forall e st', step U ses st a = Abort e st' -> i st' = i st) /\
  (i (final (step U ses st a)) = S (i st) ->
   step U ses st a =
     (if (1.3 <? current_hit (final (step U ses st a)) / (compose ses st).2)%float
      then Break else Next) (final (step U ses st a))).
Proof.
  intros Hinit Hpos Hr.
  pose proof (reachable_pos U _ _ _ _ _ Hinit Hpos Hr) as Hst.
  pose proof (compose_pos ses st Hst) as Hc.
  pose proof (float_pos_nonzero _ Hc) as Hnz.
  split; [done|]. split; [done|].
  destruct (step_cases U ses st a) as
    [(e & _ & E) | (name & desc & code & _ &
       [(_ & E) | [(_ & e & d' & E) | (_ & ts & _ & H)]])].
  1-3: rewrite E; cbn [final with_best i]; split;
    [by intros e0 st' [= _ <-] || done | intros; lia].
  cbv zeta in H. unfold float_div in H. rewrite Hnz in H.
  destruct (1.3 <? mean ts / (compose ses st).2)%float eqn:Er;
    rewrite H; cbn [final current_hit]; rewrite Er; by split.
Qed.

Lemma positive_seed_division_defined_witness :
  (0 <? best_hit sample_second)%float = true /\
  (0 <? (compose (sample_session 0.5) sample_second).2)%float = true /\
  (forall e st',
     step ucd_excerpt (sample_session 0.5) sample_second
       (sample_attempt true "100" "90") = Abort e st' ->
     i st' = i sample_second) /\
  (i (final (step ucd_excerpt (sample_session 0.5) sample_second
               (sample_attempt true "100" "90"))) = S (i sample_second) ->
   step ucd_excerpt (sample_session 0.5) sample_second
     (sample_attempt true "100" "90") =
     (if (1.3 <? current_hit
                   (final (step ucd_excerpt (sample_session 0.5) sample_second
                             (sample_attempt true "100" "90"))) /
                 (compose (sample_session 0.5) sample_second).2)%float
      then Break else Next)
       (final (step ucd_excerpt (sample_session 0.5) sample_second
                 (sample_attempt true "100" "90")))).
Proof.
  exact (positive_seed_division_defined ucd_excerpt (sample_session 0.5) [] ∅
           (sample_init 0.5) sample_second (sample_attempt true "100" "90")
           eq_refl eq_refl sample_second_reachable).
Defined.

Lemma reachable_zero U ses db0 files0 st0 st :
  main_init ses db0 files0 = Ok st0 ->
  (best_hit st0 =? 0)%float = true ->
  reachable U ses db0 files0 st ->
  i st = 0 /\ best_hit st = best_hit st0 /\ db st = db0 /\
  previous st = (None, None, None).
Proof.
  intros Hinit Hz. induction 1 as [st Hst|st a st' _ (Hi & Hb & Hd & Hp) Hstep].
  - rewrite Hinit in Hst. injection Hst as <-. unfold main_init in Hinit.
    destruct (top_policies ses); [done|]. by injection Hinit as <-.
  - assert ((compose ses st).2 = best_hit st0) as Hc
      by (by rewrite compose_best, Hi, Hb).
    destruct (step_cases U ses st a) as
      [(e & _ & E) | (name & desc & code & _ &
         [(_ & E) | [(_ & e & d' & E) | (_ & ts & _ & H)]])].
    1,3: by rewrite E in Hstep.
    + rewrite E in Hstep. injection Hstep as <-. by rewrite Hc.
    + cbv zeta in H. unfold float_div in H. rewrite Hc, Hz in H.
      by rewrite H in Hstep.
Qed.

(** X11.  When the score the run starts from is zero, no candidate is ever
    accepted: the loop stays at its first pass, with the ledger as it found
    it, for as long as builds fail, and the first candidate that is
    evaluated ends the run with [ZeroDivisionError] at the stopping test,
    after its six rows were written. *)
Theorem zero_seed_never_accepts (U : unicode_db) (ses : Session)
    (db0 : list Trial) (files0 : gmap str str) (st0 st : State) (a : Attempt) :
  main_init ses db0 files0 = Ok st0 ->
  (best_hit st0 =? 0)%float = true ->
  reachable U ses db0 files0 st ->
  i st = 0 /\ db st = db0 /\ previous st = (None, None, None) /\
  (forall st', step U ses st a = Break st' -> False) /\
  (i (final (step U ses st a)) = S (i st) ->
   step U ses st a = Abort ZeroDivisionError (final (step U ses st a)) /\
   length (db (final (step U ses st a))) = length db0 + 6).
Proof.
  intros Hinit Hz Hr.
  destruct (reachable_zero U _ _ _ _ _ Hinit Hz Hr) as (Hi & Hb & Hd & Hp).
  assert ((compose ses st).2 = best_hit st0) as Hc
    by (by rewrite compose_best, Hi, Hb).
  split; [done|]. split; [done|]. split; [done|].
  destruct (step_cases U ses st a) as
    [(e & _ & E) | (name & desc & code & _ &
       [(_ & E) | [(_ & e & d' & E) | (_ & ts & Hts & H)]])].
  1-3: rewrite E; cbn [final with_best i]; split; [done | intros; lia].
  cbv zeta in H. unfold float_div in H. rewrite Hc, Hz in H. rewrite H.
  split; [done|]. intros _. split; [done|]. cbn [final db].
  rewrite !length_app, workload_rows_length, Hd by (by eapply Forall2_length).
  simpl. lia.
Qed.

Lemma zero_seed_never_accepts_witness :
  i (sample_init 0) = 0 /\ db (sample_init 0) = [] /\
  previous (sample_init 0) = (None, None, None) /\
  (forall st',
     step ucd_excerpt (sample_session 0) (sample_init 0)
       (sample_attempt true "100" "60") = Break st' -> False) /\
  (i (final (step ucd_excerpt (sample_session 0) (sample_init 0)
               (sample_attempt true "100" "60"))) = S (i (sample_init 0)) ->
   step ucd_excerpt (sample_session 0) (sample_init 0)
     (sample_attempt true "100" "60") =
     Abort ZeroDivisionError
       (final (step ucd_excerpt (sample_session 0) (sample_init 0)
                 (sample_attempt true "100" "60"))) /\
   length (db (final (step ucd_excerpt (sample_session 0) (sample_init 0)
                        (sample_attempt true "100" "60")))) =
     length ([] : list Trial) + 6).
Proof.
  exact (zero_seed_never_accepts ucd_excerpt (sample_session 0) [] ∅
           (sample_init 0) (sample_init 0) (sample_attempt true "100" "60")
           eq_refl eq_refl (sample_init_reachable ucd_excerpt 0)).
Defined.
